(** * Offline synchronisation service of the AgroClash platform

    A shallow embedding of [MockOfflineService] (the action queue, the
    drain pass of [syncData] and the conflict resolver) and of the network
    notification of [BaseOfflineService], with the properties the
    specification states about them. *)

From Stdlib Require Import ZArith Lia Ascii.
From stdpp Require Import base option list gmap strings pretty.


(** ** JavaScript values

    Records travel through the service as values of type [any].  Objects
    are finite maps from property names to values; numbers are the
    integral ones, with [JNaN] apart. *)

#[warnings="-register-all"]
Inductive JsVal : Type :=
  | JUndefined
  | JNull
  | JBool (b : bool)
  | JNum (z : Z)
  | JNaN
  | JStr (s : string)
  | JObj (fields : gmap string JsVal).

(** ToBoolean: [undefined], [null], [false], [0], [NaN] and the empty
    string are falsy, everything else is truthy. *)
Definition truthy (v : JsVal) : bool :=
  match v with
  | JUndefined | JNull | JNaN => false
  | JBool b => b
  | JNum z => negb (z =? 0)%Z
  | JStr s => negb (String.eqb s "")
  | JObj _ => true
  end.

(** The own enumerable properties of a string: its characters, keyed by
    their index. *)
Fixpoint str_props (i : nat) (s : string) : gmap string JsVal :=
  match s with
  | EmptyString => ∅
  | String c rest => <[pretty i := JStr (String c EmptyString)]> (str_props (S i) rest)
  end.

(** What the spread [{...v}] copies. *)
Definition own_props (v : JsVal) : gmap string JsVal :=
  match v with
  | JObj fields => fields
  | JStr s => str_props 0 s
  | _ => ∅
  end.

(** Property read [v.k] for the two names the resolver reads
    ([updated_at] and [id]); a missing property reads [undefined]. *)
Definition get_prop (v : JsVal) (k : string) : JsVal :=
  default JUndefined (own_props v !! k).

(** [a || b]. *)
Definition js_or (a b : JsVal) : JsVal := if truthy a then a else b.

(** [x > y] on the results of [getTime()]: [None] is [NaN], and every
    comparison with [NaN] is false. *)
Definition js_gt (x y : option Z) : bool :=
  match x, y with
  | Some a, Some b => (b <? a)%Z
  | _, _ => false
  end.

Section ConflictResolver.

(** [Date.parse] on strings is a built-in of the platform; [None] is
    [NaN] (an invalid date). *)
Variable Date_parse : string → option Z.

(** TimeClip: a time value beyond 8.64e15 ms is an invalid date. *)
Definition time_clip (z : Z) : option Z :=
  if (Z.abs z <=? 8640000000000000)%Z then Some z else None.

(** [new Date(v).getTime()]. *)
Definition getTime (v : JsVal) : option Z :=
  match v with
  | JUndefined | JNaN => None
  | JNull => Some 0%Z
  | JBool b => Some (if b then 1 else 0)%Z
  | JNum z => time_clip z
  | JStr s => Date_parse s
  | JObj _ => Date_parse "[object Object]"
  end.

(** [{...localData, ...serverData, id: localData.id || serverData.id}] *)
Definition merge_records (localData serverData : JsVal) : JsVal :=
  JObj (<["id" := js_or (get_prop localData "id") (get_prop serverData "id")]>
          (own_props serverData ∪ own_props localData)).

Definition resolveConflicts (localData serverData : JsVal) : JsVal :=
  if negb (truthy localData) then serverData
  else if negb (truthy serverData) then localData
  else if truthy (get_prop localData "updated_at")
          && truthy (get_prop serverData "updated_at")
  then
    let localTime := getTime (get_prop localData "updated_at") in
    let serverTime := getTime (get_prop serverData "updated_at") in
    if js_gt localTime serverTime then localData else serverData
  else merge_records localData serverData.

End ConflictResolver.

(** ** The action queue

    [OfflineAction] objects are shared by reference between the queue and
    the list of pending actions a drain pass iterates, so the model keeps
    the objects in a heap and the queue as a list of references. *)

Definition loc := nat.

Inductive ActionType : Type := CREATE | UPDATE | DELETE.

Definition type_name (t : ActionType) : string :=
  match t with
  | CREATE => "CREATE"
  | UPDATE => "UPDATE"
  | DELETE => "DELETE"
  end.

Record OfflineAction : Type := mkAction {
  id : string;
  type : ActionType;
  entity : string;
  entityId : string;
  data : JsVal;
  timestamp : Z;
  synced : bool;
  retryCount : Z
}.

(** The argument of [queueAction]:
    [Omit<OfflineAction, 'id' | 'timestamp' | 'synced' | 'retryCount'>]. *)
Record ActionInput : Type := mkInput {
  new_type : ActionType;
  new_entity : string;
  new_entityId : string;
  new_data : JsVal
}.

(** The object a caller passes to [queueAction].  An object that has the
    omitted properties too (an [OfflineAction] is one) is assignable to
    the parameter type, and [queueAction] spreads the whole object: the
    argument is the declared part together with the [id], [timestamp],
    [synced] and [retryCount] it carries, if any. *)
Record ActionArg : Type := mkArg {
  declared_part : ActionInput;
  own_id : option string;
  own_timestamp : option Z;
  own_synced : option bool;
  own_retryCount : option Z
}.

(** An argument with the declared properties and no other. *)
Definition declared (action : ActionInput) : ActionArg :=
  mkArg action None None None None.

Coercion declared : ActionInput >-> ActionArg.

(** [action.synced = true] and [action.retryCount++] on an object. *)
Definition set_synced (a : OfflineAction) : OfflineAction :=
  mkAction (id a) (type a) (entity a) (entityId a) (data a) (timestamp a)
           true (retryCount a).

Definition bump_retry (a : OfflineAction) : OfflineAction :=
  mkAction (id a) (type a) (entity a) (entityId a) (data a) (timestamp a)
           (synced a) (retryCount a + 1)%Z.

(** What [storeData] is given to serialise: the queue or a time stamp. *)
Inductive Stored : Type :=
  | SQueue (q : list OfflineAction)
  | SNumber (n : Z).

(** [window.localStorage]: its items and its quota; [setItem] throws when
    the items would exceed the quota. *)
Record LocalStorage : Type := mkLocalStorage {
  items : gmap string string;
  quota : nat
}.

Definition used (m : gmap string string) : nat :=
  map_fold (λ k v n, String.length k + String.length v + n) 0 m.

Definition setItem (k v : string) (ls : LocalStorage) : option LocalStorage :=
  let m := <[k := v]> (items ls) in
  if decide (used m ≤ quota ls) then Some (mkLocalStorage m (quota ls)) else None.

(** Observable effects: a call of [processAction] on an action, with the
    state of the object when it is submitted and the error it threw if
    any, and a call of [storeData]. *)
Inductive Event : Type :=
  | EProcess (l : loc) (a : OfflineAction) (failure : option string)
  | EStore (key : string) (text : string).

(** The fields of the service ([networkCallbacks] is a [Set] of function
    references, kept in insertion order; [storage] is the in-memory
    [Map]), followed by its environment: the objects the queue refers to,
    the browser's [localStorage] when there is one, and the log of the
    effects so far. *)
Record Service : Type := mkService {
  isOnlineStatus : bool;
  networkCallbacks : list nat;
  syncInProgress : bool;
  storage : gmap string string;
  actionQueue : list loc;
  heap : gmap loc OfflineAction;
  localStorage : option LocalStorage;
  trace : list Event
}.

Definition with_syncInProgress (b : bool) (s : Service) : Service :=
  mkService (isOnlineStatus s) (networkCallbacks s) b (storage s)
            (actionQueue s) (heap s) (localStorage s) (trace s).

(** [this.isOnlineStatus = b], as the [online] and [offline] listeners do. *)
Definition with_isOnlineStatus (b : bool) (s : Service) : Service :=
  mkService b (networkCallbacks s) (syncInProgress s) (storage s)
            (actionQueue s) (heap s) (localStorage s) (trace s).

Definition with_storage (m : gmap string string) (s : Service) : Service :=
  mkService (isOnlineStatus s) (networkCallbacks s) (syncInProgress s) m
            (actionQueue s) (heap s) (localStorage s) (trace s).

Definition with_actionQueue (q : list loc) (s : Service) : Service :=
  mkService (isOnlineStatus s) (networkCallbacks s) (syncInProgress s)
            (storage s) q (heap s) (localStorage s) (trace s).

Definition with_heap (h : gmap loc OfflineAction) (s : Service) : Service :=
  mkService (isOnlineStatus s) (networkCallbacks s) (syncInProgress s)
            (storage s) (actionQueue s) h (localStorage s) (trace s).

Definition with_localStorage (ls : option LocalStorage) (s : Service) : Service :=
  mkService (isOnlineStatus s) (networkCallbacks s) (syncInProgress s)
            (storage s) (actionQueue s) (heap s) ls (trace s).

Definition emit (e : Event) (s : Service) : Service :=
  mkService (isOnlineStatus s) (networkCallbacks s) (syncInProgress s)
            (storage s) (actionQueue s) (heap s) (localStorage s)
            (trace s ++ [e]).

Definition isOnline (s : Service) : bool := isOnlineStatus s.

Definition STORAGE_PREFIX : string := "agroclash_offline_".

(** The objects of the queue, in queue order. *)
Definition queue_objects (s : Service) : list OfflineAction :=
  omap (λ l, heap s !! l) (actionQueue s).

(** The test of [findIndex(a => a.id === actionId)]. *)
Definition has_id (h : gmap loc OfflineAction) (actionId : string) (l : loc) : Prop :=
  id <$> h !! l = Some actionId.

Global Instance has_id_dec h actionId l : Decision (has_id h actionId l) :=
  decide (id <$> h !! l = Some actionId).

Definition findIndex (actionId : string) (s : Service) : option (nat * loc) :=
  list_find (has_id (heap s) actionId) (actionQueue s).

(** [generateId]: [`offline_${Date.now()}_${Math.random().toString(36).substr(2, 9)}`],
    from the clock reading and the random suffix. *)
Definition generateId (now : Z) (suffix : string) : string :=
  "offline_" +:+ pretty now +:+ "_" +:+ suffix.

(** The object literal of [queueAction]:
    [{ id: this.generateId(), timestamp: Date.now(), synced: false,
       retryCount: 0, ...action }].  The spread comes last, so a property
    the argument carries replaces the value written before it. *)
Definition spread_action (action : ActionArg) (generatedId : string) (now : Z)
    : OfflineAction :=
  mkAction (default generatedId (own_id action))
           (new_type (declared_part action)) (new_entity (declared_part action))
           (new_entityId (declared_part action)) (new_data (declared_part action))
           (default now (own_timestamp action))
           (default false (own_synced action))
           (default 0%Z (own_retryCount action)).

(** [processAction]: [None] when it returns, [Some e] when it throws [e]
    (as [`${error}`] prints it).  [roll] is the outcome of the test
    [Math.random() < 0.1]. *)
Definition known_entity (e : string) : bool :=
  bool_decide (e ∈ ["plot"; "crop"; "notification"; "xp_log"; "user"]).

Definition processAction (roll : bool) (a : OfflineAction) : option string :=
  if roll then Some "Error: Simulated network error"
  else if known_entity (entity a) then None
  else Some ("Error: Unknown entity type: " +:+ entity a).

Definition failure_message (a : OfflineAction) (error : string) : string :=
  "Failed to sync " +:+ type_name (type a) +:+ " " +:+ entity a +:+ ": " +:+ error.

Definition removal_notice (actionId : string) : string :=
  "Action " +:+ actionId +:+ " removed after 3 failed attempts".

Record SyncResult : Type := mkResult {
  success : bool;
  syncedActions : Z;
  errors : list string
}.

Section Sync.

(** [JSON.stringify], which [compressData] applies, is a built-in. *)
Variable JSON_stringify : Stored → string.

Definition compressData (d : Stored) : string := JSON_stringify d.

(** [storeData(key, data)]: the in-memory map always takes the text;
    [localStorage] takes it when there is one, and a failing [setItem]
    is only logged. *)
Definition storeData (key : string) (d : Stored) (s : Service) : Service :=
  let storageKey := STORAGE_PREFIX +:+ key in
  let compressedData := compressData d in
  let s := with_storage (<[storageKey := compressedData]> (storage s)) s in
  let s :=
    match localStorage s with
    | Some ls =>
        match setItem storageKey compressedData ls with
        | Some ls' => with_localStorage (Some ls') s
        | None => s
        end
    | None => s
    end in
  emit (EStore key compressedData) s.

Definition store_queue (s : Service) : Service :=
  storeData "actionQueue" (SQueue (queue_objects s)) s.

(** [queueAction(action)] in a run in which [JSON.stringify] returns
    ([queueAction_promise] below has the other runs too).  Returns the
    new state, the value the promise resolves to, and whether a
    [syncData] call was scheduled with [setTimeout]. *)
Definition queueAction (action : ActionArg) (idTime : Z) (suffix : string)
    (now : Z) (s : Service) : Service * JsVal * bool :=
  let queuedAction := spread_action action (generateId idTime suffix) now in
  let l := fresh (dom (heap s)) in
  let s := with_heap (<[l := queuedAction]> (heap s)) s in
  let s := with_actionQueue (actionQueue s ++ [l]) s in
  let s := store_queue s in
  (s, JUndefined, isOnline s).

Definition getQueuedActions (s : Service) : list OfflineAction :=
  queue_objects s.

Definition markActionSynced (actionId : string) (s : Service) : Service :=
  match findIndex actionId s with
  | Some (_, l) =>
      let s := with_heap (alter set_synced l (heap s)) s in
      store_queue s
  | None => s
  end.

Definition removeAction (actionId : string) (s : Service) : Service :=
  match findIndex actionId s with
  | Some (actionIndex, _) =>
      let s := with_actionQueue (delete actionIndex (actionQueue s)) s in
      store_queue s
  | None => s
  end.

Definition clearQueue (s : Service) : Service :=
  store_queue (with_actionQueue [] s).

(** The pending actions of a pass:
    [this.actionQueue.filter(a => !a.synced)]. *)
Definition unsynced (h : gmap loc OfflineAction) (l : loc) : Prop :=
  synced <$> h !! l = Some false.

Global Instance unsynced_dec h l : Decision (unsynced h l) :=
  decide (synced <$> h !! l = Some false).

Definition pending (s : Service) : list loc :=
  filter (unsynced (heap s)) (actionQueue s).

(** The loop state of a drain: the service, [syncedActions] and
    [errors]. *)
Definition Drain : Type := Service * Z * list string.

(** The body of the [for] loop for one pending action; [rolls l] is the
    draw [Math.random() < 0.1] made while [l] is processed.  The test
    [action.retryCount >= 3] reads the count just incremented. *)
Definition drain_step (rolls : loc → bool) (d : Drain) (l : loc) : Drain :=
  let '(s, n, errs) := d in
  match heap s !! l with
  | None => d
  | Some action =>
      let outcome := processAction (rolls l) action in
      let s := emit (EProcess l action outcome) s in
      match outcome with
      | None => (markActionSynced (id action) s, (n + 1)%Z, errs)
      | Some error =>
          let errs := errs ++ [failure_message action error] in
          let s := with_heap (alter bump_retry l (heap s)) s in
          if (3 <=? retryCount action + 1)%Z
          then (removeAction (id action) s,
                n, errs ++ [removal_notice (id action)])
          else (s, n, errs)
      end
  end.

Definition drain (rolls : loc → bool) (ls : list loc) (d : Drain) : Drain :=
  foldl (drain_step rolls) d ls.

(** The end of a pass: the last sync time is stored, the synced
    actions are filtered out and the queue is stored. *)
Definition finish_pass (now : Z) (s : Service) : Service :=
  let s := storeData "lastSync" (SNumber now) s in
  let s := with_actionQueue (pending s) s in
  store_queue s.

Definition syncData (now : Z) (rolls : loc → bool) (s : Service)
    : Service * SyncResult :=
  if syncInProgress s then
    (s, mkResult false 0 ["Sync already in progress"])
  else if negb (isOnline s) then
    (s, mkResult false 0 ["Device is offline"])
  else
    let s := with_syncInProgress true s in
    let '(s, n, errs) := drain rolls (pending s) (s, 0%Z, []) in
    let s := finish_pass now s in
    (with_syncInProgress false s,
     mkResult (length errs =? 0)%nat n errs).

End Sync.

(** How the promise of [queueAction] settles. *)
Inductive Settled : Type :=
  | Resolved (s : Service) (value : JsVal) (scheduled : bool)
  | Rejected (s : Service) (error : string).

Section Promise.

Variable JSON_stringify : Stored → string.

(** [JSON.stringify] throws on a value it cannot serialise, such as a
    payload with a cycle or with a BigInt in it.  The payloads of the
    model are finite trees and do not show which objects are such
    values: [JSON_throws d] says so, giving the error thrown on [d] if
    there is one; [JSON_stringify d] is the text returned otherwise. *)
Variable JSON_throws : Stored → option string.

(** [queueAction(action)], whichever way [JSON.stringify] goes.  The
    action is pushed first; [storeData] then calls [compressData] before
    it stores anything, so that when [JSON.stringify] throws, the promise
    rejects with the action in the queue, nothing stored and no sync
    scheduled. *)
Definition queueAction_promise (action : ActionArg) (idTime : Z)
    (suffix : string) (now : Z) (s : Service) : Settled :=
  let queuedAction := spread_action action (generateId idTime suffix) now in
  let l := fresh (dom (heap s)) in
  let s := with_heap (<[l := queuedAction]> (heap s)) s in
  let s := with_actionQueue (actionQueue s ++ [l]) s in
  match JSON_throws (SQueue (queue_objects s)) with
  | Some error => Rejected s error
  | None =>
      let s := store_queue JSON_stringify s in
      Resolved s JUndefined (isOnline s)
  end.

End Promise.

(** The two ways a step can go, for a live action. *)
Definition after_attempt (l : loc) (a : OfflineAction) (r : option string)
    (s : Service) : Service :=
  emit (EProcess l a r) s.

Definition after_failure (l : loc) (a : OfflineAction) (error : string)
    (s : Service) : Service :=
  with_heap (alter bump_retry l (heap s)) (after_attempt l a (Some error) s).

(** What a step adds to [errors], what it does to the object, and
    whether it removes the action, from the outcome of [processAction]. *)
Definition dropped (a : OfflineAction) (r : option string) : bool :=
  match r with
  | Some _ => (3 <=? retryCount a + 1)%Z
  | None => false
  end.

Definition step_errors (a : OfflineAction) (r : option string) : list string :=
  match r with
  | Some error =>
      failure_message a error
      :: (if (3 <=? retryCount a + 1)%Z then [removal_notice (id a)] else [])
  | None => []
  end.

Definition touched (a : OfflineAction) (r : option string) : OfflineAction :=
  match r with
  | Some _ => bump_retry a
  | None => set_synced a
  end.

(** ** Network notification

    Subscribers are function references held in a [Set]; the model names
    them by numbers and runs them in a world [W] of their own. *)

Definition onNetworkStatusChange (callback : nat) (s : Service) : Service :=
  if decide (callback ∈ networkCallbacks s) then s
  else mkService (isOnlineStatus s) (networkCallbacks s ++ [callback])
                 (syncInProgress s) (storage s) (actionQueue s) (heap s)
                 (localStorage s) (trace s).

Definition unsubscribe (callback : nat) (s : Service) : Service :=
  mkService (isOnlineStatus s)
            (filter (λ c, c ≠ callback) (networkCallbacks s))
            (syncInProgress s) (storage s) (actionQueue s) (heap s)
            (localStorage s) (trace s).

(** What a delivery leaves behind: the calls made, and the errors
    written with [console.error]. *)
Inductive Notice : Type :=
  | Called (callback : nat) (arg : bool)
  | ConsoleError (callback : nat) (error : string).

(** How a piece of code ends: normally, or by throwing. *)
Inductive Completion (X : Type) : Type :=
  | Normal (x : X)
  | Throw (x : X) (error : string).
Arguments Normal {X} x.
Arguments Throw {X} x error.

Section Notify.

Context {W : Type}.

(** [run c b w] is the call [callback(b)] of subscriber [c] in world
    [w]: the world it leaves and the exception it throws, if any.  The
    set of subscribers is not part of [w]: these are callbacks that leave
    it alone.  Callbacks that subscribe or unsubscribe during a delivery
    come with [notifyNetworkChange_live] below. *)
Variable run : nat → bool → W → W * option string.

Definition Delivery : Type := W * list Notice.

(** [callback(isOnline)] *)
Definition call_callback (online : bool) (c : nat) (d : Delivery)
    : Completion Delivery :=
  let '(w, log) := d in
  match run c online w with
  | (w', None) => Normal (w', log ++ [Called c online])
  | (w', Some error) => Throw (w', log ++ [Called c online]) error
  end.

(** [console.error('Error in network status callback:', error)] *)
Definition console_error (c : nat) (error : string) (d : Delivery)
    : Completion Delivery :=
  Normal (d.1, d.2 ++ [ConsoleError c error]).

(** [try { body } catch (error) { handler }] *)
Definition try_catch {X : Type} (body : X → Completion X)
    (handler : string → X → Completion X) (x : X) : Completion X :=
  match body x with
  | Normal x' => Normal x'
  | Throw x' error => handler error x'
  end.

(** [Set.prototype.forEach]: the members in insertion order; an
    exception leaving the function ends the iteration. *)
Fixpoint forEach {X : Type} (f : nat → X → Completion X) (cs : list nat) (x : X)
    : Completion X :=
  match cs with
  | [] => Normal x
  | c :: rest =>
      match f c x with
      | Normal x' => forEach f rest x'
      | Throw x' error => Throw x' error
      end
  end.

Definition notifyNetworkChange (online : bool) (s : Service) (w : W)
    : Completion Delivery :=
  forEach (λ c, try_catch (call_callback online c) (console_error c))
          (networkCallbacks s) (w, []).

(** The same delivery without the [try]/[catch], for comparison. *)
Definition notify_unguarded (online : bool) (s : Service) (w : W)
    : Completion Delivery :=
  forEach (call_callback online) (networkCallbacks s) (w, []).

Definition calls (log : list Notice) : list (nat * bool) :=
  omap (λ n, match n with Called c b => Some (c, b) | _ => None end) log.

End Notify.

(** ** Subscribing during a delivery

    [Set.prototype.forEach] walks the set as it is while the callbacks
    run: a member deleted before its turn is not visited, and a value
    added during the walk is visited before it ends. *)

(** A call of [onNetworkStatusChange], or of an unsubscribe function it
    returned, made by a callback while it runs. *)
Inductive SubOp : Type :=
  | Subscribe (callback : nat)
  | Unsubscribe (callback : nat).

(** A delivery under way: the world, the calls and errors so far, and the
    set, as the members already visited and the members still to visit,
    both in insertion order. *)
Record Walk (W : Type) : Type := mkWalk {
  walk_world : W;
  walk_log : list Notice;
  visited : list nat;
  todo : list nat
}.
Arguments mkWalk {W} walk_world walk_log visited todo.
Arguments walk_world {W} w.
Arguments walk_log {W} w.
Arguments visited {W} w.
Arguments todo {W} w.

Section LiveNotify.

Context {W : Type}.

(** [act c b w] is the call [callback(b)] of subscriber [c] in world
    [w]: the world it leaves, the exception it throws if any, and the
    subscriptions and unsubscriptions it makes on this service before it
    ends, in order. *)
Variable act : nat → bool → W → W * option string * list SubOp.

(** [Set.prototype.add] and [delete] during the walk: [add] appends a
    value that is not a member at the end, after the members still to
    visit; [delete] takes the member out wherever it is. *)
Definition apply_sub (k : Walk W) (o : SubOp) : Walk W :=
  match o with
  | Subscribe c =>
      if decide (c ∈ visited k ++ todo k) then k
      else mkWalk (walk_world k) (walk_log k) (visited k) (todo k ++ [c])
  | Unsubscribe c =>
      mkWalk (walk_world k) (walk_log k)
             (filter (λ c', c' ≠ c) (visited k)) (filter (λ c', c' ≠ c) (todo k))
  end.

(** [callback(isOnline)] *)
Definition call_live (online : bool) (c : nat) (k : Walk W)
    : Completion (Walk W) :=
  let '(w', failure, ops) := act c online (walk_world k) in
  let k :=
    foldl apply_sub
          (mkWalk w' (walk_log k ++ [Called c online]) (visited k) (todo k)) ops in
  match failure with
  | None => Normal k
  | Some error => Throw k error
  end.

(** [console.error('Error in network status callback:', error)] *)
Definition console_error_live (c : nat) (error : string) (k : Walk W)
    : Completion (Walk W) :=
  Normal (mkWalk (walk_world k) (walk_log k ++ [ConsoleError c error])
                 (visited k) (todo k)).

(** [forEach] on the live set: the first member still to visit is
    visited next; an exception leaving the function ends the walk.  A
    walk need not end (every callback may subscribe a new one): [None]
    says that the fuel ran out first. *)
Fixpoint forEach_live (fuel : nat) (f : nat → Walk W → Completion (Walk W))
    (k : Walk W) : option (Completion (Walk W)) :=
  match fuel with
  | 0 => match todo k with [] => Some (Normal k) | _ :: _ => None end
  | S fuel' =>
      match todo k with
      | [] => Some (Normal k)
      | c :: rest =>
          match f c (mkWalk (walk_world k) (walk_log k) (visited k ++ [c]) rest) with
          | Normal k' => forEach_live fuel' f k'
          | Throw k' error => Some (Throw k' error)
          end
      end
  end.

(** [notifyNetworkChange(isOnline)], whatever the callbacks do to the
    set of subscribers. *)
Definition notifyNetworkChange_live (fuel : nat) (online : bool) (s : Service)
    (w : W) : option (Completion (Walk W)) :=
  forEach_live fuel (λ c, try_catch (call_live online c) (console_error_live c))
               (mkWalk w [] [] (networkCallbacks s)).

End LiveNotify.

(** ** Reading a trace *)

(** The events a step from [s] to [s'] added. *)
Definition new_events (s s' : Service) : list Event :=
  drop (length (trace s)) (trace s').

(** The calls of [processAction], in order: the action, its state when
    it was submitted, and how the call ended. *)
Definition processes (evs : list Event) : list (loc * OfflineAction * option string) :=
  omap (λ e, match e with EProcess l a r => Some (l, a, r) | _ => None end) evs.

Definition submitted (evs : list Event) : list loc :=
  (λ p, p.1.1) <$> processes evs.

Definition submitted_actions (evs : list Event) : list OfflineAction :=
  (λ p, p.1.2) <$> processes evs.

(** What a pass attempts for the action [l], as the object stands in the
    heap [h]. *)
Definition attempt (rolls : loc → bool) (h : gmap loc OfflineAction) (l : loc)
    : option (loc * OfflineAction * option string) :=
  a ← h !! l; Some (l, a, processAction (rolls l) a).

(** During a drain started in [s0], the actions [R] still to process lie
    ahead in the queue of [s], untouched. *)
Definition ahead (s0 s : Service) (R : list loc) : Prop :=
  NoDup (actionQueue s)
  ∧ (∃ pre post, actionQueue s = pre ++ post ∧ R `sublist_of` post)
  ∧ ∀ r, r ∈ R → heap s !! r = heap s0 !! r.

Definition stores (evs : list Event) : list (string * string) :=
  omap (λ e, match e with EStore k v => Some (k, v) | _ => None end) evs.

(** ** Histories of the service *)

Inductive Op : Type :=
  | OpQueue (action : ActionArg) (idTime : Z) (suffix : string) (now : Z)
  | OpMarkSynced (actionId : string)
  | OpRemove (actionId : string)
  | OpClearQueue
  | OpSync (now : Z) (rolls : loc → bool).

Section Histories.

Variable JSON_stringify : Stored → string.

Definition apply_op (s : Service) (o : Op) : Service :=
  match o with
  | OpQueue action idTime suffix now =>
      (queueAction JSON_stringify action idTime suffix now s).1.1
  | OpMarkSynced actionId => markActionSynced JSON_stringify actionId s
  | OpRemove actionId => removeAction JSON_stringify actionId s
  | OpClearQueue => clearQueue JSON_stringify s
  | OpSync now rolls => (syncData JSON_stringify now rolls s).1
  end.

Definition run_ops (ops : list Op) (s : Service) : Service :=
  foldl apply_op s ops.

(** Enqueueing a list of actions one after the other. *)
Definition enqueue_all (ins : list (ActionArg * Z * string * Z)) (s : Service)
    : Service :=
  foldl (λ s i, (queueAction JSON_stringify i.1.1.1 i.1.1.2 i.1.2 i.2 s).1.1) s ins.

End Histories.

(** The action object [queueAction] builds for an enqueue request. *)
Definition queued (i : ActionArg * Z * string * Z) : OfflineAction :=
  spread_action i.1.1.1 (generateId i.1.1.2 i.1.2) i.2.

(** ** Well-formed queues *)

(** Every reference of the queue is a live object and no object is
    queued twice. *)
Definition wf (s : Service) : Prop :=
  NoDup (actionQueue s) ∧ ∀ l, l ∈ actionQueue s → is_Some (heap s !! l).

(** The identifiers of the queued actions are pairwise distinct. *)
Definition ids_unique (s : Service) : Prop :=
  ∀ l1 l2 a1 a2,
    l1 ∈ actionQueue s → l2 ∈ actionQueue s →
    heap s !! l1 = Some a1 → heap s !! l2 = Some a2 →
    id a1 = id a2 → l1 = l2.

(** [m] is an entry a pass writes to [errors] for the action [a]: the
    failure message of an attempt on it, or its removal notice. *)
Definition reports (a : OfflineAction) (m : string) : Prop :=
  (∃ error, m = failure_message a error) ∨ m = removal_notice (id a).

(** An action that has left the queue for good: its object is still
    allocated, so no new action can take its place. *)
Definition retired (t : loc) (s : Service) : Prop :=
  (t ∉ actionQueue s) ∧ is_Some (heap s !! t).

(** ** What a pass leaves *)

(** The stored text of the queue is the text of the queue in memory. *)
Definition queue_stored (JSON_stringify : Stored → string) (s : Service) : Prop :=
  storage s !! (STORAGE_PREFIX +:+ "actionQueue")
  = Some (JSON_stringify (SQueue (queue_objects s))).

(** [a'] is a later state of the object [a]: the same action, possibly
    marked synced, possibly retried more often. *)
Definition grows_from (a a' : OfflineAction) : Prop :=
  id a' = id a ∧ type a' = type a ∧ entity a' = entity a
  ∧ entityId a' = entityId a ∧ data a' = data a ∧ timestamp a' = timestamp a
  ∧ (synced a = true → synced a' = true)
  ∧ (retryCount a ≤ retryCount a')%Z.

(** Every object of [h] is still there in [h'], in a later state. *)
Definition heap_grows (h h' : gmap loc OfflineAction) : Prop :=
  ∀ l a, h !! l = Some a → ∃ a', h' !! l = Some a' ∧ grows_from a a'.

(** From [s] to [s'] the network status, the subscribers and the texts
    stored under keys other than the queue's and the last sync time's are
    the same. *)
Definition same_elsewhere (s s' : Service) : Prop :=
  isOnlineStatus s' = isOnlineStatus s
  ∧ networkCallbacks s' = networkCallbacks s
  ∧ ∀ key, key ≠ STORAGE_PREFIX +:+ "actionQueue" →
           key ≠ STORAGE_PREFIX +:+ "lastSync" →
           storage s' !! key = storage s !! key.

(** The action [l] is pending, its call fails and it has retries left. *)
Definition retained (rolls : loc → bool) (h : gmap loc OfflineAction) (l : loc)
    : bool :=
  match h !! l with
  | Some a =>
      negb (synced a)
      && match processAction (rolls l) a with
         | Some _ => (retryCount a + 1 <? 3)%Z
         | None => false
         end
  | None => false
  end.

(** The calls a pass makes from a state, with their outcomes. *)
Definition outcomes (rolls : loc → bool) (s : Service)
    : list (loc * OfflineAction * option string) :=
  omap (attempt rolls (heap s)) (pending s).

Definition succeeded (p : loc * OfflineAction * option string) : bool :=
  match p.2 with None => true | Some _ => false end.

(** What one call adds to [errors]. *)
Definition outcome_errors (p : loc * OfflineAction * option string) : list string :=
  step_errors p.1.2 p.2.

(** The actions a run applied to the remote side: those submitted whose
    [processAction] call returned, in the order of the calls. *)
Definition applied (evs : list Event) : list loc :=
  omap (λ p, if succeeded p then Some p.1.1 else None) (processes evs).

(** The call for the action [l] returns, as the object stands in [h]. *)
Definition returns (rolls : loc → bool) (h : gmap loc OfflineAction) (l : loc)
    : bool :=
  match h !! l with
  | Some a => match processAction (rolls l) a with None => true | Some _ => false end
  | None => false
  end.

(** ** Reading and clearing the store *)

(** [k.startsWith(this.STORAGE_PREFIX)] *)
Definition prefixed (k : string) : bool := String.prefix STORAGE_PREFIX k.

(** [localStorage.removeItem(k)] *)
Definition removeItem (k : string) (ls : LocalStorage) : LocalStorage :=
  mkLocalStorage (delete k (items ls)) (quota ls).

(** [this.storage.delete(k)], and [localStorage.removeItem(k)] when there
    is a [localStorage]. *)
Definition delete_key (k : string) (s : Service) : Service :=
  let s := with_storage (delete k (storage s)) s in
  match localStorage s with
  | Some ls => with_localStorage (Some (removeItem k ls)) s
  | None => s
  end.

(** The branch of [clearData] without a key: the keys of the [Map] that
    start with the prefix are deleted one by one (the order in which the
    keys come does not matter to the result). *)
Definition clear_all (s : Service) : Service :=
  let keysToDelete := filter (λ k, prefixed k) (map_to_list (storage s)).*1 in
  foldl (λ s k, delete_key k s) s keysToDelete.

(** [clearData(key?)]: [if (key)] fails for a missing key and for the
    empty string. *)
Definition clearData (key : option string) (s : Service) : Service :=
  match key with
  | Some k =>
      if String.eqb k "" then clear_all s
      else delete_key (STORAGE_PREFIX +:+ k) s
  | None => clear_all s
  end.

(** [getCacheSize]: the sizes [new Blob([value]).size] of the values under
    prefixed keys; texts are kept as the byte strings a [Blob] holds. *)
Definition getCacheSize (s : Service) : nat :=
  map_fold (λ key value totalSize,
              if prefixed key then totalSize + String.length value else totalSize)
           0 (storage s).

Section Recovery.

(** [JSON.parse], which [decompressData] applies; [None] is the [null]
    that a failed parse (and the text [null]) yields. *)
Variable JSON_parse : string → option Stored.

Definition decompressData (compressedData : string) : option Stored :=
  JSON_parse compressedData.

(** [getData(key)]: [if (compressedData)] fails for a missing entry and
    for the empty text. *)
Definition getData (key : string) (s : Service) : option Stored :=
  match storage s !! (STORAGE_PREFIX +:+ key) with
  | Some compressedData =>
      if String.eqb compressedData "" then None
      else decompressData compressedData
  | None => None
  end.

(** ToBoolean of a decoded value. *)
Definition stored_truthy (d : Stored) : bool :=
  match d with
  | SQueue _ => true
  | SNumber n => negb (n =? 0)%Z
  end.

(** [getLastSyncTime]: [data || 0]. *)
Definition getLastSyncTime (s : Service) : Stored :=
  match getData "lastSync" s with
  | Some d => if stored_truthy d then d else SNumber 0
  | None => SNumber 0
  end.

(** New objects for the actions read back from a text. *)
Fixpoint alloc_objects (q : list OfflineAction) (h : gmap loc OfflineAction)
    : gmap loc OfflineAction * list loc :=
  match q with
  | [] => (h, [])
  | a :: rest =>
      let l := fresh (dom h) in
      let '(h', ls) := alloc_objects rest (<[l := a]> h) in
      (h', l :: ls)
  end.

(** The queue part of [loadFromLocalStorage]:
    [this.actionQueue = this.decompressData(queueData) || []] when there
    is a non-empty text under the queue key.  [Some None] stands for no
    assignment; [None] for the assignment of a value that is no array (a
    non-zero number), after which the queue operations throw. *)
Definition load_queue (ls : LocalStorage) : option (option (list OfflineAction)) :=
  match items ls !! (STORAGE_PREFIX +:+ "actionQueue") with
  | Some queueData =>
      if String.eqb queueData "" then Some None
      else match decompressData queueData with
           | Some (SQueue q) => Some (Some q)
           | Some (SNumber n) => if (n =? 0)%Z then Some (Some []) else None
           | None => Some (Some [])
           end
  | None => Some None
  end.

(** The loop of [loadFromLocalStorage] over the keys of [localStorage]:
    prefixed keys with a non-empty value are copied into the [Map]. *)
Definition load_storage (ls : LocalStorage) (m : gmap string string)
    : gmap string string :=
  map_fold (λ key value m,
              if prefixed key && negb (String.eqb value "")
              then <[key := value]> m else m)
           m (items ls).

Definition loadFromLocalStorage (s : Service) : option Service :=
  match localStorage s with
  | None => Some s
  | Some ls =>
      match load_queue ls with
      | None => None
      | Some assigned =>
          let s :=
            match assigned with
            | Some q =>
                let '(h, ls') := alloc_objects q (heap s) in
                with_actionQueue ls' (with_heap h s)
            | None => s
            end in
          Some (with_storage (load_storage ls (storage s)) s)
      end
  end.

(** [new MockOfflineService()]: the field initialisers,
    [initializeNetworkMonitoring] (which reads [navigator.onLine] where
    there is a [window]; [onLine = None] where there is none) and
    [loadFromLocalStorage]. *)
Definition new_service (onLine : option bool) (ls : option LocalStorage)
    : option Service :=
  loadFromLocalStorage
    (mkService (default true onLine) [] false ∅ [] ∅ ls []).

End Recovery.

(** ** Network transitions *)

Section Transitions.

Variable JSON_stringify : Stored → string.
Context {W : Type}.
Variable run : nat → bool → W → W * option string.

(** [clearCache]: [clearData()] then [clearQueue()]. *)
Definition clearCache (s : Service) : Service :=
  clearQueue JSON_stringify (clearData None s).

(** [autoSync]: a pass, when online and none is in progress. *)
Definition autoSync (now : Z) (rolls : loc → bool) (s : Service) : Service :=
  if isOnline s && negb (syncInProgress s)
  then (syncData JSON_stringify now rolls s).1
  else s.

(** [simulateNetworkChange(isOnline)], which is also what the [online]
    and [offline] listeners of [initializeNetworkMonitoring] do: the
    status is set, the subscribers are notified, and going online starts
    [autoSync]. *)
Definition simulateNetworkChange (online : bool) (now : Z) (rolls : loc → bool)
    (s : Service) (w : W) : Service * Completion (W * list Notice) :=
  let s := with_isOnlineStatus online s in
  let delivery := notifyNetworkChange run online s w in
  (if online then autoSync now rolls s else s, delivery).

End Transitions.

(** ** Merging arrays by identifier *)

Section MergeArrays.

(** Items of a type [T extends { id: string; updated_at?: string }]. *)
Context {T : Type}.
Variable item_id : T → string.
Variable item_updated_at : T → JsVal.
Variable Date_parse : string → option Z.

(** [Map.prototype.get] and [set] on a [Map] kept in insertion order: a
    key already there keeps its place. *)
Fixpoint map_get (k : string) (m : list (string * T)) : option T :=
  match m with
  | [] => None
  | (k', v) :: rest => if String.eqb k' k then Some v else map_get k rest
  end.

Fixpoint map_set (k : string) (v : T) (m : list (string * T)) : list (string * T) :=
  match m with
  | [] => [(k, v)]
  | (k', v') :: rest =>
      if String.eqb k' k then (k', v) :: rest else (k', v') :: map_set k v rest
  end.

(** The default resolution: [new Date(item.updated_at || 0).getTime()] on
    both sides, the local item only when strictly newer. *)
Definition item_time (x : T) : option Z :=
  getTime Date_parse (js_or (item_updated_at x) (JNum 0)).

Definition newer_wins (localItem serverItem : T) : T :=
  if js_gt (item_time localItem) (item_time serverItem)
  then localItem else serverItem.

Definition resolve_with (conflictResolver : option (T → T → T)) : T → T → T :=
  default newer_wins conflictResolver.

Definition add_server (merged : list (string * T)) (item : T) : list (string * T) :=
  map_set (item_id item) item merged.

Definition add_local (conflictResolver : option (T → T → T))
    (merged : list (string * T)) (localItem : T) : list (string * T) :=
  let serverId := item_id localItem in
  match map_get serverId merged with
  | Some serverItem =>
      map_set serverId (resolve_with conflictResolver localItem serverItem) merged
  | None => map_set serverId localItem merged
  end.

Definition mergeArrays (localArray serverArray : list T)
    (conflictResolver : option (T → T → T)) : list T :=
  let merged := foldl add_server [] serverArray in
  let merged := foldl (add_local conflictResolver) merged localArray in
  merged.*2.

(** The first item of an array with a given identifier. *)
Fixpoint find_id (k : string) (xs : list T) : option T :=
  match xs with
  | [] => None
  | x :: rest => if String.eqb (item_id x) k then Some x else find_id k rest
  end.

(** The merge of two arrays without repeated identifiers, written out:
    the server items in server order, each resolved against the local
    item with its identifier when there is one, then the local items the
    server does not have, in local order. *)
Definition merged_by_id (localArray serverArray : list T)
    (conflictResolver : option (T → T → T)) : list T :=
  ((λ serverItem,
      match find_id (item_id serverItem) localArray with
      | Some localItem => resolve_with conflictResolver localItem serverItem
      | None => serverItem
      end) <$> serverArray)
  ++ filter (λ localItem, item_id localItem ∉ item_id <$> serverArray) localArray.

End MergeArrays.

(** ** Sample states *)

Definition sample_stringify (d : Stored) : string :=
  match d with
  | SQueue q => "queue:" +:+ pretty (length q)
  | SNumber n => pretty n
  end.

(** [Date.parse] on the two ISO dates of the samples. *)
Definition sample_dates (d : string) : option Z :=
  if String.eqb d "2024-01-01T00:00:00.000Z" then Some 1704067200000%Z
  else if String.eqb d "2024-01-02T00:00:00.000Z" then Some 1704153600000%Z
  else None.

Definition empty_service : Service :=
  mkService true [] false ∅ [] ∅ None [].

(** A browser whose [localStorage] refuses every write (quota 0). *)
Definition private_mode_service : Service :=
  mkService true [] false ∅ [] ∅ (Some (mkLocalStorage ∅ 0)) [].

Definition plot_create : ActionInput :=
  mkInput CREATE "plot" "tmp-1" (JObj (<["name" := JStr "North Field"]> ∅)).
Definition plot_update : ActionInput :=
  mkInput UPDATE "plot" "tmp-1" (JObj (<["name" := JStr "North Field (renamed)"]> ∅)).

Definition one_queued : Service :=
  (queueAction sample_stringify plot_create 1000 "abc" 1000 empty_service).1.1.
Definition two_queued : Service :=
  (queueAction sample_stringify plot_update 1001 "abd" 1001 one_queued).1.1.

Definition tmp_record : JsVal :=
  JObj (<["id" := JStr "tmp-1"]> (<["name" := JStr "North Field"]> ∅)).
Definition srv_record : JsVal :=
  JObj (<["id" := JStr "srv-9"]> ∅).
Definition tmp_stamped : JsVal :=
  JObj (<["id" := JStr "tmp-1"]>
          (<["updated_at" := JStr "2024-01-02T00:00:00.000Z"]> ∅)).
Definition srv_stamped : JsVal :=
  JObj (<["id" := JStr "srv-9"]>
          (<["updated_at" := JStr "2024-01-01T00:00:00.000Z"]> ∅)).

(** Three subscribers, the second of which throws; the world is the list
    of subscribers that ran. *)
Definition sample_run (c : nat) (online : bool) (w : list nat)
    : list nat * option string :=
  (w ++ [c], if (c =? 2)%nat then Some "Error: subscriber failed" else None).

Definition three_subscribers : Service :=
  onNetworkStatusChange 3 (onNetworkStatusChange 2
    (onNetworkStatusChange 1 empty_service)).

Definition always_fail : loc → bool := λ _, true.
Definition never_fail : loc → bool := λ _, false.

(** The two sample actions as [queueAction] builds them. *)
Definition sample_inputs : list (ActionArg * Z * string * Z) :=
  [(declared plot_create, 1000%Z, "abc", 1000%Z);
   (declared plot_update, 1001%Z, "abd", 1001%Z)].

Definition first_queued : OfflineAction :=
  queued (declared plot_create, 1000%Z, "abc", 1000%Z).

(** A pass over [two_queued] stopped after its first step, and the same
    state once the network has gone. *)
Definition mid_pass : Service :=
  (drain sample_stringify always_fail [0]
     (with_syncInProgress true two_queued, 0%Z, [])).1.1.

Definition offline_mid_pass : Service := with_isOnlineStatus false mid_pass.

Definition offline_queued : Service := with_isOnlineStatus false one_queued.

(** Three passes over [one_queued] in which the remote call fails. *)
Definition fail_pass1 : Service * SyncResult :=
  syncData sample_stringify 2000 always_fail one_queued.
Definition fail_pass2 : Service * SyncResult :=
  syncData sample_stringify 3000 always_fail fail_pass1.1.
Definition fail_pass3 : Service * SyncResult :=
  syncData sample_stringify 4000 always_fail fail_pass2.1.

(** The second sample action as [queueAction] builds it. *)
Definition second_queued : OfflineAction :=
  queued (declared plot_update, 1001%Z, "abd", 1001%Z).

(** [JSON.parse] on the texts [sample_stringify] gives at the samples. *)
Definition sample_parse (text : string) : option Stored :=
  if String.eqb text "queue:1" then Some (SQueue [first_queued])
  else if String.eqb text "queue:0" then Some (SQueue [])
  else if String.eqb text "2000" then Some (SNumber 2000)
  else None.

(** A browser with room in its [localStorage], and the [localStorage] a
    session with one queued action leaves behind. *)
Definition browser_service : Service :=
  mkService true [] false ∅ [] ∅ (Some (mkLocalStorage ∅ 4096)) [].

Definition left_behind : LocalStorage :=
  mkLocalStorage (<["agroclash_offline_actionQueue" := "queue:1"]> ∅) 4096.

(** A service with a time stamp stored beside its queue. *)
Definition stamped_service : Service :=
  storeData sample_stringify "lastSync" (SNumber 2000) one_queued.

(** Records as items of [mergeArrays]; the local copy of the server
    record was edited a day after the server's. *)
Definition sample_item_id (v : JsVal) : string :=
  match get_prop v "id" with JStr k => k | _ => "" end.

Definition sample_item_updated_at (v : JsVal) : JsVal := get_prop v "updated_at".

Definition srv_edited : JsVal :=
  JObj (<["id" := JStr "srv-9"]>
          (<["updated_at" := JStr "2024-01-02T00:00:00.000Z"]> ∅)).

Definition sample_ops : list Op :=
  [OpSync 2000 always_fail; OpMarkSynced "offline_1000_abc";
   OpSync 3000 always_fail; OpRemove "offline_1000_abc"].

(** Draws in which only the call for the first, or only the call for
    the second, queued action fails. *)
Definition first_fails : loc → bool := λ l, (l =? 0)%nat.
Definition second_fails : loc → bool := λ l, (l =? 1)%nat.

(** A pass over the two sample actions in which the CREATE fails. *)
Definition create_fails_pass : Service * SyncResult :=
  syncData sample_stringify 2000 first_fails two_queued.

(** An argument that brings the identifier of the first sample action,
    the queue it gives, and a pass over it in which every call returns. *)
Definition plot_update_twin : ActionArg :=
  mkArg plot_update (Some "offline_1000_abc") None None None.

Definition twin_queued : Service :=
  (queueAction sample_stringify plot_update_twin 1001 "abd" 1001 one_queued).1.1.

Definition twin_pass : Service * SyncResult :=
  syncData sample_stringify 2000 never_fail twin_queued.

(** [JSON.stringify] on a queue it serialises, and on one that holds a
    BigInt. *)
Definition never_throws : Stored → option string := λ _, None.
Definition bigint_throws : Stored → option string :=
  λ _, Some "TypeError: Do not know how to serialize a BigInt".

(** An action object of an earlier queue passed to [queueAction] again,
    with the identifier, the time stamp, the flag and the retry count it
    has; the queue this gives; and the queue a rejected [queueAction]
    leaves. *)
Definition replayed_arg : ActionArg :=
  mkArg plot_update (Some "offline_1000_abc") (Some 1000%Z) (Some true) (Some 2%Z).

Definition replayed_queued : Service :=
  (queueAction sample_stringify replayed_arg 1001 "abd" 1001 one_queued).1.1.

Definition unsaved_queued : Service :=
  with_actionQueue [0%nat] (with_heap (<[0%nat := first_queued]> ∅) empty_service).

(** ** Proof steps *)

(** The cases of [storeData]: no [localStorage], a write it takes, a
    write it refuses. *)
Ltac store_cases s :=
  unfold store_queue, storeData; simpl;
  destruct (localStorage s) as [?ls|]; simpl;
  [ match goal with |- context [setItem ?k ?v ?l] => destruct (setItem k v l) end | ];
  simpl; try reflexivity.

(** Projections of updated services. *)
Ltac fields :=
  cbn [trace heap actionQueue storage syncInProgress isOnlineStatus localStorage
       networkCallbacks with_actionQueue with_heap with_storage
       with_syncInProgress with_localStorage emit after_attempt after_failure
       isOnline fst snd] in *.

(** * Properties *)

(** ** The conflict resolver *)

Section ResolverFacts.

Variable Date_parse : string → option Z.

Local Abbreviation resolve := (resolveConflicts Date_parse).
Local Abbreviation time_of := (getTime Date_parse).

Lemma get_prop_merge_id localData serverData :
  get_prop (merge_records localData serverData) "id"
  = js_or (get_prop localData "id") (get_prop serverData "id").
Proof.
  unfold merge_records, get_prop. simpl. by rewrite lookup_insert_eq.
Qed.

Lemma own_props_merge_other localData serverData k :
  k ≠ "id" →
  own_props (merge_records localData serverData) !! k
  = match own_props serverData !! k with
    | Some v => Some v
    | None => own_props localData !! k
    end.
Proof.
  intros Hk. unfold merge_records. simpl.
  rewrite lookup_insert_ne by done. rewrite lookup_union.
  destruct (own_props serverData !! k), (own_props localData !! k); done.
Qed.

Lemma resolve_local_absent localData serverData :
  truthy localData = false → resolve localData serverData = serverData.
Proof. intros H. unfold resolveConflicts. by rewrite H. Qed.

Lemma resolve_server_absent localData serverData :
  truthy localData = true → truthy serverData = false →
  resolve localData serverData = localData.
Proof. intros H1 H2. unfold resolveConflicts. by rewrite H1, H2. Qed.

Lemma resolve_stamped localData serverData :
  truthy localData = true → truthy serverData = true →
  truthy (get_prop localData "updated_at") = true →
  truthy (get_prop serverData "updated_at") = true →
  resolve localData serverData
  = if js_gt (time_of (get_prop localData "updated_at"))
             (time_of (get_prop serverData "updated_at"))
    then localData else serverData.
Proof.
  intros H1 H2 H3 H4. unfold resolveConflicts. by rewrite H1, H2, H3, H4.
Qed.

Lemma resolve_unstamped localData serverData :
  truthy localData = true → truthy serverData = true →
  truthy (get_prop localData "updated_at") = false
  ∨ truthy (get_prop serverData "updated_at") = false →
  resolve localData serverData = merge_records localData serverData.
Proof.
  intros H1 H2 H3. unfold resolveConflicts. rewrite H1, H2. simpl.
  destruct H3 as [-> | ->]; [done|]. by rewrite andb_false_r.
Qed.

(** C2, as amended.  The resolver is a total function of its two
    arguments.  An absent (falsy) local side yields the server side and
    an absent server side yields the local side; when both records carry
    a time stamp the local record is returned whole if its time is
    strictly later and the server record otherwise (equal times and
    unreadable dates included); when a time stamp is missing the result
    is neither side but their merge: every property other than [id] is
    the server's where the server has it and the local one otherwise,
    and [id] is the local id when there is one, else the server's. *)
Theorem resolveConflicts_cases (localData serverData : JsVal) :
  (truthy localData = false →
     resolve localData serverData = serverData)
  ∧ (truthy localData = true → truthy serverData = false →
     resolve localData serverData = localData)
  ∧ (truthy localData = true → truthy serverData = true →
     truthy (get_prop localData "updated_at") = true →
     truthy (get_prop serverData "updated_at") = true →
     (∀ t1 t2,
        time_of (get_prop localData "updated_at") = Some t1 →
        time_of (get_prop serverData "updated_at") = Some t2 →
        ((t1 > t2)%Z → resolve localData serverData = localData)
        ∧ ((t1 ≤ t2)%Z → resolve localData serverData = serverData))
     ∧ (time_of (get_prop localData "updated_at") = None
        ∨ time_of (get_prop serverData "updated_at") = None →
        resolve localData serverData = serverData))
  ∧ (truthy localData = true → truthy serverData = true →
     truthy (get_prop localData "updated_at") = false
     ∨ truthy (get_prop serverData "updated_at") = false →
     resolve localData serverData = merge_records localData serverData
     ∧ get_prop (resolve localData serverData) "id"
       = js_or (get_prop localData "id") (get_prop serverData "id")
     ∧ ∀ k, k ≠ "id" →
         own_props (resolve localData serverData) !! k
         = match own_props serverData !! k with
           | Some v => Some v
           | None => own_props localData !! k
           end).
Proof.
  split_and!.
  - apply resolve_local_absent.
  - apply resolve_server_absent.
  - intros H1 H2 H3 H4. rewrite resolve_stamped by done. split.
    + intros t1 t2 -> ->. simpl. split; intros Ht.
      * by rewrite (proj2 (Z.ltb_lt t2 t1)) by lia.
      * by rewrite (proj2 (Z.ltb_ge t2 t1)) by lia.
    + intros [-> | ->]; [done|].
      by destruct (time_of (get_prop localData "updated_at")).
  - intros H1 H2 H3. rewrite resolve_unstamped by done. split_and!.
    + done.
    + apply get_prop_merge_id.
    + intros k Hk. by apply own_props_merge_other.
Qed.

(** C3, as amended.  With a server version present, the identifier of
    the result is the server's when the local side is absent and when
    the server record wins the comparison of time stamps; it is the
    local identifier when the local record wins that comparison; and
    when a time stamp is missing it is the local identifier if the local
    record has one, the server's otherwise. *)
Theorem resolveConflicts_id (localData serverData : JsVal) :
  truthy serverData = true →
  (truthy localData = false →
     get_prop (resolve localData serverData) "id" = get_prop serverData "id")
  ∧ (truthy localData = true →
     truthy (get_prop localData "updated_at") = true →
     truthy (get_prop serverData "updated_at") = true →
     get_prop (resolve localData serverData) "id"
     = if js_gt (time_of (get_prop localData "updated_at"))
                (time_of (get_prop serverData "updated_at"))
       then get_prop localData "id" else get_prop serverData "id")
  ∧ (truthy localData = true →
     truthy (get_prop localData "updated_at") = false
     ∨ truthy (get_prop serverData "updated_at") = false →
     get_prop (resolve localData serverData) "id"
     = if truthy (get_prop localData "id")
       then get_prop localData "id" else get_prop serverData "id").
Proof.
  intros Hs. split_and!.
  - intros Hl. by rewrite resolve_local_absent.
  - intros Hl H1 H2. rewrite resolve_stamped by done. by destruct (js_gt _ _).
  - intros Hl H. rewrite resolve_unstamped by done. apply get_prop_merge_id.
Qed.

End ResolverFacts.

(** C2, as stated, fails: with no time stamp on either side the result
    is not the server version, it keeps the local [name] and [id]. *)
Lemma resolveConflicts_unstamped_not_server :
  truthy tmp_record = true ∧ truthy srv_record = true
  ∧ get_prop tmp_record "updated_at" = JUndefined
  ∧ get_prop srv_record "updated_at" = JUndefined
  ∧ resolveConflicts sample_dates tmp_record srv_record = tmp_record
  ∧ resolveConflicts sample_dates tmp_record srv_record ≠ srv_record.
Proof.
  assert (E : resolveConflicts sample_dates tmp_record srv_record = tmp_record).
  { vm_compute. reflexivity. }
  split_and!; [done..|].
  rewrite E. intros H.
  apply (f_equal (λ v, get_prop v "id")) in H. vm_compute in H. discriminate.
Qed.

(** C3, as stated, fails: the local record wins with the later time
    stamp and the result carries its identifier, and with no time stamps
    the merge keeps the local identifier too. *)
Lemma resolveConflicts_keeps_local_id :
  truthy srv_stamped = true
  ∧ resolveConflicts sample_dates tmp_stamped srv_stamped = tmp_stamped
  ∧ get_prop (resolveConflicts sample_dates tmp_stamped srv_stamped) "id" = JStr "tmp-1"
  ∧ get_prop srv_stamped "id" = JStr "srv-9"
  ∧ get_prop (resolveConflicts sample_dates tmp_record srv_record) "id" = JStr "tmp-1"
  ∧ get_prop (resolveConflicts sample_dates tmp_stamped srv_stamped) "id"
    ≠ get_prop srv_stamped "id".
Proof.
  split_and!; try (vm_compute; reflexivity).
  vm_compute. discriminate.
Qed.

(** C2's amended statement at sample records: the merge without time
    stamps and the local record winning with the later one. *)
Lemma resolveConflicts_cases_witness :
  resolveConflicts sample_dates tmp_record srv_record
  = merge_records tmp_record srv_record
  ∧ resolveConflicts sample_dates tmp_stamped srv_stamped = tmp_stamped.
Proof.
  destruct (resolveConflicts_cases sample_dates tmp_record srv_record)
    as (_ & _ & _ & Hmerge).
  destruct (resolveConflicts_cases sample_dates tmp_stamped srv_stamped)
    as (_ & _ & Hstamped & _).
  split.
  - exact (proj1 (Hmerge eq_refl eq_refl (or_introl eq_refl))).
  - destruct (Hstamped eq_refl eq_refl eq_refl eq_refl) as [Hcmp _].
    apply (proj1 (Hcmp 1704153600000%Z 1704067200000%Z eq_refl eq_refl)). lia.
Defined.

(** C3's amended statement at the sample records with time stamps. *)
Lemma resolveConflicts_id_witness :
  truthy srv_stamped = true
  ∧ get_prop (resolveConflicts sample_dates tmp_stamped srv_stamped) "id"
    = get_prop tmp_stamped "id".
Proof.
  split; [reflexivity|].
  destruct (resolveConflicts_id sample_dates tmp_stamped srv_stamped eq_refl)
    as (_ & H & _).
  exact (H eq_refl eq_refl eq_refl).
Defined.

(** ** Storage and the queue operations *)

Section SyncFacts.

Variable JSON_stringify : Stored → string.

Local Abbreviation storeData' := (storeData JSON_stringify).
Local Abbreviation store_queue' := (store_queue JSON_stringify).
Local Abbreviation markActionSynced' := (markActionSynced JSON_stringify).
Local Abbreviation removeAction' := (removeAction JSON_stringify).
Local Abbreviation syncData' := (syncData JSON_stringify).
Local Abbreviation queueAction' := (queueAction JSON_stringify).
Local Abbreviation drain_step' := (drain_step JSON_stringify).
Local Abbreviation drain' := (drain JSON_stringify).
Local Abbreviation finish_pass' := (finish_pass JSON_stringify).

Lemma storeData_heap k d s : heap (storeData' k d s) = heap s.
Proof. store_cases s. Qed.

Lemma storeData_actionQueue k d s : actionQueue (storeData' k d s) = actionQueue s.
Proof. store_cases s. Qed.

Lemma storeData_syncInProgress k d s :
  syncInProgress (storeData' k d s) = syncInProgress s.
Proof. store_cases s. Qed.

Lemma storeData_isOnlineStatus k d s :
  isOnlineStatus (storeData' k d s) = isOnlineStatus s.
Proof. store_cases s. Qed.

Lemma storeData_networkCallbacks k d s :
  networkCallbacks (storeData' k d s) = networkCallbacks s.
Proof. store_cases s. Qed.

Lemma storeData_storage k d s :
  storage (storeData' k d s) = <[STORAGE_PREFIX +:+ k := JSON_stringify d]> (storage s).
Proof. store_cases s. Qed.

Lemma storeData_trace k d s :
  trace (storeData' k d s) = trace s ++ [EStore k (JSON_stringify d)].
Proof. store_cases s. Qed.

Lemma storeData_localStorage k d s ls ls' :
  localStorage s = Some ls →
  setItem (STORAGE_PREFIX +:+ k) (JSON_stringify d) ls = Some ls' →
  localStorage (storeData' k d s) = Some ls'.
Proof. intros H1 H2. unfold storeData. simpl. rewrite H1. unfold compressData. by rewrite H2. Qed.

Lemma storeData_queue_objects k d s :
  queue_objects (storeData' k d s) = queue_objects s.
Proof. unfold queue_objects. by rewrite storeData_heap, storeData_actionQueue. Qed.

Lemma setItem_items k v ls ls' :
  setItem k v ls = Some ls' → items ls' !! k = Some v.
Proof.
  unfold setItem. case_decide; [|done]. intros [= <-]. simpl.
  apply lookup_insert_eq.
Qed.

Lemma new_events_app s s' evs : trace s' = trace s ++ evs → new_events s s' = evs.
Proof. intros H. unfold new_events. rewrite H. apply drop_app_length. Qed.

Lemma new_events_refl s : new_events s s = [].
Proof. apply new_events_app. by rewrite app_nil_r. Qed.

Lemma findIndex_None actionId s :
  actionId ∉ id <$> queue_objects s → findIndex actionId s = None.
Proof.
  intros Hnot. unfold findIndex. apply list_find_None, Forall_forall.
  intros l Hl Hid. apply Hnot. unfold has_id in Hid.
  destruct (heap s !! l) as [a|] eqn:Ha; [|done]. simpl in Hid.
  injection Hid as <-. apply list_elem_of_fmap. exists a. split; [done|].
  apply list_elem_of_omap. by exists l.
Qed.

Lemma findIndex_Some actionId s i l :
  findIndex actionId s = Some (i, l) →
  actionQueue s !! i = Some l
  ∧ (∃ a, heap s !! l = Some a ∧ id a = actionId)
  ∧ ∀ j l', actionQueue s !! j = Some l' → j < i → ¬ has_id (heap s) actionId l'.
Proof.
  unfold findIndex. intros (Hi & Hid & Hfirst)%list_find_Some.
  split_and!; [done| |done].
  unfold has_id in Hid. destruct (heap s !! l) as [a|]; [|done].
  exists a. split; [done|]. by injection Hid.
Qed.

(** C4.  While a pass is in progress ([syncInProgress] is set, as it is
    at every step of a running pass) a call of [syncData] returns at
    once with [success = false], [syncedActions = 0] and the single error
    "Sync already in progress", and leaves the whole state as it was:
    queue, objects, storage, and no call to the remote side or to
    storage is made. *)
Theorem syncData_already_in_progress now rolls s :
  syncInProgress s = true →
  syncData' now rolls s = (s, mkResult false 0 ["Sync already in progress"])
  ∧ new_events s (syncData' now rolls s).1 = [].
Proof.
  intros H. unfold syncData. rewrite H. split; [done|]. apply new_events_refl.
Qed.

(** C8, as amended.  When the device is offline [syncData] fails with
    [success = false] and [syncedActions = 0] and leaves the whole state
    untouched; the error is "Device is offline" when no pass is in
    progress, and the in-progress rejection, which is tested first, when
    one is. *)
Theorem syncData_offline now rolls s :
  isOnline s = false →
  (syncData' now rolls s).1 = s
  ∧ success (syncData' now rolls s).2 = false
  ∧ syncedActions (syncData' now rolls s).2 = 0%Z
  ∧ errors (syncData' now rolls s).2
    = (if syncInProgress s then ["Sync already in progress"]
       else ["Device is offline"])
  ∧ new_events s (syncData' now rolls s).1 = [].
Proof.
  intros H. unfold syncData. rewrite H.
  destruct (syncInProgress s); simpl; split_and!; try done; apply new_events_refl.
Qed.

(** C9.  For an identifier that no queued action carries,
    [markActionSynced] and [removeAction] return normally and change
    nothing: the queue, its objects, the stored and persisted texts are
    the same and no [storeData] call is made. *)
Theorem mark_remove_unknown_id actionId s :
  actionId ∉ id <$> getQueuedActions s →
  markActionSynced' actionId s = s
  ∧ removeAction' actionId s = s
  ∧ stores (new_events s (markActionSynced' actionId s)) = []
  ∧ stores (new_events s (removeAction' actionId s)) = [].
Proof.
  intros H%findIndex_None. unfold markActionSynced, removeAction. rewrite H.
  by rewrite new_events_refl.
Qed.

Section PromiseFacts.

Variable JSON_throws : Stored → option string.


End PromiseFacts.

(** ** One step of a drain *)

Lemma find_at_or_before {A} (P : A → Prop) `{!∀ x, Decision (P x)}
    (l1 l2 : list A) (x : A) :
  P x → ∃ i f, list_find P (l1 ++ x :: l2) = Some (i, f)
               ∧ (l1 ++ [x]) !! i = Some f ∧ P f.
Proof.
  intros Hx.
  destruct (list_find_elem_of P (l1 ++ x :: l2) x) as [[i f] Hfind];
    [set_solver|done|].
  exists i, f. split; [done|].
  apply list_find_Some in Hfind as (Hi & Hf & Hmin). split; [|done].
  assert (i < length (l1 ++ [x])) as Hlt.
  { rewrite length_app. simpl.
    destruct (decide (i ≤ length l1)) as [|Hgt]; [lia|]. exfalso.
    apply (Hmin (length l1) x); [|lia|done]. by rewrite list_lookup_middle. }
  rewrite <- Hi. rewrite (cons_middle x l1 l2), app_assoc.
  by rewrite (lookup_app_l (l1 ++ [x]) l2).
Qed.

Lemma delete_app_l {A} (l1 l2 : list A) i :
  i < length l1 → delete i (l1 ++ l2) = delete i l1 ++ l2.
Proof.
  revert i. induction l1 as [|y l1 IH]; intros [|i] H; simpl in *; try lia; [done|].
  f_equal. apply IH. lia.
Qed.

Lemma id_set_synced a : id (set_synced a) = id a.
Proof. done. Qed.

Lemma id_bump_retry a : id (bump_retry a) = id a.
Proof. done. Qed.

Lemma processAction_bump b a : processAction b (bump_retry a) = processAction b a.
Proof. done. Qed.

Lemma has_id_alter f h k actionId l :
  (∀ a, id (f a) = id a) →
  has_id (alter f k h) actionId l ↔ has_id h actionId l.
Proof.
  intros Hf. unfold has_id. rewrite lookup_alter. case_decide; [|done].
  subst. destruct (h !! l); simpl; [|done]. by rewrite Hf.
Qed.

Lemma markActionSynced_actionQueue actionId s :
  actionQueue (markActionSynced' actionId s) = actionQueue s.
Proof.
  unfold markActionSynced. destruct (findIndex actionId s) as [[i l]|]; [|done].
  unfold store_queue. by rewrite storeData_actionQueue.
Qed.

Lemma markActionSynced_heap actionId s :
  heap (markActionSynced' actionId s)
  = match findIndex actionId s with
    | Some (_, l) => alter set_synced l (heap s)
    | None => heap s
    end.
Proof.
  unfold markActionSynced. destruct (findIndex actionId s) as [[i l]|]; [|done].
  unfold store_queue. by rewrite storeData_heap.
Qed.

Lemma markActionSynced_trace actionId s :
  ∃ evs, trace (markActionSynced' actionId s) = trace s ++ evs
         ∧ processes evs = [].
Proof.
  unfold markActionSynced. destruct (findIndex actionId s) as [[i l]|].
  - unfold store_queue. rewrite storeData_trace. by eexists.
  - exists []. by rewrite app_nil_r.
Qed.

Lemma markActionSynced_syncInProgress actionId s :
  syncInProgress (markActionSynced' actionId s) = syncInProgress s.
Proof.
  unfold markActionSynced. destruct (findIndex actionId s) as [[i l]|]; [|done].
  unfold store_queue. by rewrite storeData_syncInProgress.
Qed.

Lemma markActionSynced_isOnlineStatus actionId s :
  isOnlineStatus (markActionSynced' actionId s) = isOnlineStatus s.
Proof.
  unfold markActionSynced. destruct (findIndex actionId s) as [[i l]|]; [|done].
  unfold store_queue. by rewrite storeData_isOnlineStatus.
Qed.

Lemma removeAction_heap actionId s : heap (removeAction' actionId s) = heap s.
Proof.
  unfold removeAction. destruct (findIndex actionId s) as [[i l]|]; [|done].
  unfold store_queue. by rewrite storeData_heap.
Qed.

Lemma removeAction_actionQueue actionId s :
  actionQueue (removeAction' actionId s)
  = match findIndex actionId s with
    | Some (i, _) => delete i (actionQueue s)
    | None => actionQueue s
    end.
Proof.
  unfold removeAction. destruct (findIndex actionId s) as [[i l]|]; [|done].
  unfold store_queue. by rewrite storeData_actionQueue.
Qed.

Lemma removeAction_trace actionId s :
  ∃ evs, trace (removeAction' actionId s) = trace s ++ evs
         ∧ processes evs = [].
Proof.
  unfold removeAction. destruct (findIndex actionId s) as [[i l]|].
  - unfold store_queue. rewrite storeData_trace. by eexists.
  - exists []. by rewrite app_nil_r.
Qed.

Lemma removeAction_syncInProgress actionId s :
  syncInProgress (removeAction' actionId s) = syncInProgress s.
Proof.
  unfold removeAction. destruct (findIndex actionId s) as [[i l]|]; [|done].
  unfold store_queue. by rewrite storeData_syncInProgress.
Qed.

Lemma removeAction_isOnlineStatus actionId s :
  isOnlineStatus (removeAction' actionId s) = isOnlineStatus s.
Proof.
  unfold removeAction. destruct (findIndex actionId s) as [[i l]|]; [|done].
  unfold store_queue. by rewrite storeData_isOnlineStatus.
Qed.

Lemma drain_step_success rolls s n errs l a :
  heap s !! l = Some a → processAction (rolls l) a = None →
  drain_step' rolls (s, n, errs) l
  = (markActionSynced' (id a) (after_attempt l a None s), (n + 1)%Z, errs).
Proof. intros Ha Hp. unfold drain_step. by rewrite Ha, Hp. Qed.

Lemma drain_step_failure rolls s n errs l a error :
  heap s !! l = Some a → processAction (rolls l) a = Some error →
  drain_step' rolls (s, n, errs) l
  = if (3 <=? retryCount a + 1)%Z
    then (removeAction' (id a) (after_failure l a error s), n,
          (errs ++ [failure_message a error]) ++ [removal_notice (id a)])
    else (after_failure l a error s, n, errs ++ [failure_message a error]).
Proof. intros Ha Hp. unfold drain_step. by rewrite Ha, Hp. Qed.

Lemma processes_app evs1 evs2 :
  processes (evs1 ++ evs2) = processes evs1 ++ processes evs2.
Proof. apply omap_app. Qed.

(** A step touches only objects at or before the action it processes. *)
Lemma drain_step_ahead rolls s0 s n errs x R a :
  ahead s0 s (x :: R) → heap s0 !! x = Some a →
  ahead s0 (drain_step' rolls (s, n, errs) x).1.1 R
  ∧ ∃ evs, trace (drain_step' rolls (s, n, errs) x).1.1
           = trace s ++ EProcess x a (processAction (rolls x) a) :: evs
           ∧ processes evs = [].
Proof.
  intros (Hnd & (pre & post & Hq & Hsub) & Hheap) Ha0.
  apply sublist_cons_l in Hsub as (p1 & p2 & -> & Hsub).
  assert (Ha : heap s !! x = Some a) by (rewrite Hheap; [done|set_solver]).
  assert (Hq' : actionQueue s = (pre ++ p1) ++ x :: p2) by by rewrite <- app_assoc.
  clear Hq. set (L := pre ++ p1) in *.
  assert (Hq2 : actionQueue s = (L ++ [x]) ++ p2).
  { rewrite Hq'. by rewrite <- app_assoc. }
  assert (Hfar : ∀ r, r ∈ R → r ∉ L ++ [x]).
  { intros r Hr Hin. pose proof Hnd as Hnd'. rewrite Hq2 in Hnd'.
    apply NoDup_app in Hnd' as (_ & Hdisj & _).
    apply (Hdisj r Hin). exact (elem_of_sublist _ _ _ Hr Hsub). }
  assert (HR : ∀ r, r ∈ R → heap s !! r = heap s0 !! r) by (intros; apply Hheap; set_solver).
  destruct (processAction (rolls x) a) as [error|] eqn:Hp.
  - rewrite (drain_step_failure _ _ _ _ _ _ _ Ha Hp).
    assert (Hbump : ∀ r, r ∈ R →
              alter bump_retry x (heap s) !! r = heap s0 !! r).
    { intros r Hr. rewrite lookup_alter_ne; [by apply HR|].
      intros ->. apply (Hfar r Hr). set_solver. }
    destruct (3 <=? retryCount a + 1)%Z; simpl.
    + destruct (find_at_or_before
                  (has_id (alter bump_retry x (heap s)) (id a)) L p2 x)
        as (i & f & Hfind & Hi & _).
      { apply has_id_alter; [done|]. unfold has_id. by rewrite Ha. }
      assert (Hfi : findIndex (id a) (after_failure x a error s) = Some (i, f)).
      { unfold findIndex. simpl. by rewrite Hq'. }
      split.
      * split_and!.
        -- rewrite removeAction_actionQueue, Hfi. simpl.
           eapply sublist_NoDup; [done|]. apply sublist_delete.
        -- exists (delete i (L ++ [x])), p2. split; [|done].
           rewrite removeAction_actionQueue, Hfi. simpl. rewrite Hq2.
           apply delete_app_l. by eapply lookup_lt_Some.
        -- intros r Hr. rewrite removeAction_heap. simpl. by apply Hbump.
      * destruct (removeAction_trace (id a) (after_failure x a error s))
          as (evs & Htr & Hevs).
        exists evs. split; [|done]. rewrite Htr. simpl. by rewrite <- app_assoc.
    + split.
      * split_and!; [done| |done]. exists (L ++ [x]), p2. by split.
      * exists []. by split.
  - rewrite (drain_step_success _ _ _ _ _ _ Ha Hp). simpl.
    destruct (find_at_or_before (has_id (heap s) (id a)) L p2 x)
      as (i & f & Hfind & Hi & _).
    { unfold has_id. by rewrite Ha. }
    assert (Hfi : findIndex (id a) (after_attempt x a None s) = Some (i, f)).
    { unfold findIndex. simpl. by rewrite Hq'. }
    split.
    + split_and!.
      * by rewrite markActionSynced_actionQueue.
      * exists (L ++ [x]), p2. by rewrite markActionSynced_actionQueue.
      * intros r Hr. rewrite markActionSynced_heap, Hfi. simpl.
        rewrite lookup_alter_ne; [by apply HR|].
        intros ->. apply (Hfar r Hr). by eapply list_elem_of_lookup_2.
    + destruct (markActionSynced_trace (id a) (after_attempt x a None s))
        as (evs & Htr & Hevs).
      exists evs. split; [|done]. rewrite Htr. simpl. by rewrite <- app_assoc.
Qed.

(** ** A whole drain *)

Lemma drain_cons rolls x R d :
  drain' rolls (x :: R) d = drain' rolls R (drain_step' rolls d x).
Proof. done. Qed.

Lemma drain_app rolls R1 R2 d :
  drain' rolls (R1 ++ R2) d = drain' rolls R2 (drain' rolls R1 d).
Proof. apply foldl_app. Qed.

(** The calls a drain makes are those for its pending actions, in order,
    each on the object as it stood when the drain began. *)
Lemma drain_processes rolls s0 R :
  ∀ s n errs,
    ahead s0 s R → Forall (λ l, is_Some (heap s0 !! l)) R →
    ∃ evs, trace (drain' rolls R (s, n, errs)).1.1 = trace s ++ evs
           ∧ processes evs = omap (attempt rolls (heap s0)) R.
Proof.
  induction R as [|x R IH]; intros s n errs Hahead Hlive.
  - exists []. by rewrite app_nil_r.
  - apply Forall_cons in Hlive as [[a Ha] Hlive].
    destruct (drain_step_ahead rolls s0 s n errs x R a Hahead Ha)
      as (Hahead' & evs1 & Htr1 & Hevs1).
    rewrite drain_cons.
    destruct (drain_step' rolls (s, n, errs) x) as [[s1 n1] errs1]. simpl in *.
    destruct (IH s1 n1 errs1 Hahead' Hlive) as (evs2 & Htr2 & Hevs2).
    exists ((EProcess x a (processAction (rolls x) a) :: evs1) ++ evs2). split.
    + by rewrite Htr2, Htr1, <- app_assoc.
    + rewrite processes_app. simpl. rewrite Hevs1, Hevs2. simpl.
      unfold attempt at 2. by rewrite Ha.
Qed.

Lemma pending_live s : Forall (λ l, is_Some (heap s !! l)) (pending s).
Proof.
  apply Forall_forall. intros l [Hl _]%list_elem_of_filter.
  unfold unsynced in Hl. by destruct (heap s !! l).
Qed.

Lemma ahead_start s :
  NoDup (actionQueue s) → ahead s (with_syncInProgress true s) (pending s).
Proof.
  intros Hnd. split_and!; [done| |done].
  exists [], (actionQueue s). split; [done|]. apply sublist_filter.
Qed.

Lemma finish_pass_trace now s :
  ∃ evs, trace (finish_pass' now s) = trace s ++ evs ∧ processes evs = [].
Proof.
  unfold finish_pass, store_queue. rewrite !storeData_trace. fields.
  rewrite storeData_trace, <- app_assoc. by eexists.
Qed.

Lemma finish_pass_last now s :
  ∃ evs, trace (finish_pass' now s)
         = (trace s ++ evs)
           ++ [EStore "actionQueue"
                 (JSON_stringify (SQueue (queue_objects (finish_pass' now s))))].
Proof.
  unfold finish_pass, store_queue. rewrite storeData_queue_objects.
  rewrite storeData_trace. fields. rewrite storeData_trace. by eexists.
Qed.

Lemma syncData_run now rolls s :
  syncInProgress s = false → isOnline s = true →
  syncData' now rolls s
  = let d := drain' rolls (pending s) (with_syncInProgress true s, 0%Z, []) in
    (with_syncInProgress false (finish_pass' now d.1.1),
     mkResult (length d.2 =? 0)%nat d.1.2 d.2).
Proof.
  intros H1 H2. unfold syncData. rewrite H1, H2. simpl.
  change (pending (with_syncInProgress true s)) with (pending s).
  by destruct (drain' rolls (pending s) _) as [[? ?] ?].
Qed.

Lemma syncData_skip now rolls s :
  syncInProgress s = true ∨ isOnline s = false →
  (syncData' now rolls s).1 = s.
Proof.
  intros H. unfold syncData.
  destruct (syncInProgress s); [done|]. destruct H as [?| ->]; done.
Qed.

(** The calls of a pass that runs. *)
Lemma syncData_processes now rolls s :
  NoDup (actionQueue s) → syncInProgress s = false → isOnline s = true →
  processes (new_events s (syncData' now rolls s).1)
  = omap (attempt rolls (heap s)) (pending s).
Proof.
  intros Hnd H1 H2. rewrite syncData_run by done. cbv zeta. fields.
  destruct (drain_processes rolls s (pending s)
              (with_syncInProgress true s) 0%Z [] (ahead_start s Hnd)
              (pending_live s)) as (evs & Htr & Hevs).
  destruct (finish_pass_trace now
              (drain' rolls (pending s) (with_syncInProgress true s, 0%Z, [])).1.1)
    as (evs' & Htr' & Hevs').
  rewrite (new_events_app s _ (evs ++ evs')).
  - rewrite processes_app, Hevs, Hevs'. by rewrite app_nil_r.
  - fields. rewrite Htr', Htr. fields. by rewrite <- app_assoc.
Qed.

Lemma attempt_pending rolls s l a r :
  (l, a, r) ∈ omap (attempt rolls (heap s)) (pending s) →
  l ∈ actionQueue s ∧ heap s !! l = Some a ∧ synced a = false
  ∧ r = processAction (rolls l) a.
Proof.
  intros (l' & Hl' & Hat)%list_elem_of_omap.
  apply list_elem_of_filter in Hl' as [Hun Hq].
  unfold attempt in Hat. unfold unsynced in Hun.
  destruct (heap s !! l') as [a'|] eqn:Ha; [|done]. simpl in *.
  injection Hat as <- <- <-. injection Hun as Hun. done.
Qed.

Lemma finish_pass_queue now s :
  actionQueue (finish_pass' now s) = filter (unsynced (heap s)) (actionQueue s).
Proof.
  unfold finish_pass, store_queue. rewrite storeData_actionQueue. fields.
  unfold pending. by rewrite storeData_heap, storeData_actionQueue.
Qed.

Lemma finish_pass_heap now s : heap (finish_pass' now s) = heap s.
Proof.
  unfold finish_pass, store_queue. rewrite storeData_heap. fields.
  by rewrite storeData_heap.
Qed.

Lemma finish_pass_storage now s :
  storage (finish_pass' now s) !! "agroclash_offline_actionQueue"
  = Some (JSON_stringify (SQueue (queue_objects (finish_pass' now s)))).
Proof.
  unfold finish_pass, store_queue.
  rewrite storeData_storage, lookup_insert_eq. by rewrite storeData_queue_objects.
Qed.

Lemma finish_pass_unsynced now s :
  Forall (λ a, synced a = false) (queue_objects (finish_pass' now s)).
Proof.
  apply Forall_forall. intros a (l & Hl & Ha)%list_elem_of_omap.
  rewrite finish_pass_queue in Hl. rewrite finish_pass_heap in Ha.
  apply list_elem_of_filter in Hl as [Hun _]. unfold unsynced in Hun.
  rewrite Ha in Hun. by injection Hun.
Qed.

(** ** Error texts *)

Lemma length_append (x y : string) :
  String.length (x +:+ y) = String.length x + String.length y.
Proof.
  induction x as [|c x IH]; [done|].
  change (S (String.length (x +:+ y)) = S (String.length x + String.length y)).
  by rewrite IH.
Qed.

Lemma append_inj_r (s x y : string) : x +:+ s = y +:+ s → x = y.
Proof.
  revert y. induction x as [|c x IH]; intros [|c' y] H.
  - done.
  - apply (f_equal String.length) in H. rewrite !length_append in H.
    cbn [String.length] in H. lia.
  - apply (f_equal String.length) in H. rewrite !length_append in H.
    cbn [String.length] in H. lia.
  - change (String c (x +:+ s) = String c' (y +:+ s)) in H.
    injection H as -> H. f_equal. by apply IH.
Qed.

Lemma removal_notice_inj x y : removal_notice x = removal_notice y → x = y.
Proof.
  unfold removal_notice. intros H%(inj (String.app "Action ")).
  by apply append_inj_r in H.
Qed.

Lemma failure_not_notice a error actionId :
  failure_message a error ≠ removal_notice actionId.
Proof.
  unfold failure_message, removal_notice. intros H.
  cbv [String.append] in H. discriminate.
Qed.

(** ** Steps on a queue with distinct identifiers *)

Lemma elem_of_delete_NoDup {A} (l : list A) i x t :
  NoDup l → l !! i = Some x → t ∈ delete i l ↔ t ∈ l ∧ t ≠ x.
Proof.
  intros Hnd Hi. rewrite delete_take_drop.
  pose proof (take_drop_middle l i x Hi) as Hl. clear Hi.
  set (P := take i l) in *. set (D := drop (S i) l) in *. clearbody P D. subst l.
  apply NoDup_app in Hnd as (_ & Hdisj & [Hx _]%NoDup_cons).
  rewrite !elem_of_app, elem_of_cons. split.
  - intros [Ht|Ht]; (split; [auto|]); intros ->; [|done].
    apply (Hdisj x Ht). set_solver.
  - intros [[Ht|[->|Ht]] Hne]; auto. done.
Qed.

Lemma findIndex_unique s l a :
  ids_unique s → l ∈ actionQueue s → heap s !! l = Some a →
  ∃ i, findIndex (id a) s = Some (i, l) ∧ actionQueue s !! i = Some l.
Proof.
  intros Huniq Hl Ha.
  destruct (list_find_elem_of (has_id (heap s) (id a)) (actionQueue s) l)
    as [[i f] Hfind]; [done| |].
  { unfold has_id. by rewrite Ha. }
  destruct (findIndex_Some _ _ _ _ Hfind) as (Hi & (a' & Ha' & Hid) & _).
  assert (f = l) as ->.
  { eapply Huniq; eauto. by eapply list_elem_of_lookup_2. }
  by exists i.
Qed.

Lemma ids_unique_shrink s s' :
  (∀ l, id <$> heap s' !! l = id <$> heap s !! l) →
  (∀ l, l ∈ actionQueue s' → l ∈ actionQueue s) →
  ids_unique s → ids_unique s'.
Proof.
  intros Hids Hsub Huniq l1 l2 a1 a2 H1 H2 Ha1 Ha2 Heq.
  pose proof (Hids l1) as E1. pose proof (Hids l2) as E2.
  rewrite Ha1 in E1. rewrite Ha2 in E2.
  destruct (heap s !! l1) as [b1|] eqn:Hb1; [|done].
  destruct (heap s !! l2) as [b2|] eqn:Hb2; [|done].
  simpl in *. injection E1 as E1. injection E2 as E2.
  eapply (Huniq l1 l2 b1 b2); eauto. congruence.
Qed.

Lemma ids_alter f k (h : gmap loc OfflineAction) l :
  (∀ a, id (f a) = id a) → id <$> alter f k h !! l = id <$> h !! l.
Proof.
  intros Hf. rewrite lookup_alter. case_decide; [|done]. subst.
  destruct (h !! l); simpl; [|done]. by rewrite Hf.
Qed.

(** With distinct identifiers a step acts on the action it processes and on
    nothing else. *)
Lemma drain_step_unique rolls s n errs x a :
  NoDup (actionQueue s) → ids_unique s →
  x ∈ actionQueue s → heap s !! x = Some a →
  let r := processAction (rolls x) a in
  let d' := drain_step' rolls (s, n, errs) x in
  heap d'.1.1 = alter (λ a, touched a r) x (heap s)
  ∧ (∀ t, t ∈ actionQueue d'.1.1
          ↔ t ∈ actionQueue s ∧ (t = x → dropped a r = false))
  ∧ actionQueue d'.1.1 `sublist_of` actionQueue s
  ∧ d'.2 = errs ++ step_errors a r
  ∧ d'.1.2 = (if r is None then n + 1 else n)%Z
  ∧ syncInProgress d'.1.1 = syncInProgress s
  ∧ isOnlineStatus d'.1.1 = isOnlineStatus s.
Proof.
  intros Hnd Huniq Hx Ha r d'. subst d'.
  destruct (processAction (rolls x) a) as [error|] eqn:Hp; subst r.
  - rewrite (drain_step_failure _ _ _ _ _ _ _ Ha Hp). simpl.
    destruct (3 <=? retryCount a + 1)%Z eqn:Hrc; simpl.
    + assert (Huniq' : ids_unique (after_failure x a error s)).
      { eapply ids_unique_shrink; [| |exact Huniq]; [|done].
        intros l. simpl. by apply ids_alter. }
      destruct (findIndex_unique (after_failure x a error s) x (bump_retry a))
        as (i & Hfi & Hi); [done|done| |].
      { simpl. by rewrite lookup_alter_eq, Ha. }
      rewrite id_bump_retry in Hfi.
      rewrite removeAction_heap, removeAction_actionQueue, Hfi,
        removeAction_syncInProgress, removeAction_isOnlineStatus.
      simpl in *. split_and!; try done.
      * intros t. rewrite (elem_of_delete_NoDup _ i x t Hnd Hi). clear; intuition (subst; congruence).
      * apply sublist_delete.
      * by rewrite <- app_assoc.
    + split_and!; try done. intros t. clear; intuition (subst; congruence).
  - rewrite (drain_step_success _ _ _ _ _ _ Ha Hp). simpl.
    destruct (findIndex_unique (after_attempt x a None s) x a)
      as (i & Hfi & Hi); [done..|].
    rewrite markActionSynced_heap, markActionSynced_actionQueue, Hfi,
      markActionSynced_syncInProgress, markActionSynced_isOnlineStatus.
    simpl. split_and!; try done.
    + intros t. clear; intuition (subst; congruence).
    + by rewrite app_nil_r.
Qed.

Lemma id_touched a r : id (touched a r) = id a.
Proof. by destruct r. Qed.

(** A drain over [R] leaves every action outside [R] alone, and every
    error it reports comes from the step of an action of [R]. *)
Lemma drain_unique_frame rolls R :
  ∀ s n errs,
    NoDup (actionQueue s) → ids_unique s → NoDup R →
    (∀ x, x ∈ R → x ∈ actionQueue s ∧ is_Some (heap s !! x)) →
    let d' := drain' rolls R (s, n, errs) in
    NoDup (actionQueue d'.1.1) ∧ ids_unique d'.1.1
    ∧ (∀ l, id <$> heap d'.1.1 !! l = id <$> heap s !! l)
    ∧ (∀ t, t ∉ R →
         heap d'.1.1 !! t = heap s !! t
         ∧ (t ∈ actionQueue d'.1.1 ↔ t ∈ actionQueue s))
    ∧ (∀ t, t ∈ actionQueue d'.1.1 → t ∈ actionQueue s)
    ∧ (∃ new, d'.2 = errs ++ new
         ∧ ∀ m, m ∈ new →
             ∃ x a, x ∈ R ∧ heap s !! x = Some a
                    ∧ m ∈ step_errors a (processAction (rolls x) a))
    ∧ syncInProgress d'.1.1 = syncInProgress s
    ∧ isOnlineStatus d'.1.1 = isOnlineStatus s.
Proof.
  induction R as [|x R IH]; intros s n errs Hnd Huniq HR Hin d'; subst d'.
  - simpl. split_and!; try done.
    exists []. split; [by rewrite app_nil_r|]. intros m Hm. by inversion Hm.
  - destruct (Hin x) as [Hx [a Ha]]; [apply list_elem_of_here|].
    apply NoDup_cons in HR as [HxR HR].
    destruct (drain_step_unique rolls s n errs x a Hnd Huniq Hx Ha)
      as (Hheap & Hq & Hsub & Herrs & _ & Hflag & Honl).
    rewrite drain_cons.
    destruct (drain_step' rolls (s, n, errs) x) as [[s1 n1] errs1].
    simpl in Hheap, Hq, Hsub, Herrs, Hflag, Honl.
    assert (Hids1 : ∀ l, id <$> heap s1 !! l = id <$> heap s !! l).
    { intros l. rewrite Hheap. apply ids_alter. intros. apply id_touched. }
    assert (Hnd1 : NoDup (actionQueue s1)) by exact (sublist_NoDup _ _ Hnd Hsub).
    assert (Huniq1 : ids_unique s1).
    { eapply ids_unique_shrink; [exact Hids1| |exact Huniq].
      intros l Hl. by apply Hq in Hl as [? _]. }
    assert (Hother : ∀ t, t ≠ x → heap s1 !! t = heap s !! t
                                  ∧ (t ∈ actionQueue s1 ↔ t ∈ actionQueue s)).
    { intros t Ht. split; [by rewrite Hheap, lookup_alter_ne|].
      rewrite Hq. clear -Ht. intuition. }
    assert (Hin1 : ∀ y, y ∈ R → y ∈ actionQueue s1 ∧ is_Some (heap s1 !! y)).
    { intros y Hy. assert (y ≠ x) as Hne by (intros ->; done).
      destruct (Hother y Hne) as [-> ->]. apply Hin. by apply list_elem_of_further. }
    destruct (IH s1 n1 errs1 Hnd1 Huniq1 HR Hin1)
      as (Hnd2 & Huniq2 & Hids2 & Hframe2 & Hsub2 & (new & Hnew & Hmsgs)
          & Hflag2 & Honl2).
    split_and!; try done.
    + intros l. by rewrite Hids2.
    + intros t Ht. apply not_elem_of_cons in Ht as [Hne HtR].
      destruct (Hframe2 t HtR) as [-> ->]. by apply Hother.
    + intros t Ht. apply Hsub2 in Ht. by apply Hq in Ht as [? _].
    + exists (step_errors a (processAction (rolls x) a) ++ new). split.
      * by rewrite Hnew, Herrs, <- app_assoc.
      * intros m [Hm|Hm]%elem_of_app.
        -- exists x, a. split_and!; [apply list_elem_of_here|done|done].
        -- destruct (Hmsgs m Hm) as (y & b & Hy & Hb & Hmb).
           exists y, b. split_and!; [by apply list_elem_of_further| |done].
           assert (y ≠ x) as Hne by (intros ->; done).
           by destruct (Hother y Hne) as [<- _].
    + by rewrite Hflag2.
    + by rewrite Honl2.
Qed.

Lemma notice_in_step_errors actionId b r :
  removal_notice actionId ∈ step_errors b r → id b = actionId.
Proof.
  destruct r as [error|]; simpl; [|by intros ?%elem_of_nil].
  intros [H|H]%elem_of_cons.
  - symmetry in H. by apply failure_not_notice in H.
  - destruct (3 <=? retryCount b + 1)%Z; [|by apply elem_of_nil in H].
    apply list_elem_of_singleton in H. symmetry. by apply removal_notice_inj.
Qed.

Lemma finish_pass_isOnlineStatus now s :
  isOnlineStatus (finish_pass' now s) = isOnlineStatus s.
Proof.
  unfold finish_pass, store_queue. rewrite storeData_isOnlineStatus. fields.
  by rewrite storeData_isOnlineStatus.
Qed.

(** One pass over a queue with distinct identifiers, seen from one of its
    unsynced actions [t]. *)
Lemma pass_on_action now rolls s t a :
  NoDup (actionQueue s) → ids_unique s →
  syncInProgress s = false → isOnline s = true →
  t ∈ actionQueue s → heap s !! t = Some a → synced a = false →
  let r := processAction (rolls t) a in
  let s' := (syncData' now rolls s).1 in
  let res := (syncData' now rolls s).2 in
  NoDup (actionQueue s') ∧ ids_unique s'
  ∧ syncInProgress s' = false ∧ isOnline s' = true
  ∧ heap s' !! t = Some (touched a r)
  ∧ (t ∈ actionQueue s' ↔ is_Some r ∧ dropped a r = false)
  ∧ (∃ before after,
       errors res = before ++ step_errors a r ++ after
       ∧ (removal_notice (id a) ∉ before) ∧ (removal_notice (id a) ∉ after)).
Proof.
  intros Hnd Huniq Hflag Honl Ht Ha Hsync r s' res. subst s' res.
  rewrite syncData_run by done. cbv zeta. fields.
  assert (Htp : t ∈ pending s).
  { apply list_elem_of_filter. split; [|done]. unfold unsynced. by rewrite Ha, <- Hsync. }
  apply list_elem_of_split in Htp as (R1 & R2 & HR).
  assert (HndR : NoDup (pending s)) by by apply NoDup_filter.
  assert (Hpend : ∀ x, x ∈ pending s → x ∈ actionQueue s ∧ is_Some (heap s !! x)).
  { intros x [Hun Hx]%list_elem_of_filter. split; [done|].
    unfold unsynced in Hun. by destruct (heap s !! x). }
  rewrite HR in HndR, Hpend |- *.
  apply NoDup_app in HndR as (HndR1 & Hdisj & [HtR2 HndR2]%NoDup_cons).
  assert (HtR1 : t ∉ R1).
  { intros Hin. apply (Hdisj t Hin). apply list_elem_of_here. }
  rewrite drain_app, drain_cons.
  set (s0 := with_syncInProgress true s).
  (* the actions before [t] *)
  destruct (drain_unique_frame rolls R1 s0 0%Z [] Hnd Huniq HndR1)
    as (Hnd1 & Huniq1 & Hids1 & Hframe1 & Hsub1 & (new1 & Hnew1 & Hmsg1)
        & Hflag1 & Honl1).
  { intros x Hx. apply Hpend, elem_of_app. by left. }
  destruct (drain' rolls R1 (s0, 0%Z, [])) as [[s1 n1] errs1].
  subst s0. fields. rewrite app_nil_l in Hnew1. subst errs1.
  destruct (Hframe1 t HtR1) as [Ha1 Hq1]. fields.
  assert (Ht1 : t ∈ actionQueue s1) by by apply Hq1.
  rewrite Ha in Ha1.
  (* the step of [t] *)
  destruct (drain_step_unique rolls s1 n1 new1 t a Hnd1 Huniq1 Ht1 Ha1)
    as (Hheap2 & Hq2 & Hsub2 & Herrs2 & _ & Hflag2 & Honl2).
  fold r in Hheap2, Hq2, Herrs2.
  destruct (drain_step' rolls (s1, n1, new1) t) as [[s2 n2] errs2].
  fields. subst errs2.
  assert (Hnd2 : NoDup (actionQueue s2)) by exact (sublist_NoDup _ _ Hnd1 Hsub2).
  assert (Hids2 : ∀ l, id <$> heap s2 !! l = id <$> heap s1 !! l).
  { intros l. rewrite Hheap2. apply ids_alter. intros. apply id_touched. }
  assert (Huniq2 : ids_unique s2).
  { eapply ids_unique_shrink; [exact Hids2| |exact Huniq1].
    intros l Hl. by apply Hq2 in Hl as [? _]. }
  assert (Hother : ∀ x, x ∈ R2 →
            x ∈ actionQueue s2 ∧ heap s2 !! x = heap s !! x ∧ x ≠ t).
  { intros x Hx.
    assert (x ≠ t) as Hne by (intros ->; done).
    assert (x ∉ R1) as HxR1.
    { intros Hin. apply (Hdisj x Hin). by apply list_elem_of_further. }
    destruct (Hframe1 x HxR1) as [Hh Hq]. fields.
    destruct (Hpend x) as [Hxq _].
    { apply elem_of_app. right. by apply list_elem_of_further. }
    split_and!; [|by rewrite Hheap2, lookup_alter_ne|done].
    apply Hq2. split; [by apply Hq|done]. }
  (* the actions after [t] *)
  destruct (drain_unique_frame rolls R2 s2 n2
              (new1 ++ step_errors a r) Hnd2 Huniq2 HndR2)
    as (Hnd3 & Huniq3 & Hids3 & Hframe3 & Hsub3 & (new3 & Hnew3 & Hmsg3)
        & Hflag3 & Honl3).
  { intros x Hx. destruct (Hother x Hx) as (Hq & Hh & _). split; [done|].
    rewrite Hh. apply Hpend, elem_of_app. right. by apply list_elem_of_further. }
  destruct (drain' rolls R2 (s2, n2, new1 ++ step_errors a r))
    as [[s3 n3] errs3].
  fields. subst errs3.
  destruct (Hframe3 t HtR2) as [Ha3 Hq3].
  rewrite Hheap2, lookup_alter_eq, Ha1 in Ha3. simpl in Ha3.
  assert (Hdrop : t ∈ actionQueue s3 ↔ dropped a r = false).
  { rewrite Hq3, Hq2. split; [intros [_ H]; by apply H|by split]. }
  split_and!.
  - rewrite finish_pass_queue. by apply NoDup_filter.
  - eapply ids_unique_shrink; [| |exact Huniq3].
    + intros l. fields. by rewrite finish_pass_heap.
    + intros l. fields. rewrite finish_pass_queue.
      by intros [_ ?]%list_elem_of_filter.
  - done.
  - unfold isOnline. fields. rewrite finish_pass_isOnlineStatus.
    rewrite Honl3, Honl2, Honl1. done.
  - fields. by rewrite finish_pass_heap.
  - fields. rewrite finish_pass_queue, list_elem_of_filter, Hdrop.
    unfold unsynced. rewrite Ha3. destruct r as [error|]; simpl.
    + rewrite Hsync. split; [by intros [_ ?]|by intros [_ ?]].
    + split; [by intros [? _]|by intros [[? ?] _]].
  - exists new1, new3. split; [simpl; by rewrite <- app_assoc|].
    assert (Hforeign : ∀ x b, x ≠ t → x ∈ actionQueue s →
              heap s !! x = Some b → id b ≠ id a).
    { intros x b Hne Hx Hb Heq. apply Hne. by eapply (Huniq x t b a). }
    split.
    + intros Hin. destruct (Hmsg1 _ Hin) as (x & b & Hx & Hb & Hm).
      apply notice_in_step_errors in Hm.
      destruct (Hpend x) as [Hxq _]; [apply elem_of_app; by left|].
      apply (Hforeign x b); [by intros ->|done|done|done].
    + intros Hin. destruct (Hmsg3 _ Hin) as (x & b & Hx & Hb & Hm).
      apply notice_in_step_errors in Hm.
      destruct (Hother x Hx) as (_ & Hh & Hne).
      destruct (Hpend x) as [Hxq _].
      { apply elem_of_app. right. by apply list_elem_of_further. }
      apply (Hforeign x b); [done|done|by rewrite <- Hh|done].
Qed.

(** The same pass when the attempt on [t] fails. *)
Lemma failing_pass now rolls s t a error :
  NoDup (actionQueue s) → ids_unique s →
  syncInProgress s = false → isOnline s = true →
  t ∈ actionQueue s → heap s !! t = Some a → synced a = false →
  processAction (rolls t) a = Some error →
  let s' := (syncData' now rolls s).1 in
  let res := (syncData' now rolls s).2 in
  NoDup (actionQueue s') ∧ ids_unique s'
  ∧ syncInProgress s' = false ∧ isOnline s' = true
  ∧ heap s' !! t = Some (bump_retry a)
  ∧ (t ∈ actionQueue s' ↔ (retryCount a + 1 < 3)%Z)
  ∧ (∃ before after,
       errors res = before ++ step_errors a (Some error) ++ after
       ∧ (removal_notice (id a) ∉ before) ∧ (removal_notice (id a) ∉ after)).
Proof.
  intros Hnd Huniq Hflag Honl Ht Ha Hsync Hp s' res. subst s' res.
  destruct (pass_on_action now rolls s t a Hnd Huniq Hflag Honl Ht Ha Hsync)
    as (Hnd' & Huniq' & Hflag' & Honl' & Ha' & Hq' & Herrs).
  rewrite Hp in Ha', Hq', Herrs. simpl in Ha', Hq'.
  split_and!; try done.
  rewrite Hq'. split.
  - intros [_ H%Z.leb_gt]. lia.
  - intros H. split; [done|]. apply Z.leb_gt. lia.
Qed.

(** The same pass when the attempt on [t] succeeds: the action leaves the
    queue, marked synced. *)
Lemma succeeding_pass now rolls s t a :
  NoDup (actionQueue s) → ids_unique s →
  syncInProgress s = false → isOnline s = true →
  t ∈ actionQueue s → heap s !! t = Some a → synced a = false →
  processAction (rolls t) a = None →
  retired t (syncData' now rolls s).1
  ∧ heap (syncData' now rolls s).1 !! t = Some (set_synced a).
Proof.
  intros Hnd Huniq Hflag Honl Ht Ha Hsync Hp.
  destruct (pass_on_action now rolls s t a Hnd Huniq Hflag Honl Ht Ha Hsync)
    as (_ & _ & _ & _ & Ha' & Hq' & _).
  rewrite Hp in Ha', Hq'. simpl in Ha'.
  split; [|done]. split; [|by rewrite Ha'].
  intros Hin. apply Hq' in Hin as [[? ?] _]. done.
Qed.


(** ** Passes from any state *)

Lemma submitted_app evs1 evs2 :
  submitted (evs1 ++ evs2) = submitted evs1 ++ submitted evs2.
Proof. unfold submitted. by rewrite processes_app, fmap_app. Qed.

Lemma submitted_stores evs : processes evs = [] → submitted evs = [].
Proof. unfold submitted. by intros ->. Qed.

Lemma live_alter f k (h : gmap loc OfflineAction) l :
  is_Some (alter f k h !! l) ↔ is_Some (h !! l).
Proof.
  rewrite lookup_alter. case_decide; [|done]. subst.
  by rewrite fmap_is_Some.
Qed.

(** Whatever the queue, a step submits at most its own action, only
    shrinks the queue, and frees no object. *)
Lemma drain_step_general rolls s n errs x :
  let d' := drain_step' rolls (s, n, errs) x in
  (∃ evs, trace d'.1.1 = trace s ++ evs ∧ ∀ l, l ∈ submitted evs → l = x)
  ∧ actionQueue d'.1.1 `sublist_of` actionQueue s
  ∧ (∀ l, is_Some (heap d'.1.1 !! l) ↔ is_Some (heap s !! l))
  ∧ syncInProgress d'.1.1 = syncInProgress s.
Proof.
  intros d'. subst d'. destruct (heap s !! x) as [a|] eqn:Ha.
  2:{ unfold drain_step. rewrite Ha. fields. split_and!; try done.
      exists []. rewrite app_nil_r. split; [done|]. by intros l ?%elem_of_nil. }
  assert (Hsub1 : ∀ r evs, processes evs = [] →
            ∀ l, l ∈ submitted ([EProcess x a r] ++ evs) → l = x).
  { intros r evs Hevs l. rewrite submitted_app, (submitted_stores evs Hevs).
    rewrite app_nil_r. unfold submitted. simpl.
    by intros ?%list_elem_of_singleton. }
  destruct (processAction (rolls x) a) as [error|] eqn:Hp.
  - rewrite (drain_step_failure _ _ _ _ _ _ _ Ha Hp).
    destruct (3 <=? retryCount a + 1)%Z; fields.
    + destruct (removeAction_trace (id a) (after_failure x a error s))
        as (evs & Htr & Hevs).
      split_and!.
      * exists ([EProcess x a (Some error)] ++ evs). split; [|by apply Hsub1].
        rewrite Htr. fields. by rewrite <- app_assoc.
      * rewrite removeAction_actionQueue.
        destruct (findIndex _ _) as [[i f]|]; fields; [apply sublist_delete|done].
      * intros l. rewrite removeAction_heap. fields. apply live_alter.
      * by rewrite removeAction_syncInProgress.
    + split_and!; try done.
      * exists ([EProcess x a (Some error)] ++ []). split; [done|].
        by apply Hsub1.
      * intros l. apply live_alter.
  - rewrite (drain_step_success _ _ _ _ _ _ Ha Hp). fields.
    destruct (markActionSynced_trace (id a) (after_attempt x a None s))
      as (evs & Htr & Hevs).
    split_and!.
    + exists ([EProcess x a None] ++ evs). split; [|by apply Hsub1].
      rewrite Htr. fields. by rewrite <- app_assoc.
    + by rewrite markActionSynced_actionQueue.
    + intros l. rewrite markActionSynced_heap.
      destruct (findIndex _ _) as [[i f]|]; fields; [apply live_alter|done].
    + by rewrite markActionSynced_syncInProgress.
Qed.

Lemma drain_general rolls R :
  ∀ s n errs,
    let d' := drain' rolls R (s, n, errs) in
    (∃ evs, trace d'.1.1 = trace s ++ evs ∧ ∀ l, l ∈ submitted evs → l ∈ R)
    ∧ actionQueue d'.1.1 `sublist_of` actionQueue s
    ∧ (∀ l, is_Some (heap d'.1.1 !! l) ↔ is_Some (heap s !! l))
    ∧ syncInProgress d'.1.1 = syncInProgress s.
Proof.
  induction R as [|x R IH]; intros s n errs d'; subst d'.
  - simpl. split_and!; try done. exists []. rewrite app_nil_r.
    split; [done|]. by intros l ?%elem_of_nil.
  - rewrite drain_cons.
    destruct (drain_step_general rolls s n errs x)
      as ((evs1 & Htr1 & Hevs1) & Hsub1 & Hlive1 & Hflag1).
    destruct (drain_step' rolls (s, n, errs) x) as [[s1 n1] errs1]. fields.
    destruct (IH s1 n1 errs1) as ((evs2 & Htr2 & Hevs2) & Hsub2 & Hlive2 & Hflag2).
    split_and!.
    + exists (evs1 ++ evs2). split; [by rewrite Htr2, Htr1, <- app_assoc|].
      intros l. rewrite submitted_app, elem_of_app. intros [Hl|Hl].
      * apply Hevs1 in Hl as ->. apply list_elem_of_here.
      * apply list_elem_of_further. by apply Hevs2.
    + by etrans.
    + intros l. by rewrite Hlive2.
    + by rewrite Hflag2.
Qed.

(** From the moment a pass has set [syncInProgress] until it ends, at
    every step of its loop, the flag is set. *)
Lemma in_progress_during_drain rolls R s n errs :
  syncInProgress (drain' rolls R (with_syncInProgress true s, n, errs)).1.1 = true.
Proof.
  by destruct (drain_general rolls R (with_syncInProgress true s) n errs)
    as (_ & _ & _ & ->).
Qed.

(** A pass submits only actions of the queue it finds, only shrinks the
    queue and frees no object. *)
Lemma syncData_general now rolls s :
  let s' := (syncData' now rolls s).1 in
  (∃ evs, trace s' = trace s ++ evs ∧ ∀ l, l ∈ submitted evs → l ∈ actionQueue s)
  ∧ actionQueue s' `sublist_of` actionQueue s
  ∧ (∀ l, is_Some (heap s' !! l) ↔ is_Some (heap s !! l)).
Proof.
  intros s'. subst s'.
  destruct (syncInProgress s) eqn:H1; [|destruct (isOnline s) eqn:H2].
  1,3: rewrite syncData_skip by auto; split_and!; try done;
    exists []; rewrite app_nil_r; (split; [done|]); by intros l ?%elem_of_nil.
  rewrite syncData_run by done. cbv zeta. fields.
  destruct (drain_general rolls (pending s) (with_syncInProgress true s) 0%Z [])
    as ((evs & Htr & Hevs) & Hsub & Hlive & _).
  destruct (drain' rolls (pending s) _) as [[s1 n1] errs1]. fields.
  destruct (finish_pass_trace now s1) as (evs' & Htr' & Hevs').
  split_and!.
  - exists (evs ++ evs'). split; [by rewrite Htr', Htr, <- app_assoc|].
    intros l. rewrite submitted_app, (submitted_stores evs' Hevs'), app_nil_r.
    intros Hl%Hevs. by apply list_elem_of_filter in Hl as [_ ?].
  - rewrite finish_pass_queue. etrans; [apply sublist_filter|done].
  - intros l. by rewrite finish_pass_heap.
Qed.

Lemma apply_op_retired t s o :
  retired t s →
  retired t (apply_op JSON_stringify s o)
  ∧ ∃ evs, trace (apply_op JSON_stringify s o) = trace s ++ evs
           ∧ t ∉ submitted evs.
Proof.
  intros [Hq Hlive]. destruct o as [action idTime suffix now|actionId|actionId| |now rolls];
    cbn [apply_op].
  - unfold queueAction. fields. unfold store_queue. rewrite storeData_trace. fields. split.
    + split.
      * rewrite storeData_actionQueue. fields. rewrite elem_of_app.
        intros [?|Heq%list_elem_of_singleton]; [done|].
        pose proof (is_fresh (dom (heap s))) as Hfresh.
        rewrite <- Heq in Hfresh. by apply Hfresh, elem_of_dom.
      * rewrite storeData_heap. fields. rewrite lookup_insert.
        by case_decide.
    + eexists. split; [done|]. by intros ?%elem_of_nil.
  - destruct (markActionSynced_trace actionId s) as (evs & Htr & Hevs). split.
    + split; [by rewrite markActionSynced_actionQueue|].
      rewrite markActionSynced_heap.
      destruct (findIndex _ _) as [[i f]|]; [by apply live_alter|done].
    + exists evs. split; [done|]. rewrite (submitted_stores _ Hevs).
      apply not_elem_of_nil.
  - destruct (removeAction_trace actionId s) as (evs & Htr & Hevs). split.
    + split; [|by rewrite removeAction_heap].
      rewrite removeAction_actionQueue.
      destruct (findIndex _ _) as [[i f]|]; [|done].
      intros Hin. apply Hq. eapply elem_of_sublist; [done|apply sublist_delete].
    + exists evs. split; [done|]. rewrite (submitted_stores _ Hevs).
      apply not_elem_of_nil.
  - unfold clearQueue, store_queue. rewrite storeData_trace. fields. split.
    + split; [|by rewrite storeData_heap].
      rewrite storeData_actionQueue. fields. apply not_elem_of_nil.
    + eexists. split; [done|]. by intros ?%elem_of_nil.
  - destruct (syncData_general now rolls s) as ((evs & Htr & Hevs) & Hsub & Hl).
    split.
    + split; [|by apply Hl].
      intros Hin. apply Hq. by eapply elem_of_sublist.
    + exists evs. split; [done|]. intros Hin. apply Hq. by apply Hevs.
Qed.

Lemma run_ops_retired t ops :
  ∀ s, retired t s →
       ∃ evs, trace (run_ops JSON_stringify ops s) = trace s ++ evs
              ∧ t ∉ submitted evs.
Proof.
  induction ops as [|o ops IH]; intros s Hret.
  - exists []. rewrite app_nil_r. split; [done|]. apply not_elem_of_nil.
  - destruct (apply_op_retired t s o Hret) as (Hret' & evs1 & Htr1 & Hevs1).
    destruct (IH _ Hret') as (evs2 & Htr2 & Hevs2).
    exists (evs1 ++ evs2). split.
    + unfold run_ops in *. cbn [foldl]. by rewrite Htr2, Htr1, <- app_assoc.
    + rewrite submitted_app, elem_of_app. by intros [?|?].
Qed.

Lemma attempted_in_pass now rolls s t a :
  NoDup (actionQueue s) → syncInProgress s = false → isOnline s = true →
  t ∈ actionQueue s → heap s !! t = Some a → synced a = false →
  (t, a, processAction (rolls t) a)
    ∈ processes (new_events s (syncData' now rolls s).1).
Proof.
  intros Hnd H1 H2 Ht Ha Hs. rewrite syncData_processes by done.
  apply list_elem_of_omap. exists t. split.
  - apply list_elem_of_filter. split; [|done]. unfold unsynced. by rewrite Ha, <- Hs.
  - unfold attempt. by rewrite Ha.
Qed.


(** C1, as amended.  In a queue with distinct identifiers, take a fresh
    action ([retryCount = 0], not synced) whose [processAction] call
    fails in three successive passes.  Each pass submits it, reports the
    failure in its errors list and increments [retryCount]; after the
    first two passes the action is still queued, and the third removes
    it.  The errors list of that third pass holds two entries for the
    action, the failure message of the attempt followed by the removal
    notice, and the notice occurs in it exactly once.  Whatever
    operations follow, the action is never submitted again. *)
Theorem bounded_retry now1 now2 now3 rolls1 rolls2 rolls3 s t a e1 e2 e3 :
  NoDup (actionQueue s) → ids_unique s →
  syncInProgress s = false → isOnline s = true →
  t ∈ actionQueue s → heap s !! t = Some a →
  synced a = false → retryCount a = 0%Z →
  processAction (rolls1 t) a = Some e1 →
  processAction (rolls2 t) a = Some e2 →
  processAction (rolls3 t) a = Some e3 →
  let p1 := syncData' now1 rolls1 s in
  let p2 := syncData' now2 rolls2 p1.1 in
  let p3 := syncData' now3 rolls3 p2.1 in
  let a1 := bump_retry a in
  let a2 := bump_retry a1 in
  let a3 := bump_retry a2 in
  ((t, a, Some e1) ∈ processes (new_events s p1.1)
   ∧ heap p1.1 !! t = Some a1 ∧ retryCount a1 = 1%Z
   ∧ t ∈ actionQueue p1.1
   ∧ failure_message a e1 ∈ errors p1.2
   ∧ removal_notice (id a) ∉ errors p1.2)
  ∧ ((t, a1, Some e2) ∈ processes (new_events p1.1 p2.1)
     ∧ heap p2.1 !! t = Some a2 ∧ retryCount a2 = 2%Z
     ∧ t ∈ actionQueue p2.1
     ∧ failure_message a e2 ∈ errors p2.2
     ∧ removal_notice (id a) ∉ errors p2.2)
  ∧ ((t, a2, Some e3) ∈ processes (new_events p2.1 p3.1)
     ∧ heap p3.1 !! t = Some a3 ∧ retryCount a3 = 3%Z
     ∧ (t ∉ actionQueue p3.1)
     ∧ ∃ before after,
         errors p3.2
         = before ++ [failure_message a e3; removal_notice (id a)] ++ after
         ∧ (removal_notice (id a) ∉ before)
         ∧ (removal_notice (id a) ∉ after))
  ∧ ∀ ops, t ∉ submitted (new_events p3.1 (run_ops JSON_stringify ops p3.1)).
Proof.
  intros Hnd Huniq Hflag Honl Ht Ha Hs Hrc Hp1 Hp2 Hp3 p1 p2 p3 a1 a2 a3.
  destruct (failing_pass now1 rolls1 s t a e1)
    as (Hnd1 & Huniq1 & Hflag1 & Honl1 & Ha1 & Hq1 & (b1 & c1 & He1 & Hb1 & Hc1));
    try done.
  pose proof (attempted_in_pass now1 rolls1 s t a Hnd Hflag Honl Ht Ha Hs) as Hsub1.
  rewrite Hp1 in Hsub1.
  fold p1 in Hnd1, Huniq1, Hflag1, Honl1, Ha1, Hq1, He1, Hsub1.
  assert (Ht1 : t ∈ actionQueue p1.1) by (apply Hq1; lia).
  destruct (failing_pass now2 rolls2 p1.1 t a1 e2)
    as (Hnd2 & Huniq2 & Hflag2 & Honl2 & Ha2 & Hq2 & (b2 & c2 & He2 & Hb2 & Hc2));
    try done.
  pose proof (attempted_in_pass now2 rolls2 p1.1 t a1 Hnd1 Hflag1 Honl1 Ht1 Ha1 Hs)
    as Hsub2.
  change (processAction (rolls2 t) a1) with (processAction (rolls2 t) a) in Hsub2.
  rewrite Hp2 in Hsub2.
  fold p2 in Hnd2, Huniq2, Hflag2, Honl2, Ha2, Hq2, He2, Hsub2.
  assert (Ht2 : t ∈ actionQueue p2.1).
  { apply Hq2. subst a1. simpl. lia. }
  destruct (failing_pass now3 rolls3 p2.1 t a2 e3)
    as (Hnd3 & Huniq3 & Hflag3 & Honl3 & Ha3 & Hq3 & (b3 & c3 & He3 & Hb3 & Hc3));
    try done.
  pose proof (attempted_in_pass now3 rolls3 p2.1 t a2 Hnd2 Hflag2 Honl2 Ht2 Ha2 Hs)
    as Hsub3.
  change (processAction (rolls3 t) a2) with (processAction (rolls3 t) a) in Hsub3.
  rewrite Hp3 in Hsub3.
  fold p3 in Hnd3, Huniq3, Hflag3, Honl3, Ha3, Hq3, He3, Hsub3.
  assert (Ht3 : t ∉ actionQueue p3.1).
  { intros Hin. apply Hq3 in Hin. subst a2 a1. simpl in Hin. lia. }
  assert (Hone : ∀ b c (e : string) (x : OfflineAction),
            (retryCount x + 1 < 3)%Z → type x = type a → entity x = entity a →
            (removal_notice (id a) ∉ b) → (removal_notice (id a) ∉ c) →
            failure_message a e ∈ b ++ step_errors x (Some e) ++ c
            ∧ (removal_notice (id a) ∉ b ++ step_errors x (Some e) ++ c)).
  { intros b c e x Hlt Hty Hen Hb Hc. simpl.
    rewrite (proj2 (Z.leb_gt 3 (retryCount x + 1))) by lia.
    assert (failure_message x e = failure_message a e) as ->.
    { unfold failure_message. by rewrite Hty, Hen. }
    split.
    - apply elem_of_app. right. apply list_elem_of_here.
    - rewrite elem_of_app, elem_of_cons. intros [?|[Heq|?]]; [done| |done].
      symmetry in Heq. by apply failure_not_notice in Heq. }
  split_and!; try done.
  - subst a1. simpl. lia.
  - rewrite He1. apply (Hone b1 c1 e1 a); [lia|done..].
  - rewrite He1. apply (Hone b1 c1 e1 a); [lia|done..].
  - subst a2 a1. simpl. lia.
  - rewrite He2. apply (Hone b2 c2 e2 a1); [subst a1; simpl; lia|done..].
  - rewrite He2. apply (Hone b2 c2 e2 a1); [subst a1; simpl; lia|done..].
  - subst a3 a2 a1. simpl. lia.
  - exists b3, c3. split; [|done]. rewrite He3. simpl.
    rewrite (proj2 (Z.leb_le 3 (retryCount a + 1 + 1 + 1))) by lia. done.
  - intros ops.
    destruct (run_ops_retired t ops p3.1) as (evs & Htr & Hevs).
    { split; [done|]. by rewrite Ha3. }
    by rewrite (new_events_app _ _ _ Htr).
Qed.

(** ** Order of submission *)

Lemma filter_ext_in {A} (P Q : A → Prop) `{!∀ x, Decision (P x)}
    `{!∀ x, Decision (Q x)} (l : list A) :
  (∀ x, x ∈ l → (P x ↔ Q x)) → filter P l = filter Q l.
Proof.
  induction l as [|y l IH]; intros Hext; [done|].
  rewrite !filter_cons.
  assert (filter P l = filter Q l) as ->.
  { apply IH. intros x Hx. apply Hext. by apply list_elem_of_further. }
  pose proof (Hext y (list_elem_of_here _ _)) as Hy.
  destruct (decide (P y)), (decide (Q y)); tauto.
Qed.

Lemma omap_ext_in {A B} (f g : A → option B) (l : list A) :
  (∀ x, x ∈ l → f x = g x) → omap f l = omap g l.
Proof.
  intros Hext. apply list_omap_ext, Forall2_same_length_lookup_2; [done|].
  intros i x y Hx Hy. rewrite Hx in Hy. injection Hy as <-.
  apply Hext. by eapply list_elem_of_lookup_2.
Qed.

Lemma attempt_locs rolls (h : gmap loc OfflineAction) (R : list loc) :
  (∀ l, l ∈ R → is_Some (h !! l)) →
  (λ p, p.1.1) <$> omap (attempt rolls h) R = R.
Proof.
  induction R as [|x R IH]; intros Hlive; [done|]. csimpl.
  destruct (Hlive x (list_elem_of_here _ _)) as [a Ha].
  unfold attempt at 1. rewrite Ha. csimpl. f_equal. apply IH.
  intros l Hl. apply Hlive. by apply list_elem_of_further.
Qed.

Lemma attempt_objects rolls (h : gmap loc OfflineAction) (R : list loc) :
  (λ p, p.1.2) <$> omap (attempt rolls h) R = omap (λ l, h !! l) R.
Proof.
  induction R as [|x R IH]; [done|]. csimpl.
  unfold attempt at 1. destruct (h !! x) as [a|]; csimpl; [by f_equal|done].
Qed.

Lemma filter_all_in {A} (P : A → Prop) `{!∀ x, Decision (P x)} (l : list A) :
  (∀ x, x ∈ l → P x) → filter P l = l.
Proof.
  induction l as [|y l IH]; intros Hall; [done|].
  rewrite filter_cons_True by apply Hall, list_elem_of_here. f_equal.
  apply IH. intros x Hx. apply Hall. by apply list_elem_of_further.
Qed.

Lemma omap_Forall2 {A B C} (f : A → option B) (g : C → B) (l : list A) (k : list C) :
  Forall2 (λ x i, f x = Some (g i)) l k → omap f l = g <$> k.
Proof. induction 1 as [|x i l k Hx _ IH]; [done|]. csimpl. by rewrite Hx, IH. Qed.

Lemma enqueue_all_cons i ins s :
  enqueue_all JSON_stringify (i :: ins) s
  = enqueue_all JSON_stringify ins
      (queueAction' i.1.1.1 i.1.1.2 i.1.2 i.2 s).1.1.
Proof. done. Qed.

(** Enqueueing appends the new objects at the tail, in order, and leaves
    the objects already there alone. *)
Lemma enqueue_all_spec ins :
  ∀ s, wf s →
    let s1 := enqueue_all JSON_stringify ins s in
    wf s1
    ∧ syncInProgress s1 = syncInProgress s ∧ isOnlineStatus s1 = isOnlineStatus s
    ∧ (∀ l, is_Some (heap s !! l) → heap s1 !! l = heap s !! l)
    ∧ ∃ news, actionQueue s1 = actionQueue s ++ news
              ∧ Forall2 (λ l i, heap s1 !! l = Some (queued i)) news ins.
Proof.
  induction ins as [|i ins IH]; intros s [Hnd Hlive] s1; subst s1.
  - split_and!; try done. exists []. by rewrite app_nil_r.
  - rewrite enqueue_all_cons.
    set (l := fresh (dom (heap s))).
    assert (Hfresh : heap s !! l = None) by apply not_elem_of_dom, is_fresh.
    set (s' := (queueAction' i.1.1.1 i.1.1.2 i.1.2 i.2 s).1.1).
    assert (Hq' : actionQueue s' = actionQueue s ++ [l]).
    { subst s'. unfold queueAction, store_queue. fields.
      by rewrite storeData_actionQueue. }
    assert (Hh' : heap s' = <[l := queued i]> (heap s)).
    { subst s'. unfold queueAction, store_queue. fields.
      by rewrite storeData_heap. }
    assert (Hf' : syncInProgress s' = syncInProgress s
                  ∧ isOnlineStatus s' = isOnlineStatus s).
    { subst s'. unfold queueAction, store_queue. fields.
      by rewrite storeData_syncInProgress, storeData_isOnlineStatus. }
    assert (Hwf' : wf s').
    { split.
      - rewrite Hq'. apply NoDup_app. split_and!; [done| |apply NoDup_singleton].
        intros x Hx ->%list_elem_of_singleton.
        destruct (Hlive l Hx) as [? ?]. congruence.
      - intros x. rewrite Hq', Hh', elem_of_app, lookup_insert.
        case_decide; [done|]. intros [Hx|Hx%list_elem_of_singleton]; [|done].
        by apply Hlive. }
    destruct (IH s' Hwf') as (Hwf1 & Hflag1 & Honl1 & Hframe1 & news & Hq1 & Hobjs).
    destruct Hf' as [Hflag' Honl'].
    split_and!; [done|by rewrite Hflag1|by rewrite Honl1| |].
    + intros x Hx. rewrite Hframe1.
      * rewrite Hh', lookup_insert_ne; [done|]. intros <-.
        rewrite Hfresh in Hx. by destruct Hx.
      * rewrite Hh', lookup_insert. by case_decide.
    + exists (l :: news). split.
      * by rewrite Hq1, Hq', <- app_assoc.
      * constructor; [|done]. rewrite Hframe1.
        -- by rewrite Hh', lookup_insert_eq.
        -- rewrite Hh', lookup_insert_eq. done.
Qed.

(** ** Well-formedness is an invariant *)

Lemma queueAction_wf action idTime suffix now s :
  wf s → wf (queueAction' action idTime suffix now s).1.1.
Proof.
  intros Hwf.
  by destruct (enqueue_all_spec [(action, idTime, suffix, now)] s Hwf) as [? _].
Qed.

Lemma apply_op_wf s o : wf s → wf (apply_op JSON_stringify s o).
Proof.
  intros [Hnd Hlive].
  destruct o as [action idTime suffix now|actionId|actionId| |now rolls];
    cbn [apply_op].
  - by apply queueAction_wf.
  - split; [by rewrite markActionSynced_actionQueue|].
    intros l. rewrite markActionSynced_actionQueue, markActionSynced_heap.
    intros Hl%Hlive. destruct (findIndex _ _) as [[i f]|]; [by apply live_alter|done].
  - assert (Hsub : actionQueue (removeAction' actionId s) `sublist_of` actionQueue s).
    { rewrite removeAction_actionQueue.
      destruct (findIndex _ _) as [[i f]|]; [apply sublist_delete|done]. }
    split; [exact (sublist_NoDup _ _ Hnd Hsub)|].
    intros l Hl. rewrite removeAction_heap. apply Hlive.
    exact (elem_of_sublist _ _ _ Hl Hsub).
  - unfold clearQueue, store_queue. split.
    + rewrite storeData_actionQueue. apply NoDup_nil_2.
    + intros l. rewrite storeData_actionQueue. by intros ?%elem_of_nil.
  - destruct (syncData_general now rolls s) as (_ & Hsub & Hl).
    split; [exact (sublist_NoDup _ _ Hnd Hsub)|].
    intros l Hin. apply Hl, Hlive. exact (elem_of_sublist _ _ _ Hin Hsub).
Qed.

(** Every state reached by the operations of the service from a
    well-formed one is well formed. *)
Lemma run_ops_wf ops : ∀ s, wf s → wf (run_ops JSON_stringify ops s).
Proof.
  induction ops as [|o ops IH]; intros s Hwf; [done|].
  unfold run_ops in *. cbn [foldl]. by apply IH, apply_op_wf.
Qed.

Lemma new_pending_objects (h : gmap loc OfflineAction) (news : list loc)
    (ins : list (ActionArg * Z * string * Z)) :
  Forall2 (λ l i, h !! l = Some (queued i)) news ins →
  omap (λ l, h !! l) (filter (unsynced h) news)
  = filter (λ a, synced a = false) (queued <$> ins).
Proof.
  induction 1 as [|l i news' ins' Hl _ IH]; [done|].
  csimpl. assert (unsynced h l ↔ synced (queued i) = false) as Hun.
  { unfold unsynced. rewrite Hl. change (synced <$> Some (queued i))
      with (Some (synced (queued i))). split; [by intros [= ?]|by intros ->]. }
  destruct (synced (queued i)) eqn:Hs.
  - rewrite filter_cons_False by (rewrite Hun; congruence).
    by rewrite filter_cons_False by congruence.
  - rewrite filter_cons_True by by rewrite Hun.
    rewrite filter_cons_True by done. csimpl. by rewrite Hl, IH.
Qed.

(** The pending actions after a series of enqueues: those pending
    before, then the new ones that are not flagged synced already. *)
Lemma enqueue_all_pending ins s :
  wf s →
  let s1 := enqueue_all JSON_stringify ins s in
  wf s1
  ∧ syncInProgress s1 = syncInProgress s ∧ isOnlineStatus s1 = isOnlineStatus s
  ∧ ∃ news,
      actionQueue s1 = actionQueue s ++ news
      ∧ Forall2 (λ l i, heap s1 !! l = Some (queued i)) news ins
      ∧ pending s1 = pending s ++ filter (unsynced (heap s1)) news
      ∧ omap (λ l, heap s1 !! l) (pending s1)
        = omap (λ l, heap s !! l) (pending s)
          ++ filter (λ a, synced a = false) (queued <$> ins).
Proof.
  intros Hwf s1.
  destruct (enqueue_all_spec ins s Hwf)
    as (Hwf1 & Hflag1 & Honl1 & Hframe & news & Hq1 & Hobjs).
  fold s1 in Hwf1, Hflag1, Honl1, Hframe, Hq1, Hobjs.
  destruct Hwf as [Hnd Hlive].
  assert (Hold : ∀ x, x ∈ pending s → heap s1 !! x = heap s !! x).
  { intros x [_ Hx]%list_elem_of_filter. by apply Hframe, Hlive. }
  assert (Hpend : pending s1 = pending s ++ filter (unsynced (heap s1)) news).
  { unfold pending. rewrite Hq1, filter_app. f_equal.
    apply filter_ext_in. intros x Hx. unfold unsynced.
    by rewrite Hframe by by apply Hlive. }
  split_and!; [done..|]. exists news. split_and!; [done..|].
  rewrite Hpend, omap_app. f_equal; [by apply omap_ext_in|].
  by apply new_pending_objects.
Qed.

(** The calls of a pass that returned, among the actions it submitted. *)
Lemma applied_attempts rolls (h : gmap loc OfflineAction) (R : list loc) :
  omap (λ p, if succeeded p then Some p.1.1 else None) (omap (attempt rolls h) R)
  = filter (λ l, returns rolls h l = true) R.
Proof.
  induction R as [|x R IH]; [done|]. csimpl. unfold attempt at 1.
  destruct (h !! x) as [a|] eqn:Hx; csimpl.
  - destruct (processAction (rolls x) a) as [error|] eqn:Hp.
    + rewrite filter_cons_False; [done|]. unfold returns. by rewrite Hx, Hp.
    + rewrite filter_cons_True by (unfold returns; by rewrite Hx, Hp).
      cbn. by rewrite IH.
  - rewrite filter_cons_False; [done|]. unfold returns. by rewrite Hx.
Qed.

Lemma syncData_applied now rolls s :
  NoDup (actionQueue s) → syncInProgress s = false → isOnline s = true →
  submitted (new_events s (syncData' now rolls s).1) = pending s
  ∧ applied (new_events s (syncData' now rolls s).1)
    = filter (λ l, returns rolls (heap s) l = true) (pending s).
Proof.
  intros Hnd H1 H2. unfold submitted, applied.
  rewrite syncData_processes by done. split; [|apply applied_attempts].
  apply attempt_locs.
  intros l Hl. by apply (proj1 (Forall_forall _ _) (pending_live s)).
Qed.


End SyncFacts.

(** ** Network notification *)

Section NotifyFacts.

Context {W : Type}.
Variable run : nat → bool → W → W * option string.

Lemma guarded_call_returns online c (d : W * list Notice) :
  ∃ log, try_catch (call_callback run online c) (console_error c) d
         = Normal ((run c online d.1).1, d.2 ++ Called c online :: log)
         ∧ calls log = [].
Proof.
  destruct d as [w log0]. unfold try_catch, call_callback. cbn [fst snd].
  destruct (run c online w) as [w' [error|]]; cbn [fst snd].
  - exists [ConsoleError c error]. unfold console_error. cbn [fst snd].
    by rewrite <- app_assoc.
  - by exists [].
Qed.

Lemma calls_app (l1 l2 : list Notice) : calls (l1 ++ l2) = calls l1 ++ calls l2.
Proof. apply omap_app. Qed.

Lemma forEach_guarded online cs :
  ∀ d : W * list Notice,
    ∃ log, forEach (λ c, try_catch (call_callback run online c) (console_error c)) cs d
           = Normal (foldl (λ w c, (run c online w).1) d.1 cs, d.2 ++ log)
           ∧ calls log = (λ c, (c, online)) <$> cs.
Proof.
  induction cs as [|c cs IH]; intros d.
  - exists []. destruct d. by rewrite app_nil_r.
  - destruct (guarded_call_returns online c d) as (log1 & Hcall & Hlog1).
    cbn [forEach]. rewrite Hcall.
    destruct (IH ((run c online d.1).1, d.2 ++ Called c online :: log1))
      as (log2 & Hrest & Hlog2).
    exists (Called c online :: log1 ++ log2). split.
    + rewrite Hrest. cbn [fst snd foldl]. by rewrite <- app_assoc.
    + change (Called c online :: log1 ++ log2)
        with ([Called c online] ++ (log1 ++ log2)).
      rewrite !calls_app, Hlog1, Hlog2. done.
Qed.

End NotifyFacts.

(** ** Deliveries over the live set *)

Section LiveFacts.

Context {W : Type}.
Variable act : nat → bool → W → W * option string * list SubOp.

Local Abbreviation guarded online :=
  (λ c, try_catch (call_live act online c) (console_error_live c)).

(** The guarded call returns normally, whatever the callback does. *)
Lemma guarded_live_returns online c (k : Walk W) :
  ∃ k', guarded online c k = Normal k'.
Proof.
  unfold try_catch, call_live.
  destruct (act c online (walk_world k)) as [[w' [error|]] ops]; by eexists.
Qed.

Lemma forEach_live_never_throws online fuel :
  ∀ (k k' : Walk W) error,
    forEach_live fuel (guarded online) k ≠ Some (Throw k' error).
Proof.
  induction fuel as [|fuel IH]; intros k k' error; cbn [forEach_live].
  - by destruct (todo k).
  - destruct (todo k) as [|c rest]; [done|].
    destruct (guarded_live_returns online c
                (mkWalk (walk_world k) (walk_log k) (visited k ++ [c]) rest))
      as [k1 ->].
    apply IH.
Qed.

Lemma forEach_live_ends online fuel :
  ∀ (k k' : Walk W),
    forEach_live fuel (guarded online) k = Some (Normal k') → todo k' = [].
Proof.
  induction fuel as [|fuel IH]; intros k k'; cbn [forEach_live].
  - destruct (todo k) eqn:Hk; [|done]. by intros [= <-].
  - destruct (todo k) as [|c rest] eqn:Hk; [by intros [= <-]|].
    destruct (guarded_live_returns online c
                (mkWalk (walk_world k) (walk_log k) (visited k ++ [c]) rest))
      as [k1 ->].
    apply IH.
Qed.

(** A guarded call of a callback that leaves the set alone. *)
Lemma guarded_quiet_call online c (k : Walk W) :
  (act c online (walk_world k)).2 = [] →
  ∃ log, guarded online c k
         = Normal (mkWalk (act c online (walk_world k)).1.1
                          (walk_log k ++ Called c online :: log)
                          (visited k) (todo k))
         ∧ calls log = [].
Proof.
  unfold try_catch, call_live.
  destruct (act c online (walk_world k)) as [[w' [error|]] ops]; cbn [fst snd];
    intros ->; cbn [foldl].
  - exists [ConsoleError c error]. unfold console_error_live. cbn.
    by rewrite <- app_assoc.
  - by exists [].
Qed.

Lemma forEach_live_quiet online cs :
  ∀ fuel (k : Walk W),
    todo k = cs →
    (∀ c w, c ∈ cs → (act c online w).2 = []) →
    length cs ≤ fuel →
    ∃ log,
      forEach_live fuel (guarded online) k
      = Some (Normal (mkWalk (foldl (λ w c, (act c online w).1.1) (walk_world k) cs)
                             (walk_log k ++ log) (visited k ++ cs) []))
      ∧ calls log = (λ c, (c, online)) <$> cs.
Proof.
  induction cs as [|c cs IH]; intros fuel k Hk Hquiet Hfuel.
  - exists []. rewrite !app_nil_r. split; [|done].
    destruct k as [w0 log0 vis0 todo0]. cbn in *. subst todo0.
    by destruct fuel.
  - destruct fuel as [|fuel]; [cbn in Hfuel; lia|]. cbn [forEach_live].
    rewrite Hk.
    destruct (guarded_quiet_call online c
                (mkWalk (walk_world k) (walk_log k) (visited k ++ [c]) cs))
      as (log1 & -> & Hlog1).
    { cbn. apply Hquiet, list_elem_of_here. }
    cbn [walk_world walk_log visited todo].
    destruct (IH fuel
                (mkWalk (act c online (walk_world k)).1.1
                        (walk_log k ++ Called c online :: log1)
                        (visited k ++ [c]) cs))
      as (log2 & -> & Hlog2); [done| |cbn in Hfuel; lia|].
    { intros c' w' Hc'. by apply Hquiet, list_elem_of_further. }
    cbn [walk_world walk_log visited todo foldl].
    exists (Called c online :: log1 ++ log2). split.
    + by rewrite <- !app_assoc.
    + change (Called c online :: log1 ++ log2)
        with ([Called c online] ++ (log1 ++ log2)).
      rewrite !calls_app, Hlog1, Hlog2. done.
Qed.

(** For callbacks that leave the set alone the walk over the live set is
    the walk over the subscribers found at the start. *)
Lemma forEach_live_guarded online cs :
  ∀ fuel (k : Walk W) w' log,
    todo k = cs →
    (∀ c w0, c ∈ cs → (act c online w0).2 = []) →
    length cs ≤ fuel →
    forEach (λ c, try_catch (call_callback (λ c b w0, (act c b w0).1) online c)
                            (console_error c)) cs (walk_world k, walk_log k)
    = Normal (w', log) →
    forEach_live fuel (guarded online) k
    = Some (Normal (mkWalk w' log (visited k ++ cs) [])).
Proof.
  induction cs as [|c cs IH]; intros fuel k w' log Hk Hquiet Hfuel Hold.
  - cbn in Hold. injection Hold as <- <-. rewrite app_nil_r.
    destruct k as [w0 log0 vis0 todo0]. cbn in *. subst todo0.
    by destruct fuel.
  - destruct fuel as [|fuel]; [cbn in Hfuel; lia|]. cbn [forEach_live forEach] in *.
    rewrite Hk.
    assert (Hq : (act c online (walk_world k)).2 = [])
      by apply Hquiet, list_elem_of_here.
    assert (Hrest : ∀ c' w0, c' ∈ cs → (act c' online w0).2 = []).
    { intros c' w0 Hc'. by apply Hquiet, list_elem_of_further. }
    assert (Hlen : length cs ≤ fuel) by (cbn in Hfuel; lia).
    unfold try_catch, call_callback, call_live in *.
    cbn [walk_world walk_log visited todo] in *.
    destruct (act c online (walk_world k)) as [[w1 failure] ops].
    cbn [fst snd] in *. subst ops. cbn [foldl].
    destruct failure as [error|].
    + unfold console_error, console_error_live in *. cbn [fst snd] in *.
      cbn [walk_world walk_log visited todo].
      rewrite (IH fuel
                 (mkWalk w1 ((walk_log k ++ [Called c online])
                             ++ [ConsoleError c error]) (visited k ++ [c]) cs)
                 w' log eq_refl Hrest Hlen Hold).
      cbn [visited]. by rewrite <- app_assoc.
    + rewrite (IH fuel
                 (mkWalk w1 (walk_log k ++ [Called c online]) (visited k ++ [c]) cs)
                 w' log eq_refl Hrest Hlen Hold).
      cbn [visited]. by rewrite <- app_assoc.
Qed.

(** For callbacks that leave the set alone the walk over the live set is
    the walk over the subscribers found at the start. *)
Lemma notifyNetworkChange_live_quiet fuel online s (w : W) :
  (∀ c w', c ∈ networkCallbacks s → (act c online w').2 = []) →
  length (networkCallbacks s) ≤ fuel →
  ∀ w' log,
    notifyNetworkChange (λ c b w0, (act c b w0).1) online s w = Normal (w', log) →
    notifyNetworkChange_live act fuel online s w
    = Some (Normal (mkWalk w' log (networkCallbacks s) [])).
Proof.
  intros Hquiet Hfuel w' log Hold.
  unfold notifyNetworkChange, notifyNetworkChange_live in *.
  by apply (forEach_live_guarded online (networkCallbacks s) fuel
              (mkWalk w [] [] (networkCallbacks s))).
Qed.


End LiveFacts.

(** Without the guard the second subscriber's exception would end the
    delivery before the third is called; with it all three are. *)
Example unguarded_delivery_stops :
  notify_unguarded sample_run true three_subscribers []
  = Throw ([1; 2], [Called 1 true; Called 2 true]) "Error: subscriber failed"
  ∧ notifyNetworkChange sample_run true three_subscribers []
    = Normal ([1; 2; 3],
              [Called 1 true; Called 2 true;
               ConsoleError 2 "Error: subscriber failed"; Called 3 true]).
Proof. split; reflexivity. Qed.

(** ** The properties at the sample states *)

Lemma two_queued_NoDup : NoDup (actionQueue two_queued).
Proof.
  change (actionQueue two_queued) with [0; 1]%nat.
  apply NoDup_cons. split; [|apply NoDup_singleton].
  by intros ?%list_elem_of_singleton.
Qed.

Lemma two_queued_ids_unique : ids_unique two_queued.
Proof.
  intros l1 l2 a1 a2 H1 H2 Ha1 Ha2 Hid.
  change (actionQueue two_queued) with [0; 1]%nat in H1, H2.
  apply elem_of_cons in H1 as [->|H1%list_elem_of_singleton];
    apply elem_of_cons in H2 as [->|H2%list_elem_of_singleton];
    subst; try done;
    vm_compute in Ha1, Ha2; injection Ha1 as <-; injection Ha2 as <-;
    vm_compute in Hid; discriminate.
Qed.

(** C1, as stated, fails on the errors list of the pass that drops the
    action: with a single queued action whose call always fails, the
    third pass removes it and its errors list has two entries for it,
    not one; the first pass reports the action too. *)
Lemma drop_pass_reports_twice :
  actionQueue fail_pass2.1 = [0]%nat
  ∧ actionQueue fail_pass3.1 = []
  ∧ errors fail_pass1.2
    = ["Failed to sync CREATE plot: Error: Simulated network error"]
  ∧ errors fail_pass3.2
    = ["Failed to sync CREATE plot: Error: Simulated network error";
       "Action offline_1000_abc removed after 3 failed attempts"]
  ∧ Forall (reports first_queued) (errors fail_pass3.2)
  ∧ length (errors fail_pass3.2) ≠ 1%nat.
Proof.
  split_and!; try (vm_compute; reflexivity).
  - change (errors fail_pass3.2)
      with [failure_message first_queued "Error: Simulated network error";
            removal_notice (id first_queued)].
    apply Forall_cons. split; [left; by eexists|].
    apply Forall_cons. split; [by right|]. apply Forall_nil_2.
  - vm_compute. discriminate.
Qed.

(** C1's amended statement at the two sample actions, the remote call
    failing in three passes. *)
Lemma bounded_retry_witness :
  NoDup (actionQueue two_queued) ∧ ids_unique two_queued
  ∧ heap two_queued !! 0%nat = Some first_queued
  ∧ ∀ ops,
      0%nat ∉ submitted
        (new_events
           (syncData sample_stringify 4000 always_fail
              (syncData sample_stringify 3000 always_fail
                 (syncData sample_stringify 2000 always_fail two_queued).1).1).1
           (run_ops sample_stringify ops
              (syncData sample_stringify 4000 always_fail
                 (syncData sample_stringify 3000 always_fail
                    (syncData sample_stringify 2000 always_fail two_queued).1).1).1)).
Proof.
  split_and!; [apply two_queued_NoDup|apply two_queued_ids_unique|reflexivity|].
  refine (proj2 (proj2 (proj2
    (bounded_retry sample_stringify 2000 3000 4000 always_fail always_fail
       always_fail two_queued 0%nat first_queued
       "Error: Simulated network error" "Error: Simulated network error"
       "Error: Simulated network error"
       two_queued_NoDup two_queued_ids_unique eq_refl eq_refl _ eq_refl
       eq_refl eq_refl eq_refl eq_refl eq_refl)))).
  change (actionQueue two_queued) with [0; 1]%nat. apply list_elem_of_here.
Defined.

(** C4 at a state in the middle of a pass. *)
Lemma syncData_already_in_progress_witness :
  syncInProgress mid_pass = true
  ∧ syncData sample_stringify 5000 never_fail mid_pass
    = (mid_pass, mkResult false 0 ["Sync already in progress"]).
Proof.
  split; [reflexivity|].
  exact (proj1 (syncData_already_in_progress sample_stringify 5000 never_fail
                  mid_pass eq_refl)).
Defined.


Lemma empty_service_wf : wf empty_service.
Proof. split; [apply NoDup_nil_2|]. by intros l ?%elem_of_nil. Qed.

(** C6, as stated, fails when a call fails: the pass leaves the failed
    action unapplied and goes on.  With a CREATE and an UPDATE enqueued
    in that order for the same [entityId], a pass in which only the first
    call fails applies the UPDATE, and the CREATE is applied by the next
    pass, after it.  And where an argument brought an identifier that is
    queued already, the action whose call returned is not the one marked
    synced: it stays queued, unsynced. *)
Lemma update_applied_before_create :
  entityId <$> getQueuedActions two_queued = ["tmp-1"; "tmp-1"]
  ∧ type <$> getQueuedActions two_queued = [CREATE; UPDATE]
  ∧ submitted (new_events two_queued create_fails_pass.1) = [0; 1]%nat
  ∧ applied (new_events two_queued create_fails_pass.1) = [1]%nat
  ∧ applied (new_events create_fails_pass.1
               (syncData sample_stringify 3000 never_fail create_fails_pass.1).1)
    = [0]%nat
  ∧ applied (new_events twin_queued twin_pass.1) = [0; 1]%nat
  ∧ synced <$> heap twin_pass.1 !! 1%nat = Some false
  ∧ actionQueue twin_pass.1 = [1]%nat.
Proof. split_and!; vm_compute; reflexivity. Qed.



(** C8, as stated, fails on the error text when the network goes while a
    pass is running: the call made then is rejected as "already in
    progress", not as "Device is offline". *)
Lemma offline_during_pass_reports_in_progress :
  isOnline offline_mid_pass = false
  ∧ errors (syncData sample_stringify 5000 never_fail offline_mid_pass).2
    = ["Sync already in progress"]
  ∧ errors (syncData sample_stringify 5000 never_fail offline_mid_pass).2
    ≠ ["Device is offline"].
Proof. split_and!; [vm_compute; reflexivity..|]. vm_compute. discriminate. Qed.

(** C8's amended statement at an offline service with one queued action. *)
Lemma syncData_offline_witness :
  isOnline offline_queued = false
  ∧ (syncData sample_stringify 5000 never_fail offline_queued).1 = offline_queued
  ∧ errors (syncData sample_stringify 5000 never_fail offline_queued).2
    = ["Device is offline"].
Proof.
  split; [reflexivity|].
  destruct (syncData_offline sample_stringify 5000 never_fail offline_queued eq_refl)
    as (H1 & _ & _ & H2 & _).
  split; [exact H1|exact H2].
Defined.

(** C9 at an identifier the sample queue does not hold. *)
Lemma mark_remove_unknown_id_witness :
("offline_0_none" ∉ id <$> getQueuedActions one_queued)
  ∧ markActionSynced sample_stringify "offline_0_none" one_queued = one_queued
  ∧ removeAction sample_stringify "offline_0_none" one_queued = one_queued.
Proof.
  assert (H : "offline_0_none" ∉ id <$> getQueuedActions one_queued).
  { change (id <$> getQueuedActions one_queued) with ["offline_1000_abc"].
    by intros ?%list_elem_of_singleton. }
  split; [exact H|].
  destruct (mark_remove_unknown_id sample_stringify "offline_0_none" one_queued H)
    as (H1 & H2 & _).
  split; [exact H1|exact H2].
Defined.

(** * More of the service *)

(** ** Reading back and clearing the store *)

Section StoreFacts.

Variable JSON_stringify : Stored → string.
Variable JSON_parse : string → option Stored.

Local Abbreviation storeData' := (storeData JSON_stringify).
Local Abbreviation getData' := (getData JSON_parse).
Local Abbreviation syncData' := (syncData JSON_stringify).

Lemma prefix_append (p k : string) : String.prefix p (p +:+ k) = true.
Proof.
  induction p as [|c p IH]; [by destruct k|].
  change (String c p +:+ k) with (String c (p +:+ k)). cbn [String.prefix].
  by destruct (Ascii.ascii_dec c c).
Qed.

Lemma prefixed_key k : prefixed (STORAGE_PREFIX +:+ k) = true.
Proof. apply prefix_append. Qed.

Lemma storage_key_inj k k' :
  STORAGE_PREFIX +:+ k = STORAGE_PREFIX +:+ k' → k = k'.
Proof. apply (inj (String.app STORAGE_PREFIX)). Qed.

Lemma eqb_empty_false (text : string) : text ≠ "" → String.eqb text "" = false.
Proof. intros H. by apply String.eqb_neq. Qed.

(** X1.  What [storeData] stored under a key is what [getData] reads
    back for it, and the other keys read as before. *)
Theorem getData_storeData k d s :
  JSON_parse (JSON_stringify d) = Some d → JSON_stringify d ≠ "" →
  getData JSON_parse k (storeData JSON_stringify k d s) = Some d
  ∧ ∀ k', k' ≠ k →
      getData JSON_parse k' (storeData JSON_stringify k d s)
      = getData JSON_parse k' s.
Proof.
  intros Hround Htext. unfold getData. rewrite storeData_storage. split.
  - rewrite lookup_insert_eq, eqb_empty_false by done. done.
  - intros k' Hk. rewrite lookup_insert_ne; [done|].
    intros Heq%storage_key_inj. congruence.
Qed.

Lemma delete_key_storage k s : storage (delete_key k s) = delete k (storage s).
Proof. unfold delete_key. simpl. by destruct (localStorage s). Qed.

Lemma delete_key_localStorage k s :
  localStorage (delete_key k s) = removeItem k <$> localStorage s.
Proof.
  unfold delete_key. simpl. destruct (localStorage s) eqn:E; simpl; [done|].
  by rewrite E.
Qed.

Lemma delete_key_queue k s :
  actionQueue (delete_key k s) = actionQueue s ∧ heap (delete_key k s) = heap s
  ∧ trace (delete_key k s) = trace s
  ∧ syncInProgress (delete_key k s) = syncInProgress s
  ∧ isOnlineStatus (delete_key k s) = isOnlineStatus s.
Proof. unfold delete_key. simpl. by destruct (localStorage s). Qed.

Lemma delete_keys_storage ks :
  ∀ s k, storage (foldl (λ s k, delete_key k s) s ks) !! k
         = if decide (k ∈ ks) then None else storage s !! k.
Proof.
  induction ks as [|k0 ks IH]; intros s k; cbn [foldl].
  - by rewrite decide_False by apply not_elem_of_nil.
  - rewrite IH, delete_key_storage.
    destruct (decide (k ∈ ks)) as [Hin|Hin].
    + by rewrite decide_True by by apply list_elem_of_further.
    + destruct (decide (k = k0)) as [->|Hne].
      * rewrite lookup_delete_eq. by rewrite decide_True by apply list_elem_of_here.
      * rewrite lookup_delete_ne by done.
        rewrite decide_False; [done|]. by intros [?|?]%elem_of_cons.
Qed.

Lemma delete_keys_queue ks :
  ∀ s, actionQueue (foldl (λ s k, delete_key k s) s ks) = actionQueue s
       ∧ heap (foldl (λ s k, delete_key k s) s ks) = heap s
       ∧ trace (foldl (λ s k, delete_key k s) s ks) = trace s
       ∧ syncInProgress (foldl (λ s k, delete_key k s) s ks) = syncInProgress s
       ∧ isOnlineStatus (foldl (λ s k, delete_key k s) s ks) = isOnlineStatus s.
Proof.
  induction ks as [|k0 ks IH]; intros s; cbn [foldl]; [done|].
  destruct (IH (delete_key k0 s)) as (-> & -> & -> & -> & ->).
  apply delete_key_queue.
Qed.

Lemma clear_all_storage s k :
  storage (clear_all s) !! k = if prefixed k then None else storage s !! k.
Proof.
  unfold clear_all. rewrite delete_keys_storage.
  destruct (prefixed k) eqn:Hp.
  - case_decide as Hin; [done|].
    destruct (storage s !! k) as [v|] eqn:Hk; [|done].
    exfalso. apply Hin. apply list_elem_of_filter. split; [by rewrite Hp|].
    apply list_elem_of_fmap. exists (k, v). split; [done|].
    by apply elem_of_map_to_list.
  - rewrite decide_False; [done|].
    intros [Hpk _]%list_elem_of_filter. by rewrite Hp in Hpk.
Qed.

Lemma cache_size_unprefixed (m : gmap string string) :
  (∀ k v, m !! k = Some v → prefixed k = false) →
  map_fold (λ key value totalSize,
              if prefixed key then totalSize + String.length value else totalSize)
           0 m = 0.
Proof.
  apply (map_fold_weak_ind
           (λ r (m : gmap string string),
              (∀ k v, m !! k = Some v → prefixed k = false) → r = 0)).
  - done.
  - intros i x m' r Hi IH Hall.
    rewrite (Hall i x) by apply lookup_insert_eq. apply IH.
    intros k v Hk. apply (Hall k v). rewrite lookup_insert_ne; [done|].
    intros <-. congruence.
Qed.

(** X2.  [clearData(key)] forgets that key, in the map and in
    [localStorage], and nothing else: the other keys read as before and
    the queue in memory keeps its actions. *)
Theorem clearData_key k s :
  k ≠ "" →
  let s' := clearData (Some k) s in
  getData' k s' = None
  ∧ (∀ k', k' ≠ k → getData' k' s' = getData' k' s)
  ∧ getQueuedActions s' = getQueuedActions s
  ∧ (∀ ls, localStorage s = Some ls →
       localStorage s'
       = Some (mkLocalStorage (delete (STORAGE_PREFIX +:+ k) (items ls))
                 (quota ls))).
Proof.
  intros Hk s'. subst s'. unfold clearData. rewrite eqb_empty_false by done.
  unfold getData. rewrite delete_key_storage. split_and!.
  - by rewrite lookup_delete_eq.
  - intros k' Hne. rewrite lookup_delete_ne; [done|].
    intros Heq%storage_key_inj. congruence.
  - unfold getQueuedActions, queue_objects.
    by destruct (delete_key_queue (STORAGE_PREFIX +:+ k) s) as (-> & -> & _).
  - intros ls Hls. by rewrite delete_key_localStorage, Hls.
Qed.

(** X3.  [clearData()] forgets every stored key (a key that does not
    carry the prefix is kept) and leaves a cache of size 0, but the queue
    in memory keeps its actions, which the next pass still finds
    pending. *)
Theorem clearData_all s :
  let s' := clearData None s in
  (∀ k, getData' k s' = None)
  ∧ (∀ k, storage s' !! k = if prefixed k then None else storage s !! k)
  ∧ getCacheSize s' = 0
  ∧ getQueuedActions s' = getQueuedActions s
  ∧ pending s' = pending s
  ∧ clearData (Some "") s = s'.
Proof.
  intros s'. subst s'. cbn [clearData].
  assert (Hq : actionQueue (clear_all s) = actionQueue s
               ∧ heap (clear_all s) = heap s).
  { unfold clear_all. by destruct (delete_keys_queue
      (filter (λ k, prefixed k) (map_to_list (storage s)).*1) s) as (-> & -> & _). }
  destruct Hq as [Hq Hh]. split_and!.
  - intros k. unfold getData. by rewrite clear_all_storage, prefixed_key.
  - apply clear_all_storage.
  - unfold getCacheSize. apply cache_size_unprefixed.
    intros k v Hk. rewrite clear_all_storage in Hk.
    by destruct (prefixed k).
  - unfold getQueuedActions, queue_objects. by rewrite Hq, Hh.
  - unfold pending. by rewrite Hq, Hh.
  - done.
Qed.

Lemma cache_size_comm (j1 j2 z1 z2 : string) (y : nat) :
  (if prefixed j1
   then (if prefixed j2 then y + String.length z2 else y) + String.length z1
   else (if prefixed j2 then y + String.length z2 else y))
  = (if prefixed j2
     then (if prefixed j1 then y + String.length z1 else y) + String.length z2
     else (if prefixed j1 then y + String.length z1 else y)).
Proof. destruct (prefixed j1), (prefixed j2); lia. Qed.

Lemma cache_size_after_store k d s :
  getCacheSize (storeData' k d s)
  + String.length (default "" (storage s !! (STORAGE_PREFIX +:+ k)))
  = getCacheSize s + String.length (JSON_stringify d).
Proof.
  unfold getCacheSize. rewrite storeData_storage.
  set (key := STORAGE_PREFIX +:+ k). set (text := JSON_stringify d).
  assert (Hp : prefixed key = true) by apply prefixed_key.
  destruct (storage s !! key) as [old|] eqn:Hold; simpl.
  - rewrite <- (insert_delete_eq (storage s)).
    rewrite map_fold_insert_L;
      [|intros; apply cache_size_comm|apply lookup_delete_eq].
    rewrite (map_fold_delete_L _ 0 key old (storage s));
      [|intros; apply cache_size_comm|done].
    rewrite Hp. lia.
  - rewrite map_fold_insert_L; [|intros; apply cache_size_comm|done].
    rewrite Hp. lia.
Qed.

(** X4.  Storing under a key changes the cache size by the length of the
    new text less the length of the text it replaces: by the length of
    the text for a new key, and by nothing for the same value stored
    again. *)
Theorem getCacheSize_storeData k d s :
  getCacheSize (storeData JSON_stringify k d s)
  + String.length (default "" (storage s !! (STORAGE_PREFIX +:+ k)))
  = getCacheSize s + String.length (JSON_stringify d)
  ∧ (storage s !! (STORAGE_PREFIX +:+ k) = None →
     getCacheSize (storeData JSON_stringify k d s)
     = getCacheSize s + String.length (JSON_stringify d))
  ∧ getCacheSize (storeData JSON_stringify k d (storeData JSON_stringify k d s))
    = getCacheSize (storeData JSON_stringify k d s).
Proof.
  pose proof (cache_size_after_store k d s) as H1.
  pose proof (cache_size_after_store k d (storeData' k d s)) as H2.
  rewrite storeData_storage, lookup_insert_eq in H2. simpl in H2.
  split_and!; [done| |lia].
  intros Hnone. rewrite Hnone in H1. cbn [default String.length] in H1. lia.
Qed.

Lemma finish_pass_lastSync now s :
  storage (finish_pass JSON_stringify now s) !! (STORAGE_PREFIX +:+ "lastSync")
  = Some (JSON_stringify (SNumber now)).
Proof.
  unfold finish_pass, store_queue. rewrite storeData_storage.
  rewrite lookup_insert_ne by (intros ?%storage_key_inj; done).
  cbn [storage with_actionQueue]. rewrite storeData_storage.
  apply lookup_insert_eq.
Qed.

(** X5.  After a pass that ran, [getLastSyncTime] is the clock reading
    the pass stored when it finished. *)
Theorem getLastSyncTime_after_pass now rolls s :
  syncInProgress s = false → isOnline s = true →
  JSON_parse (JSON_stringify (SNumber now)) = Some (SNumber now) →
  JSON_stringify (SNumber now) ≠ "" →
  getLastSyncTime JSON_parse (syncData' now rolls s).1 = SNumber now.
Proof.
  intros H1 H2 Hround Htext. rewrite syncData_run by done. cbv zeta.
  unfold getLastSyncTime, getData. cbn [fst storage with_syncInProgress].
  rewrite finish_pass_lastSync, eqb_empty_false by done.
  unfold decompressData. rewrite Hround. simpl.
  destruct (now =? 0)%Z eqn:E; simpl; [|done].
  apply Z.eqb_eq in E. by subst.
Qed.

(** X6.  [clearCache] leaves an empty queue whose text is the only
    prefixed entry of the store, so that the cache is as large as that
    text, and the pass that follows has nothing to submit. *)
Theorem clearCache_empties now rolls s :
  let s' := clearCache JSON_stringify s in
  getQueuedActions s' = []
  ∧ (∀ k, storage s' !! k
          = if decide (k = STORAGE_PREFIX +:+ "actionQueue")
            then Some (JSON_stringify (SQueue []))
            else if prefixed k then None else storage s !! k)
  ∧ getCacheSize s' = String.length (JSON_stringify (SQueue []))
  ∧ processes (new_events s' (syncData' now rolls s').1) = [].
Proof.
  intros s'.
  assert (Hq : actionQueue s' = []).
  { subst s'. unfold clearCache, clearQueue, store_queue.
    by rewrite storeData_actionQueue. }
  assert (Hobjs : getQueuedActions s' = []).
  { unfold getQueuedActions, queue_objects. by rewrite Hq. }
  assert (Hst : storage s'
                = <[STORAGE_PREFIX +:+ "actionQueue" := JSON_stringify (SQueue [])]>
                    (storage (clear_all s))).
  { subst s'. unfold clearCache, clearQueue, store_queue.
    by rewrite storeData_storage. }
  split_and!.
  - done.
  - intros k. rewrite Hst. case_decide as Hk.
    + subst k. apply lookup_insert_eq.
    + rewrite lookup_insert_ne by done. apply clear_all_storage.
  - subst s'. unfold clearCache, clearQueue, store_queue.
    pose proof (cache_size_after_store "actionQueue" (SQueue [])
                  (with_actionQueue [] (clearData None s))) as Hsize.
    cbn [storage with_actionQueue clearData] in Hsize.
    rewrite clear_all_storage, prefixed_key in Hsize. simpl in Hsize.
    assert (getCacheSize (with_actionQueue [] (clear_all s)) = 0) as Hzero.
    { unfold getCacheSize. cbn [storage with_actionQueue].
      apply cache_size_unprefixed. intros k v Hk.
      rewrite clear_all_storage in Hk. by destruct (prefixed k). }
    cbn [queue_objects actionQueue with_actionQueue omap list_omap] in *.
    cbn [clearData]. lia.
  - destruct (syncData_general JSON_stringify now rolls s')
      as ((evs & Htr & Hevs) & _).
    rewrite (new_events_app _ _ _ Htr).
    destruct (processes evs) as [|[[l a] r] rest] eqn:Hp; [done|].
    exfalso. assert (l ∈ actionQueue s') as Hin.
    { apply Hevs. unfold submitted. rewrite Hp. apply list_elem_of_here. }
    rewrite Hq in Hin. by apply elem_of_nil in Hin.
Qed.

(** ** Starting again from [localStorage] *)

Lemma alloc_objects_spec q :
  ∀ h : gmap loc OfflineAction,
    NoDup (alloc_objects q h).2
    ∧ omap (λ l, (alloc_objects q h).1 !! l) (alloc_objects q h).2 = q
    ∧ (∀ l, is_Some (h !! l) →
         (alloc_objects q h).1 !! l = h !! l ∧ l ∉ (alloc_objects q h).2)
    ∧ ∀ l, l ∈ (alloc_objects q h).2 → is_Some ((alloc_objects q h).1 !! l).
Proof.
  induction q as [|a q IH]; intros h.
  - simpl. split_and!; [constructor|done|by split; [|apply not_elem_of_nil]|].
    by intros l ?%elem_of_nil.
  - cbn [alloc_objects]. set (l := fresh (dom h)).
    assert (Hfresh : h !! l = None) by apply not_elem_of_dom, is_fresh.
    destruct (IH (<[l := a]> h)) as (Hnd & Hobjs & Hframe & Hlive).
    destruct (alloc_objects q (<[l := a]> h)) as [h' ls]. cbn [fst snd] in *.
    destruct (Hframe l) as [Hl Hlnot]; [by rewrite lookup_insert_eq|].
    rewrite lookup_insert_eq in Hl.
    split_and!.
    + by apply NoDup_cons.
    + csimpl. by rewrite Hl, Hobjs.
    + intros l0 Hl0. assert (l0 ≠ l) as Hne by (intros ->; rewrite Hfresh in Hl0; by destruct Hl0).
      destruct (Hframe l0) as [E Hnot]; [by rewrite lookup_insert_ne|].
      rewrite lookup_insert_ne in E by done. split; [done|].
      by intros [?|?]%elem_of_cons.
    + intros l0 [->|Hl0]%elem_of_cons; [by rewrite Hl|by apply Hlive].
Qed.

Lemma load_storage_lookup (ls : LocalStorage) (m0 : gmap string string) k :
  load_storage ls m0 !! k
  = match items ls !! k with
    | Some value =>
        if prefixed k && negb (String.eqb value "") then Some value else m0 !! k
    | None => m0 !! k
    end.
Proof.
  unfold load_storage.
  apply (map_fold_weak_ind
           (λ (r : gmap string string) (m : gmap string string),
              r !! k = match m !! k with
                       | Some value =>
                           if prefixed k && negb (String.eqb value "")
                           then Some value else m0 !! k
                       | None => m0 !! k
                       end)).
  - by rewrite lookup_empty.
  - intros i x m r Hi IH. destruct (decide (i = k)) as [->|Hne].
    + rewrite lookup_insert_eq. rewrite Hi in IH.
      destruct (prefixed k && negb (String.eqb x "")); [apply lookup_insert_eq|done].
    + rewrite (lookup_insert_ne m) by done.
      destruct (prefixed i && negb (String.eqb x "")); [|done].
      by rewrite lookup_insert_ne.
Qed.

(** What the constructor builds on a [localStorage] that holds the text
    of a queue. *)
Lemma new_service_with_queue onLine ls q :
  items ls !! (STORAGE_PREFIX +:+ "actionQueue") = Some (JSON_stringify (SQueue q)) →
  JSON_parse (JSON_stringify (SQueue q)) = Some (SQueue q) →
  JSON_stringify (SQueue q) ≠ "" →
  new_service JSON_parse onLine (Some ls)
  = Some (with_storage (load_storage ls ∅)
            (with_actionQueue (alloc_objects q ∅).2
               (with_heap (alloc_objects q ∅).1
                  (mkService (default true onLine) [] false ∅ [] ∅ (Some ls) [])))).
Proof.
  intros Hitem Hround Htext.
  unfold new_service, loadFromLocalStorage, load_queue.
  cbn [localStorage]. rewrite Hitem, eqb_empty_false by done.
  unfold decompressData. rewrite Hround. cbn [heap storage].
  by destruct (alloc_objects q ∅) as [h locs].
Qed.

(** X7.  A service built on a [localStorage] that holds the text of a
    queue starts with that queue: the same actions, in the same order,
    with the same fields, as new distinct objects; it is idle, and
    [getData] reads the queue text back. *)
Theorem new_service_recovers_queue onLine ls q :
  items ls !! (STORAGE_PREFIX +:+ "actionQueue") = Some (JSON_stringify (SQueue q)) →
  JSON_parse (JSON_stringify (SQueue q)) = Some (SQueue q) →
  JSON_stringify (SQueue q) ≠ "" →
  ∃ s', new_service JSON_parse onLine (Some ls) = Some s'
        ∧ getQueuedActions s' = q
        ∧ wf s'
        ∧ syncInProgress s' = false
        ∧ localStorage s' = Some ls
        ∧ trace s' = []
        ∧ getData JSON_parse "actionQueue" s' = Some (SQueue q).
Proof.
  intros Hitem Hround Htext.
  rewrite (new_service_with_queue onLine ls q Hitem Hround Htext).
  destruct (alloc_objects_spec q ∅) as (Hnd & Hobjs & _ & Hlive).
  destruct (alloc_objects q ∅) as [h locs]. cbn [fst snd] in *.
  eexists. split; [reflexivity|]. split_and!; try done.
  unfold getData. cbn [storage with_storage].
  rewrite load_storage_lookup, Hitem, prefixed_key, eqb_empty_false by done.
  simpl. by rewrite eqb_empty_false.
Qed.

Lemma storeData_accepted k d s ls ls' :
  localStorage s = Some ls →
  setItem (STORAGE_PREFIX +:+ k) (JSON_stringify d) ls = Some ls' →
  localStorage (storeData' k d s) = Some ls'
  ∧ items ls' !! (STORAGE_PREFIX +:+ k) = Some (JSON_stringify d).
Proof.
  intros H1 H2. split; [by eapply storeData_localStorage|by eapply setItem_items].
Qed.


End StoreFacts.

(** ** Invariants of the operations *)

Section PassFacts.

Variable JSON_stringify : Stored → string.

Local Abbreviation syncData' := (syncData JSON_stringify).
Local Abbreviation drain' := (drain JSON_stringify).
Local Abbreviation drain_step' := (drain_step JSON_stringify).
Local Abbreviation store_queue' := (store_queue JSON_stringify).
Local Abbreviation apply_op' := (apply_op JSON_stringify).
Local Abbreviation run_ops' := (run_ops JSON_stringify).
Local Abbreviation queue_stored' := (queue_stored JSON_stringify).

Lemma store_queue_stored s : queue_stored' (store_queue' s).
Proof.
  unfold queue_stored, store_queue.
  by rewrite storeData_storage, lookup_insert_eq, storeData_queue_objects.
Qed.

Lemma syncData_stored now rolls s :
  syncInProgress s = false → isOnline s = true →
  queue_stored' (syncData' now rolls s).1.
Proof.
  intros H1 H2. rewrite syncData_run by done. cbv zeta.
  unfold queue_stored. cbn [fst storage with_syncInProgress].
  apply finish_pass_storage.
Qed.

Lemma apply_op_stored s o : queue_stored' s → queue_stored' (apply_op' s o).
Proof.
  intros Hs.
  destruct o as [action idTime suffix now|actionId|actionId| |now rolls];
    cbn [apply_op].
  - apply store_queue_stored.
  - unfold markActionSynced. destruct (findIndex actionId s) as [[i l]|]; [|done].
    apply store_queue_stored.
  - unfold removeAction. destruct (findIndex actionId s) as [[i l]|]; [|done].
    apply store_queue_stored.
  - apply store_queue_stored.
  - destruct (syncInProgress s) eqn:H1; [by rewrite syncData_skip by auto|].
    destruct (isOnline s) eqn:H2; [|by rewrite syncData_skip by auto].
    by apply syncData_stored.
Qed.


(** Whatever state they start from, [queueAction], [clearQueue]
    and a pass that runs leave the stored text equal to the text of the
    queue they leave in memory. *)
Lemma storing_operations_refresh_text s :
  (∀ action idTime suffix now,
     queue_stored' (queueAction JSON_stringify action idTime suffix now s).1.1)
  ∧ queue_stored' (clearQueue JSON_stringify s)
  ∧ ∀ now rolls,
      syncInProgress s = false → isOnline s = true →
      queue_stored' (syncData' now rolls s).1.
Proof.
  split_and!.
  - intros. apply store_queue_stored.
  - apply store_queue_stored.
  - intros. by apply syncData_stored.
Qed.

(** ** Objects only move forward *)

Lemma grows_from_refl a : grows_from a a.
Proof. unfold grows_from. split_and!; try done. Qed.

Lemma grows_from_trans a b c : grows_from a b → grows_from b c → grows_from a c.
Proof.
  unfold grows_from.
  intros (H1 & H2 & H3 & H4 & H5 & H6 & H7 & H8)
         (G1 & G2 & G3 & G4 & G5 & G6 & G7 & G8).
  split_and!; try congruence; [auto|lia].
Qed.

Lemma grows_from_set_synced a : grows_from a (set_synced a).
Proof. unfold grows_from. simpl. split_and!; try done. Qed.

Lemma grows_from_bump_retry a : grows_from a (bump_retry a).
Proof. unfold grows_from. simpl. split_and!; try done. lia. Qed.

Lemma heap_grows_refl h : heap_grows h h.
Proof. intros l a Ha. exists a. split; [done|apply grows_from_refl]. Qed.

Lemma heap_grows_trans h1 h2 h3 :
  heap_grows h1 h2 → heap_grows h2 h3 → heap_grows h1 h3.
Proof.
  intros H12 H23 l a Ha. destruct (H12 l a Ha) as (b & Hb & Hab).
  destruct (H23 l b Hb) as (c & Hc & Hbc). exists c. split; [done|].
  by eapply grows_from_trans.
Qed.

Lemma heap_grows_alter f k (h : gmap loc OfflineAction) :
  (∀ a, grows_from a (f a)) → heap_grows h (alter f k h).
Proof.
  intros Hf l a Ha. destruct (decide (k = l)) as [->|Hne].
  - exists (f a). by rewrite lookup_alter_eq, Ha.
  - exists a. rewrite lookup_alter_ne by done. split; [done|apply grows_from_refl].
Qed.

Lemma heap_grows_insert l b (h : gmap loc OfflineAction) :
  h !! l = None → heap_grows h (<[l := b]> h).
Proof.
  intros Hl l' a Ha. exists a. split; [|apply grows_from_refl].
  rewrite lookup_insert_ne; [done|]. intros <-. congruence.
Qed.

Lemma markActionSynced_grows actionId s :
  heap_grows (heap s) (heap (markActionSynced JSON_stringify actionId s)).
Proof.
  rewrite markActionSynced_heap. destruct (findIndex actionId s) as [[i l]|].
  - apply heap_grows_alter, grows_from_set_synced.
  - apply heap_grows_refl.
Qed.

Lemma drain_step_grows rolls s n errs x :
  heap_grows (heap s) (heap (drain_step' rolls (s, n, errs) x).1.1).
Proof.
  destruct (heap s !! x) as [a|] eqn:Ha.
  2:{ unfold drain_step. rewrite Ha. apply heap_grows_refl. }
  destruct (processAction (rolls x) a) as [error|] eqn:Hp.
  - rewrite (drain_step_failure _ _ _ _ _ _ _ _ Ha Hp).
    assert (heap_grows (heap s) (alter bump_retry x (heap s))) as Hb
      by apply heap_grows_alter, grows_from_bump_retry.
    destruct (3 <=? retryCount a + 1)%Z; cbn [fst]; [|done].
    by rewrite removeAction_heap.
  - rewrite (drain_step_success _ _ _ _ _ _ _ Ha Hp). cbn [fst].
    apply (markActionSynced_grows (id a) (after_attempt x a None s)).
Qed.

Lemma drain_grows rolls R :
  ∀ s n errs, heap_grows (heap s) (heap (drain' rolls R (s, n, errs)).1.1).
Proof.
  induction R as [|x R IH]; intros s n errs; [apply heap_grows_refl|].
  rewrite drain_cons.
  pose proof (drain_step_grows rolls s n errs x) as Hstep.
  destruct (drain_step' rolls (s, n, errs) x) as [[s1 n1] errs1].
  eapply heap_grows_trans; [exact Hstep|apply IH].
Qed.

Lemma syncData_grows now rolls s :
  heap_grows (heap s) (heap (syncData' now rolls s).1).
Proof.
  destruct (syncInProgress s) eqn:H1;
    [rewrite syncData_skip by auto; apply heap_grows_refl|].
  destruct (isOnline s) eqn:H2;
    [|rewrite syncData_skip by auto; apply heap_grows_refl].
  rewrite syncData_run by done. cbv zeta. cbn [fst heap with_syncInProgress].
  rewrite finish_pass_heap.
  apply (drain_grows rolls (pending s) (with_syncInProgress true s) 0%Z []).
Qed.

Lemma apply_op_grows s o : heap_grows (heap s) (heap (apply_op' s o)).
Proof.
  destruct o as [action idTime suffix now|actionId|actionId| |now rolls];
    cbn [apply_op].
  - unfold queueAction, store_queue. cbn [fst]. rewrite storeData_heap.
    cbn [heap with_actionQueue with_heap].
    apply heap_grows_insert, not_elem_of_dom, is_fresh.
  - apply markActionSynced_grows.
  - rewrite removeAction_heap. apply heap_grows_refl.
  - unfold clearQueue, store_queue. rewrite storeData_heap. apply heap_grows_refl.
  - apply syncData_grows.
Qed.

(** X10.  No operation forgets or rewinds an action object: whatever
    enqueues, marks, removals, clears and passes follow, the object keeps
    its identifier, type, entity, data and time stamp, a [synced] flag
    once set stays set, and [retryCount] never decreases. *)
Theorem objects_only_move_forward ops s l a :
  heap s !! l = Some a →
  ∃ a', heap (run_ops' ops s) !! l = Some a' ∧ grows_from a a'.
Proof.
  revert s a. induction ops as [|o ops IH]; intros s a Ha.
  - exists a. split; [done|apply grows_from_refl].
  - destruct (apply_op_grows s o l a Ha) as (b & Hb & Hab).
    destruct (IH _ _ Hb) as (c & Hc & Hbc).
    exists c. split; [done|]. by eapply grows_from_trans.
Qed.

End PassFacts.

(** ** The result of a pass *)

Section PassResult.

Variable JSON_stringify : Stored → string.

Local Abbreviation syncData' := (syncData JSON_stringify).
Local Abbreviation drain' := (drain JSON_stringify).
Local Abbreviation drain_step' := (drain_step JSON_stringify).

Lemma sublist_NoDup_filter {A} (P : A → Prop) `{!∀ x, Decision (P x)}
    (k l : list A) :
  k `sublist_of` l → NoDup l → (∀ x, x ∈ l → (P x ↔ x ∈ k)) → filter P l = k.
Proof.
  induction 1 as [|x k l Hsub IH|x k l Hsub IH]; intros Hnd HP; [done| |].
  - apply NoDup_cons in Hnd as [Hx Hnd].
    rewrite filter_cons_True by (apply HP; apply list_elem_of_here).
    f_equal. apply IH; [done|]. intros y Hy.
    rewrite (HP y) by by apply list_elem_of_further.
    rewrite elem_of_cons. split; [|auto]. intros [->|?]; done.
  - apply NoDup_cons in Hnd as [Hx Hnd].
    rewrite filter_cons_False.
    + apply IH; [done|]. intros y Hy. apply HP. by apply list_elem_of_further.
    + rewrite (HP x) by apply list_elem_of_here. intros Hin. apply Hx.
      exact (elem_of_sublist _ _ _ Hin Hsub).
Qed.

(** The counters of a drain over a queue with distinct identifiers, and
    what it does to the actions it processes. *)
Lemma drain_unique_exact rolls R :
  ∀ s n errs,
    NoDup (actionQueue s) → ids_unique s → NoDup R →
    (∀ x, x ∈ R → x ∈ actionQueue s ∧ is_Some (heap s !! x)) →
    let d' := drain' rolls R (s, n, errs) in
    let out := omap (attempt rolls (heap s)) R in
    d'.2 = errs ++ concat (outcome_errors <$> out)
    ∧ d'.1.2 = (n + Z.of_nat (length (filter (λ p, succeeded p = true) out)))%Z
    ∧ ∀ t a, t ∈ R → heap s !! t = Some a →
        heap d'.1.1 !! t = Some (touched a (processAction (rolls t) a))
        ∧ (t ∈ actionQueue d'.1.1 ↔ dropped a (processAction (rolls t) a) = false).
Proof.
  induction R as [|x R IH]; intros s n errs Hnd Huniq HR Hin d' out; subst d' out.
  - simpl. rewrite app_nil_r. split_and!; [done|lia|].
    intros t a Ht. by apply elem_of_nil in Ht.
  - destruct (Hin x) as [Hx [a Ha]]; [apply list_elem_of_here|].
    apply NoDup_cons in HR as [HxR HR].
    destruct (drain_step_unique JSON_stringify rolls s n errs x a Hnd Huniq Hx Ha)
      as (Hheap & Hq & Hsub & Herrs & Hn & _ & _).
    rewrite drain_cons.
    destruct (drain_step' rolls (s, n, errs) x) as [[s1 n1] errs1].
    simpl in Hheap, Hq, Hsub, Herrs, Hn.
    assert (Hids1 : ∀ l, id <$> heap s1 !! l = id <$> heap s !! l).
    { intros l. rewrite Hheap. apply ids_alter. intros. apply id_touched. }
    assert (Hnd1 : NoDup (actionQueue s1)) by exact (sublist_NoDup _ _ Hnd Hsub).
    assert (Huniq1 : ids_unique s1).
    { eapply ids_unique_shrink; [exact Hids1| |exact Huniq].
      intros l Hl. by apply Hq in Hl as [? _]. }
    assert (Hother : ∀ t, t ≠ x → heap s1 !! t = heap s !! t
                                  ∧ (t ∈ actionQueue s1 ↔ t ∈ actionQueue s)).
    { intros t Ht. split; [by rewrite Hheap, lookup_alter_ne|].
      rewrite Hq. clear -Ht. intuition. }
    assert (Hin1 : ∀ y, y ∈ R → y ∈ actionQueue s1 ∧ is_Some (heap s1 !! y)).
    { intros y Hy. assert (y ≠ x) as Hne by (intros ->; done).
      destruct (Hother y Hne) as [-> ->]. apply Hin. by apply list_elem_of_further. }
    destruct (IH s1 n1 errs1 Hnd1 Huniq1 HR Hin1) as (He & Hc & Hobj).
    destruct (drain_unique_frame JSON_stringify rolls R s1 n1 errs1 Hnd1 Huniq1 HR Hin1)
      as (_ & _ & _ & Hframe & _).
    assert (Hout : omap (attempt rolls (heap s1)) R = omap (attempt rolls (heap s)) R).
    { apply omap_ext_in. intros y Hy. unfold attempt.
      destruct (Hother y) as [-> _]; [intros ->; done|done]. }
    rewrite Hout in He, Hc.
    assert (Hhead : omap (attempt rolls (heap s)) (x :: R)
                    = (x, a, processAction (rolls x) a)
                      :: omap (attempt rolls (heap s)) R).
    { csimpl. unfold attempt at 1. by rewrite Ha. }
    rewrite Hhead. split_and!.
    + rewrite He, Herrs. csimpl. by rewrite <- app_assoc.
    + rewrite Hc, Hn. destruct (processAction (rolls x) a).
      * by rewrite filter_cons_False by done.
      * rewrite filter_cons_True by done. simpl length. lia.
    + intros t b [->|Ht]%elem_of_cons Hb.
      * rewrite Ha in Hb. injection Hb as <-.
        destruct (Hframe x HxR) as [-> ->].
        rewrite Hheap, lookup_alter_eq, Ha. split; [done|].
        rewrite Hq. split; [intros [_ H]; by apply H|by split].
      * assert (t ≠ x) as Hne by (intros ->; done).
        apply Hobj; [done|]. by destruct (Hother t Hne) as [-> _].
Qed.


End PassResult.

(** ** Marking and removing a queued action *)

Section KnownIds.

Variable JSON_stringify : Stored → string.

Local Abbreviation markActionSynced' := (markActionSynced JSON_stringify).
Local Abbreviation removeAction' := (removeAction JSON_stringify).
Local Abbreviation queue_stored' := (queue_stored JSON_stringify).

Lemma live_objects (h : gmap loc OfflineAction) (q : list loc) :
  (∀ l, l ∈ q → is_Some (h !! l)) →
  Forall2 (λ l a, h !! l = Some a) q (omap (λ l, h !! l) q).
Proof.
  induction q as [|l q IH]; intros Hlive; [constructor|]. csimpl.
  destruct (Hlive l (list_elem_of_here _ _)) as [a Ha]. rewrite Ha.
  constructor; [done|]. apply IH. intros x Hx. apply Hlive.
  by apply list_elem_of_further.
Qed.

Lemma objects_of_Forall2 (h : gmap loc OfflineAction) (q : list loc) objs :
  Forall2 (λ l a, h !! l = Some a) q objs → omap (λ l, h !! l) q = objs.
Proof. induction 1 as [|l a q objs Hl _ IH]; [done|]. csimpl. by rewrite Hl, IH. Qed.

(** The first queued action with the identifier of [a] is found where it
    is. *)
Lemma findIndex_first i a s :
  wf s → getQueuedActions s !! i = Some a →
  (∀ j b, (j < i)%nat → getQueuedActions s !! j = Some b → id b ≠ id a) →
  ∃ l, findIndex (id a) s = Some (i, l) ∧ actionQueue s !! i = Some l
       ∧ heap s !! l = Some a.
Proof.
  intros [Hnd Hlive] Hi Hfirst.
  pose proof (live_objects (heap s) (actionQueue s) Hlive) as F2.
  fold (queue_objects s) in F2. unfold getQueuedActions in Hi, Hfirst.
  destruct (Forall2_lookup_r _ _ _ _ _ F2 Hi) as (l & Hl & Ha).
  exists l. split_and!; [|done|done].
  apply list_find_Some. split_and!; [done|unfold has_id; by rewrite Ha|].
  intros j y Hy Hlt Hid.
  destruct (Forall2_lookup_l _ _ _ _ _ F2 Hy) as (b & Hb & Hyb).
  apply (Hfirst j b Hlt Hb). unfold has_id in Hid. rewrite Hyb in Hid.
  by injection Hid.
Qed.

(** X12.  On a well-formed queue, [markActionSynced(id)] sets the
    [synced] flag of the first action with that identifier and changes
    no other entry, [removeAction(id)] takes that action out and keeps
    the others in order, and both store the text of the new queue. *)
Theorem mark_remove_known_id i a s :
  wf s → getQueuedActions s !! i = Some a →
  (∀ j b, (j < i)%nat → getQueuedActions s !! j = Some b → id b ≠ id a) →
  getQueuedActions (markActionSynced' (id a) s)
  = <[i := set_synced a]> (getQueuedActions s)
  ∧ getQueuedActions (removeAction' (id a) s) = delete i (getQueuedActions s)
  ∧ queue_stored' (markActionSynced' (id a) s)
  ∧ queue_stored' (removeAction' (id a) s).
Proof.
  intros Hwf Hi Hfirst.
  destruct (findIndex_first i a s Hwf Hi Hfirst) as (l & Hfind & Hl & Ha).
  destruct Hwf as [Hnd Hlive].
  pose proof (live_objects (heap s) (actionQueue s) Hlive) as F2.
  fold (queue_objects s) in F2. unfold getQueuedActions in *.
  split_and!.
  - unfold queue_objects at 1.
    rewrite markActionSynced_heap, markActionSynced_actionQueue, Hfind.
    apply objects_of_Forall2, Forall2_same_length_lookup_2.
    { rewrite length_insert. by eapply Forall2_length. }
    intros j x y Hx Hy. destruct (decide (j = i)) as [->|Hne].
    + rewrite list_lookup_insert_eq in Hy by by eapply lookup_lt_Some.
      injection Hy as <-. rewrite Hl in Hx. injection Hx as <-.
      by rewrite lookup_alter_eq, Ha.
    + rewrite list_lookup_insert_ne in Hy by done.
      rewrite lookup_alter_ne.
      * by eapply (Forall2_lookup_lr _ _ _ j x y F2).
      * intros <-. apply Hne. by eapply (NoDup_lookup (actionQueue s) j i l).
  - unfold queue_objects at 1.
    rewrite removeAction_heap, removeAction_actionQueue, Hfind.
    apply objects_of_Forall2. by apply Forall2_delete.
  - unfold markActionSynced. rewrite Hfind. unfold queue_stored, store_queue.
    by rewrite storeData_storage, lookup_insert_eq, storeData_queue_objects.
  - unfold removeAction. rewrite Hfind. unfold queue_stored, store_queue.
    by rewrite storeData_storage, lookup_insert_eq, storeData_queue_objects.
Qed.

End KnownIds.

(** ** Subscribing and unsubscribing *)

Section SubscriberFacts.

Context {W : Type}.
Variable run : nat → bool → W → W * option string.



End SubscriberFacts.

(** ** Losing and regaining the network *)

Section TransitionFacts.

Variable JSON_stringify : Stored → string.
Context {W : Type}.
Variable run : nat → bool → W → W * option string.

Local Abbreviation syncData' := (syncData JSON_stringify).
Local Abbreviation drain' := (drain JSON_stringify).
Local Abbreviation drain_step' := (drain_step JSON_stringify).
Local Abbreviation enqueue_all' := (enqueue_all JSON_stringify).
Local Abbreviation simulateNetworkChange' := (simulateNetworkChange JSON_stringify run).

Lemma drain_step_isOnlineStatus rolls s n errs x :
  isOnlineStatus (drain_step' rolls (s, n, errs) x).1.1 = isOnlineStatus s.
Proof.
  destruct (heap s !! x) as [a|] eqn:Ha.
  2:{ unfold drain_step. by rewrite Ha. }
  destruct (processAction (rolls x) a) as [error|] eqn:Hp.
  - rewrite (drain_step_failure _ _ _ _ _ _ _ _ Ha Hp).
    destruct (3 <=? retryCount a + 1)%Z; cbn [fst]; [|done].
    by rewrite removeAction_isOnlineStatus.
  - rewrite (drain_step_success _ _ _ _ _ _ _ Ha Hp). cbn [fst].
    by rewrite markActionSynced_isOnlineStatus.
Qed.

Lemma drain_isOnlineStatus rolls R :
  ∀ s n errs, isOnlineStatus (drain' rolls R (s, n, errs)).1.1 = isOnlineStatus s.
Proof.
  induction R as [|x R IH]; intros s n errs; [done|]. rewrite drain_cons.
  pose proof (drain_step_isOnlineStatus rolls s n errs x) as Hstep.
  destruct (drain_step' rolls (s, n, errs) x) as [[s1 n1] errs1].
  by rewrite IH.
Qed.

(** A call of [syncData] on an idle service leaves it idle, and no call
    changes the network status. *)
Lemma syncData_flags now rolls s :
  isOnlineStatus (syncData' now rolls s).1 = isOnlineStatus s
  ∧ (syncInProgress s = false → syncInProgress (syncData' now rolls s).1 = false).
Proof.
  destruct (syncInProgress s) eqn:H1; [by rewrite syncData_skip by auto|].
  destruct (isOnline s) eqn:H2; [|by rewrite syncData_skip by auto].
  rewrite syncData_run by done. cbv zeta. fields. split; [|done].
  rewrite finish_pass_isOnlineStatus.
  apply (drain_isOnlineStatus rolls (pending s) (with_syncInProgress true s)).
Qed.

Lemma enqueue_all_trace ins :
  ∀ s, ∃ evs, trace (enqueue_all' ins s) = trace s ++ evs ∧ processes evs = [].
Proof.
  induction ins as [|i ins IH]; intros s.
  - exists []. by rewrite app_nil_r.
  - rewrite enqueue_all_cons.
    destruct (IH (queueAction JSON_stringify i.1.1.1 i.1.1.2 i.1.2 i.2 s).1.1)
      as (evs & Htr & Hevs).
    exists ([EStore "actionQueue"
               (JSON_stringify (SQueue (queue_objects
                  (queueAction JSON_stringify i.1.1.1 i.1.1.2 i.1.2 i.2 s).1.1)))]
            ++ evs).
    split; [|by rewrite processes_app, Hevs].
    rewrite Htr. unfold queueAction at 1, store_queue. cbn [fst].
    rewrite storeData_trace. fields. rewrite <- app_assoc. do 3 f_equal.
    unfold queueAction, store_queue. cbn [fst].
    by rewrite storeData_queue_objects.
Qed.

(** What the return of the network does to the service. *)
Lemma reconnect_pass now rolls s (w : W) :
  NoDup (actionQueue s) →
  let r := simulateNetworkChange' true now rolls s w in
  isOnline r.1 = true
  ∧ (syncInProgress s = true → r.1 = with_isOnlineStatus true s)
  ∧ (syncInProgress s = false →
     r.1 = (syncData' now rolls (with_isOnlineStatus true s)).1
     ∧ processes (new_events s r.1) = outcomes rolls s
     ∧ syncInProgress r.1 = false).
Proof.
  intros Hnd r. subst r. unfold simulateNetworkChange. cbn [fst snd].
  split_and!.
  - unfold autoSync, isOnline. cbn [isOnlineStatus with_isOnlineStatus].
    cbn [syncInProgress with_isOnlineStatus andb].
    destruct (syncInProgress s); cbn [negb]; [done|].
    by destruct (syncData_flags now rolls (with_isOnlineStatus true s)) as [-> _].
  - intros Hflag. unfold autoSync. cbn [syncInProgress with_isOnlineStatus].
    rewrite Hflag. by rewrite andb_false_r.
  - intros Hflag. unfold autoSync, isOnline.
    cbn [isOnlineStatus syncInProgress with_isOnlineStatus andb].
    rewrite Hflag. cbn [negb]. split_and!; [done| |].
    + apply (syncData_processes JSON_stringify now rolls (with_isOnlineStatus true s));
        done.
    + by apply (syncData_flags now rolls (with_isOnlineStatus true s)).
Qed.



End TransitionFacts.

(** ** Merging arrays *)

Section MergeFacts.

Context {T : Type}.
Variable item_id : T → string.
Variable item_updated_at : T → JsVal.
Variable Date_parse : string → option Z.

Local Abbreviation mergeArrays' := (mergeArrays item_id item_updated_at Date_parse).
Local Abbreviation add_local' := (add_local item_id item_updated_at Date_parse).
Local Abbreviation add_server' := (add_server item_id).
Local Abbreviation resolve' := (resolve_with item_updated_at Date_parse).
Local Abbreviation find_id' := (find_id item_id).

Lemma map_set_fresh k (v : T) m : k ∉ m.*1 → map_set k v m = m ++ [(k, v)].
Proof.
  induction m as [|[k0 v0] m IH]; intros Hk; [done|]. csimpl in *.
  apply not_elem_of_cons in Hk as [Hne Hk].
  destruct (String.eqb_spec k0 k) as [->|_]; [done|]. by rewrite IH.
Qed.

Lemma map_set_keys_in k (v : T) m : k ∈ m.*1 → (map_set k v m).*1 = m.*1.
Proof.
  induction m as [|[k0 v0] m IH]; intros Hk; [by apply elem_of_nil in Hk|].
  csimpl in *. destruct (String.eqb_spec k0 k) as [->|Hne]; [done|].
  csimpl. f_equal. apply IH. apply elem_of_cons in Hk as [->|Hk]; done.
Qed.

Lemma map_set_keys k (v : T) m k' :
  k' ∈ (map_set k v m).*1 ↔ k' = k ∨ k' ∈ m.*1.
Proof.
  destruct (decide (k ∈ m.*1)) as [Hk|Hk].
  - rewrite map_set_keys_in by done. split; [auto|]. by intros [->|?].
  - rewrite map_set_fresh by done. rewrite fmap_app, elem_of_app. csimpl.
    rewrite list_elem_of_singleton. tauto.
Qed.

Lemma map_set_NoDup k (v : T) m : NoDup m.*1 → NoDup (map_set k v m).*1.
Proof.
  intros Hnd. destruct (decide (k ∈ m.*1)) as [Hk|Hk].
  - by rewrite map_set_keys_in.
  - rewrite map_set_fresh by done. rewrite fmap_app. csimpl.
    apply NoDup_app. split_and!; [done| |apply NoDup_singleton].
    by intros x Hx ->%list_elem_of_singleton.
Qed.

Lemma map_set_elem k (v : T) m e : e ∈ map_set k v m → e = (k, v) ∨ e ∈ m.
Proof.
  induction m as [|[k0 v0] m IH]; csimpl.
  - intros ->%list_elem_of_singleton. by left.
  - destruct (String.eqb_spec k0 k) as [->|Hne].
    + intros [->|He]%elem_of_cons; [by left|]. right. by apply list_elem_of_further.
    + intros [->|He]%elem_of_cons; [right; apply list_elem_of_here|].
      destruct (IH He) as [->|?]; [by left|]. right. by apply list_elem_of_further.
Qed.

Lemma map_get_elem k (m : list (string * T)) v : map_get k m = Some v → (k, v) ∈ m.
Proof.
  induction m as [|[k0 v0] m IH]; [done|]. csimpl.
  destruct (String.eqb_spec k0 k) as [->|Hne].
  - intros [= ->]. apply list_elem_of_here.
  - intros H. by apply list_elem_of_further, IH.
Qed.

Lemma map_get_None k (m : list (string * T)) : map_get k m = None → k ∉ m.*1.
Proof.
  induction m as [|[k0 v0] m IH]; csimpl; [by intros _ ?%elem_of_nil|].
  destruct (String.eqb_spec k0 k) as [->|Hne]; [done|].
  intros H. apply not_elem_of_cons. split; [done|]. by apply IH.
Qed.

Lemma map_get_lookup (m : list (string * T)) i k v :
  NoDup m.*1 → m !! i = Some (k, v) → map_get k m = Some v.
Proof.
  revert i. induction m as [|[k0 v0] m IH]; intros i Hnd Hi; [done|].
  csimpl in *. apply NoDup_cons in Hnd as [Hk0 Hnd].
  destruct i as [|i]; csimpl in *.
  - injection Hi as -> ->. by rewrite String.eqb_refl.
  - destruct (String.eqb_spec k0 k) as [->|Hne]; [|by eapply IH].
    exfalso. apply Hk0. apply list_elem_of_fmap. exists (k, v). split; [done|].
    by eapply list_elem_of_lookup_2.
Qed.

Lemma map_set_replace k (v : T) m :
  NoDup m.*1 → k ∈ m.*1 →
  map_set k v m = (λ e, (e.1, if String.eqb e.1 k then v else e.2)) <$> m.
Proof.
  induction m as [|[k0 v0] m IH]; intros Hnd Hk; [by apply elem_of_nil in Hk|].
  csimpl in *. apply NoDup_cons in Hnd as [Hk0 Hnd].
  destruct (String.eqb_spec k0 k) as [->|Hne].
  - f_equal. rewrite <- (list_fmap_id m) at 1. apply list_fmap_ext.
    intros i [k1 v1] Hi. cbn. destruct (String.eqb_spec k1 k) as [->|_]; [|done].
    exfalso. apply Hk0. apply list_elem_of_fmap. exists (k, v1). split; [done|].
    by eapply list_elem_of_lookup_2.
  - f_equal. apply IH; [done|]. apply elem_of_cons in Hk as [->|Hk]; done.
Qed.

Lemma find_id_None k (xs : list T) : k ∉ item_id <$> xs → find_id' k xs = None.
Proof.
  induction xs as [|x xs IH]; intros Hk; [done|]. csimpl in *.
  apply not_elem_of_cons in Hk as [Hne Hk].
  destruct (String.eqb_spec (item_id x) k) as [<-|_]; [done|]. by apply IH.
Qed.

(** The server phase on an array without repeated identifiers. *)
Lemma server_phase (xs : list T) :
  ∀ m, NoDup (m.*1 ++ (item_id <$> xs)) →
    foldl add_server' m xs = m ++ ((λ x, (item_id x, x)) <$> xs).
Proof.
  induction xs as [|x xs IH]; intros m Hnd; [by rewrite app_nil_r|].
  csimpl in *. unfold add_server at 2.
  assert (item_id x ∉ m.*1) as Hx.
  { apply NoDup_app in Hnd as (_ & Hdisj & _). intros Hin.
    apply (Hdisj _ Hin). apply list_elem_of_here. }
  rewrite map_set_fresh by done. rewrite IH.
  - by rewrite <- app_assoc.
  - rewrite fmap_app, <- app_assoc. done.
Qed.

(** The local phase on an array without repeated identifiers. *)
Lemma local_phase conflictResolver (L : list T) :
  ∀ m, NoDup m.*1 → NoDup (item_id <$> L) →
    foldl (add_local' conflictResolver) m L
    = ((λ e, (e.1, match find_id' e.1 L with
                   | Some localItem => resolve' conflictResolver localItem e.2
                   | None => e.2
                   end)) <$> m)
      ++ ((λ x, (item_id x, x)) <$> filter (λ x, item_id x ∉ m.*1) L).
Proof.
  induction L as [|l L IH]; intros m Hm HL.
  - csimpl. rewrite app_nil_r. rewrite <- (list_fmap_id m) at 1.
    apply list_fmap_ext. by intros i [k v] _.
  - csimpl in HL. apply NoDup_cons in HL as [Hl HL].
    cbn [foldl]. unfold add_local at 2.
    destruct (map_get (item_id l) m) as [v|] eqn:Hg.
    + assert (item_id l ∈ m.*1) as Hk.
      { apply list_elem_of_fmap. exists (item_id l, v). split; [done|].
        by apply map_get_elem. }
      rewrite IH; [|by apply map_set_NoDup|done].
      rewrite map_set_keys_in by done.
      rewrite filter_cons_False by (by intros H). f_equal.
      rewrite map_set_replace by done. rewrite <- list_fmap_compose.
      apply list_fmap_ext. intros i [k0 v0] Hi. cbn.
      destruct (String.eqb_spec k0 (item_id l)) as [->|Hne].
      * rewrite (map_get_lookup m i _ v0 Hm Hi) in Hg. injection Hg as ->.
        rewrite String.eqb_refl. by rewrite find_id_None.
      * destruct (String.eqb_spec (item_id l) k0) as [E|_]; [by symmetry in E|done].
    + pose proof (map_get_None _ _ Hg) as Hk.
      rewrite IH; [|by apply map_set_NoDup|done].
      rewrite map_set_fresh by done. rewrite fmap_app.
      rewrite filter_cons_True by done. csimpl.
      rewrite find_id_None by done. rewrite <- app_assoc. cbn [app].
      f_equal.
      * apply list_fmap_ext. intros i [k0 v0] Hi. cbn.
        destruct (String.eqb_spec (item_id l) k0) as [<-|_]; [|done].
        exfalso. apply Hk. apply list_elem_of_fmap. exists (item_id l, v0).
        split; [done|]. by eapply list_elem_of_lookup_2.
      * do 2 f_equal. apply filter_ext_in. intros x Hx.
        rewrite fmap_app, not_elem_of_app. csimpl.
        rewrite list_elem_of_singleton. split; [by intros [? _]|].
        intros H. split; [done|]. intros E. apply Hl. rewrite <- E.
        apply list_elem_of_fmap. by exists x.
Qed.

(** X17.  On arrays without repeated identifiers [mergeArrays] returns
    the server items in server order, each one resolved against the local
    item with the same identifier when there is one (with the resolver
    passed, or by the default rule), followed by the local items the
    server does not have, in local order. *)
Theorem mergeArrays_by_id localArray serverArray conflictResolver :
  NoDup (item_id <$> localArray) → NoDup (item_id <$> serverArray) →
  mergeArrays' localArray serverArray conflictResolver
  = merged_by_id item_id item_updated_at Date_parse
      localArray serverArray conflictResolver.
Proof.
  intros HL HS. unfold mergeArrays, merged_by_id.
  rewrite (server_phase serverArray []) by done. rewrite app_nil_l.
  assert (((λ x, (item_id x, x)) <$> serverArray).*1 = item_id <$> serverArray)
    as Hkeys.
  { rewrite <- list_fmap_compose. by apply list_fmap_ext. }
  rewrite local_phase; [|by rewrite Hkeys|done].
  rewrite fmap_app, Hkeys. f_equal.
  - rewrite <- !list_fmap_compose. by apply list_fmap_ext.
  - rewrite <- list_fmap_compose. rewrite <- (list_fmap_id (filter _ _)) at 2.
    by apply list_fmap_ext.
Qed.

(** Every entry of the [Map] is filed under the identifier of its item
    and holds an item of one of the two arrays. *)
Local Abbreviation filed localArray serverArray m :=
  (NoDup m.*1
   ∧ ∀ k (v : T), (k, v) ∈ m →
       item_id v = k ∧ (v ∈ localArray ∨ v ∈ serverArray)).

Lemma newer_wins_either (l sv : T) :
  newer_wins item_updated_at Date_parse l sv = l
  ∨ newer_wins item_updated_at Date_parse l sv = sv.
Proof. unfold newer_wins. destruct (js_gt _ _); auto. Qed.

(** X18.  With the default rule, whatever the arrays hold, the items
    [mergeArrays] returns have pairwise distinct identifiers, each is an
    item of one of the two arrays, and their identifiers are exactly the
    identifiers that occur in either array. *)
Theorem mergeArrays_default localArray serverArray :
  let merged :=
    mergeArrays item_id item_updated_at Date_parse localArray serverArray None in
  NoDup (item_id <$> merged)
  ∧ (∀ x, x ∈ merged → x ∈ localArray ∨ x ∈ serverArray)
  ∧ ∀ k, k ∈ item_id <$> merged
         ↔ k ∈ item_id <$> localArray ∨ k ∈ item_id <$> serverArray.
Proof.
  intros merged. subst merged. unfold mergeArrays.
  (* the server phase *)
  assert (Hserver : ∀ xs m,
            (∀ x, x ∈ xs → x ∈ serverArray) →
            filed localArray serverArray m →
            filed localArray serverArray (foldl add_server' m xs)
            ∧ ∀ k, k ∈ (foldl add_server' m xs).*1
                   ↔ k ∈ m.*1 ∨ k ∈ item_id <$> xs).
  { induction xs as [|x xs IH]; intros m Hxs [Hnd Hm].
    - split; [done|]. intros k. csimpl. rewrite elem_of_nil. tauto.
    - cbn [foldl]. destruct (IH (add_server' m x)) as [Hf Hk].
      + intros y Hy. by apply Hxs, list_elem_of_further.
      + split; [by apply map_set_NoDup|]. intros k v Hkv.
        apply map_set_elem in Hkv as [[= -> ->]|Hkv]; [|by apply Hm].
        split; [done|]. right. apply Hxs, list_elem_of_here.
      + split; [done|]. intros k. rewrite Hk. unfold add_server.
        rewrite map_set_keys. csimpl. rewrite elem_of_cons. intuition. }
  (* the local phase *)
  assert (Hlocal : ∀ xs m,
            (∀ x, x ∈ xs → x ∈ localArray) →
            filed localArray serverArray m →
            filed localArray serverArray (foldl (add_local' None) m xs)
            ∧ ∀ k, k ∈ (foldl (add_local' None) m xs).*1
                   ↔ k ∈ m.*1 ∨ k ∈ item_id <$> xs).
  { induction xs as [|x xs IH]; intros m Hxs [Hnd Hm].
    - split; [done|]. intros k. csimpl. rewrite elem_of_nil. tauto.
    - cbn [foldl].
      assert (Hkeys : ∀ k, k ∈ (add_local' None m x).*1
                           ↔ k = item_id x ∨ k ∈ m.*1).
      { intros k. unfold add_local.
        destruct (map_get (item_id x) m); apply map_set_keys. }
      destruct (IH (add_local' None m x)) as [Hf Hk].
      + intros y Hy. by apply Hxs, list_elem_of_further.
      + split.
        * unfold add_local. destruct (map_get (item_id x) m); by apply map_set_NoDup.
        * intros k v Hkv. unfold add_local in Hkv.
          destruct (map_get (item_id x) m) as [sv|] eqn:Hg.
          -- apply map_set_elem in Hkv as [[= -> ->]|Hkv]; [|by apply Hm].
             apply map_get_elem, Hm in Hg as [Hid Hsv].
             unfold resolve_with. cbn [default].
             destruct (newer_wins_either x sv) as [-> | ->].
             ++ split; [done|]. left. apply Hxs, list_elem_of_here.
             ++ done.
          -- apply map_set_elem in Hkv as [[= -> ->]|Hkv]; [|by apply Hm].
             split; [done|]. left. apply Hxs, list_elem_of_here.
      + split; [done|]. intros k. rewrite Hk, Hkeys. csimpl.
        rewrite elem_of_cons. intuition. }
  destruct (Hserver serverArray []) as [Hf1 Hk1]; [done| |].
  { split; [constructor|]. by intros k v ?%elem_of_nil. }
  destruct (Hlocal localArray (foldl add_server' [] serverArray)) as [[Hnd Hm] Hk2];
    [done|done|].
  set (m := foldl (add_local' None) (foldl add_server' [] serverArray) localArray)
    in *.
  assert (Hids : item_id <$> m.*2 = m.*1).
  { rewrite <- list_fmap_compose. apply list_fmap_ext. intros i [k v] Hi. cbn.
    apply list_elem_of_lookup_2 in Hi. by apply Hm in Hi as [? _]. }
  rewrite Hids. split_and!; [done| |].
  - intros x ([k v] & -> & Hkv)%list_elem_of_fmap. by apply Hm in Hkv as [_ ?].
  - intros k. rewrite Hk2, Hk1. csimpl. rewrite elem_of_nil. tauto.
Qed.

End MergeFacts.

(** ** Generated identifiers *)

Section IdFacts.

Variable JSON_stringify : Stored → string.

(** A text without underscore. *)
Local Abbreviation plain s := (∀ s1 s2 : string, s ≠ s1 +:+ String "_"%char s2).

Lemma append_cons c (s t : string) : String c s +:+ t = String c (s +:+ t).
Proof. done. Qed.

Lemma plain_nil : plain "".
Proof.
  intros [|c s1] s2; [|by rewrite append_cons].
  by change ("" +:+ String "_"%char s2) with (String "_"%char s2).
Qed.

Lemma plain_cons c s : c ≠ "_"%char → plain s → plain (String c s).
Proof.
  intros Hc Hs [|c' s1] s2.
  - change ("" +:+ String "_"%char s2) with (String "_"%char s2). by intros [= -> _].
  - rewrite append_cons. intros [= _ H]. by apply (Hs s1 s2).
Qed.

Lemma plain_tail c s : plain (String c s) → plain s.
Proof. intros H s1 s2 ->. by apply (H (String c s1) s2). Qed.

Lemma plain_pretty_N_go x : ∀ s, plain s → plain (pretty_N_go x s).
Proof.
  induction (N.lt_wf_0 x) as [x _ IH]; intros s Hs.
  assert (x = 0 ∨ 0 < x)%N as [->|Hx] by lia; [by rewrite pretty_N_go_0|].
  rewrite pretty_N_go_step by done. apply IH; [by apply N.div_lt|].
  apply plain_cons; [|done]. unfold pretty_N_char. by repeat case_match.
Qed.

Lemma plain_pretty_N (x : N) : plain (pretty x).
Proof.
  unfold pretty, pretty_N. case_decide.
  - apply plain_cons; [done|apply plain_nil].
  - apply plain_pretty_N_go, plain_nil.
Qed.

Lemma plain_pretty_Z (z : Z) : plain (pretty z).
Proof.
  destruct z as [|p|p]; unfold pretty, pretty_Z.
  - apply plain_cons; [done|apply plain_nil].
  - apply (plain_pretty_N (N.pos p)).
  - change (plain (String "-"%char (pretty p))). apply plain_cons; [done|].
    apply (plain_pretty_N (N.pos p)).
Qed.

(** Two texts cut at their first underscore. *)
Lemma first_underscore (A : string) :
  ∀ B s1 s2, plain A → plain B →
    A +:+ String "_"%char s1 = B +:+ String "_"%char s2 → A = B ∧ s1 = s2.
Proof.
  induction A as [|a A IH]; intros [|b B] s1 s2 HA HB.
  - change ("" +:+ String "_"%char s1) with (String "_"%char s1).
    change ("" +:+ String "_"%char s2) with (String "_"%char s2). by intros [= ->].
  - change ("" +:+ String "_"%char s1) with (String "_"%char s1). rewrite append_cons.
    intros [= <- _]. by destruct (HB "" B).
  - change ("" +:+ String "_"%char s2) with (String "_"%char s2). rewrite append_cons.
    intros [= -> _]. by destruct (HA "" A).
  - rewrite !append_cons. intros [= -> H].
    destruct (IH B s1 s2) as [-> ->]; [by eapply plain_tail..|done|done].
Qed.

Lemma generateId_inj_pair now1 suffix1 now2 suffix2 :
  generateId now1 suffix1 = generateId now2 suffix2 →
  (now1, suffix1) = (now2, suffix2).
Proof.
  unfold generateId. intros H%(inj (String.append "offline_")).
  change ("_" +:+ suffix1) with (String "_"%char suffix1) in H.
  change ("_" +:+ suffix2) with (String "_"%char suffix2) in H.
  apply first_underscore in H as [H ->]; [|apply plain_pretty_Z..].
  by apply (inj pretty) in H as ->.
Qed.

(** X19.  [generateId] never gives the same identifier for two different
    pairs of clock reading and random suffix: the clock reading is
    printed without underscore, so the first underscore after the prefix
    separates the two parts. *)
Theorem generateId_inj now1 suffix1 now2 suffix2 :
  generateId now1 suffix1 = generateId now2 suffix2 ↔
  now1 = now2 ∧ suffix1 = suffix2.
Proof.
  split; [|by intros [-> ->]].
  by intros [= -> ->]%generateId_inj_pair.
Qed.

Lemma id_queued_generated (i : ActionArg * Z * string * Z) :
  own_id i.1.1.1 = None → id (queued i) = generateId i.1.1.2 i.1.2.
Proof. intros H. unfold queued, spread_action. cbn [id]. by rewrite H. Qed.


End IdFacts.

(** ** What the queue operations leave alone *)

Section ElsewhereFacts.

Variable JSON_stringify : Stored → string.

Local Abbreviation storeData' := (storeData JSON_stringify).
Local Abbreviation drain' := (drain JSON_stringify).
Local Abbreviation drain_step' := (drain_step JSON_stringify).
Local Abbreviation syncData' := (syncData JSON_stringify).
Local Abbreviation apply_op' := (apply_op JSON_stringify).
Local Abbreviation run_ops' := (run_ops JSON_stringify).

Lemma same_elsewhere_refl s : same_elsewhere s s.
Proof. by split_and!. Qed.

Lemma same_elsewhere_fields s0 s s' :
  isOnlineStatus s' = isOnlineStatus s → networkCallbacks s' = networkCallbacks s →
  storage s' = storage s → same_elsewhere s0 s → same_elsewhere s0 s'.
Proof. intros H1 H2 H3 (G1 & G2 & G3). split_and!; try congruence. by rewrite H3. Qed.

Lemma same_elsewhere_store k d s0 s :
  k = "actionQueue" ∨ k = "lastSync" →
  same_elsewhere s0 s → same_elsewhere s0 (storeData' k d s).
Proof.
  intros Hk (G1 & G2 & G3). split_and!.
  - by rewrite storeData_isOnlineStatus.
  - by rewrite storeData_networkCallbacks.
  - intros key Hq Hl. rewrite storeData_storage.
    rewrite lookup_insert_ne; [by apply G3|]. by destruct Hk as [-> | ->].
Qed.

Lemma same_elsewhere_mark actionId s0 s :
  same_elsewhere s0 s → same_elsewhere s0 (markActionSynced JSON_stringify actionId s).
Proof.
  intros H. unfold markActionSynced. destruct (findIndex actionId s) as [[i l]|]; [|done].
  apply same_elsewhere_store; [by left|].
  by apply (same_elsewhere_fields s0 s).
Qed.

Lemma same_elsewhere_remove actionId s0 s :
  same_elsewhere s0 s → same_elsewhere s0 (removeAction JSON_stringify actionId s).
Proof.
  intros H. unfold removeAction. destruct (findIndex actionId s) as [[i l]|]; [|done].
  apply same_elsewhere_store; [by left|].
  by apply (same_elsewhere_fields s0 s).
Qed.

Lemma same_elsewhere_step rolls s0 s n errs x :
  same_elsewhere s0 s → same_elsewhere s0 (drain_step' rolls (s, n, errs) x).1.1.
Proof.
  intros H. destruct (heap s !! x) as [a|] eqn:Ha.
  2:{ unfold drain_step. by rewrite Ha. }
  destruct (processAction (rolls x) a) as [error|] eqn:Hp.
  - rewrite (drain_step_failure _ _ _ _ _ _ _ _ Ha Hp).
    assert (same_elsewhere s0 (after_failure x a error s)) as Hf
      by by apply (same_elsewhere_fields s0 s).
    destruct (3 <=? retryCount a + 1)%Z; cbn [fst]; [|done].
    by apply same_elsewhere_remove.
  - rewrite (drain_step_success _ _ _ _ _ _ _ Ha Hp). cbn [fst].
    apply same_elsewhere_mark. by apply (same_elsewhere_fields s0 s).
Qed.

Lemma same_elsewhere_drain rolls R s0 :
  ∀ s n errs,
    same_elsewhere s0 s → same_elsewhere s0 (drain' rolls R (s, n, errs)).1.1.
Proof.
  induction R as [|x R IH]; intros s n errs H; [done|]. rewrite drain_cons.
  pose proof (same_elsewhere_step rolls s0 s n errs x H) as Hstep.
  destruct (drain_step' rolls (s, n, errs) x) as [[s1 n1] errs1]. by apply IH.
Qed.

Lemma same_elsewhere_sync now rolls s0 s :
  same_elsewhere s0 s → same_elsewhere s0 (syncData' now rolls s).1.
Proof.
  intros H.
  destruct (syncInProgress s) eqn:H1; [by rewrite syncData_skip by auto|].
  destruct (isOnline s) eqn:H2; [|by rewrite syncData_skip by auto].
  rewrite syncData_run by done. cbv zeta. cbn [fst].
  eapply same_elsewhere_fields; [done..|].
  unfold finish_pass, store_queue. apply same_elsewhere_store; [by left|].
  eapply same_elsewhere_fields; [done..|].
  apply same_elsewhere_store; [by right|].
  apply same_elsewhere_drain. by apply (same_elsewhere_fields s0 s).
Qed.

Lemma same_elsewhere_op s0 s o :
  same_elsewhere s0 s → same_elsewhere s0 (apply_op' s o).
Proof.
  intros H. destruct o as [action idTime suffix now|actionId|actionId| |now rolls];
    cbn [apply_op].
  - unfold queueAction, store_queue. cbn [fst].
    apply same_elsewhere_store; [by left|]. by apply (same_elsewhere_fields s0 s).
  - by apply same_elsewhere_mark.
  - by apply same_elsewhere_remove.
  - unfold clearQueue, store_queue.
    apply same_elsewhere_store; [by left|]. by apply (same_elsewhere_fields s0 s).
  - by apply same_elsewhere_sync.
Qed.

(** X21.  The queue operations and the passes write under two keys only,
    the queue's and the last sync time's: whatever enqueues, marks,
    removals, clears and passes are made, every other stored text, the
    network status and the subscribers are as they were. *)
Theorem operations_keep_other_data ops s :
  same_elsewhere s (run_ops' ops s).
Proof.
  assert (∀ s1, same_elsewhere s s1 → same_elsewhere s (run_ops' ops s1)) as H.
  { induction ops as [|o ops IH]; intros s1 H1; [done|].
    unfold run_ops in *. cbn [foldl]. by apply IH, same_elsewhere_op. }
  apply H, same_elsewhere_refl.
Qed.

End ElsewhereFacts.

(** ** The same at the sample states *)

Lemma one_queued_wf : wf one_queued.
Proof.
  exact (queueAction_wf sample_stringify plot_create 1000 "abc" 1000
           empty_service empty_service_wf).
Qed.

Lemma two_queued_wf : wf two_queued.
Proof.
  exact (queueAction_wf sample_stringify plot_update 1001 "abd" 1001
           one_queued one_queued_wf).
Qed.

Lemma two_queued_second_first j b :
  (j < 1)%nat → getQueuedActions two_queued !! j = Some b →
  id b ≠ id second_queued.
Proof.
  intros Hj. assert (j = 0)%nat as -> by lia.
  change (getQueuedActions two_queued !! 0%nat) with (Some first_queued).
  intros [= <-]. vm_compute. discriminate.
Qed.

Lemma three_subscribers_NoDup : NoDup (networkCallbacks three_subscribers).
Proof. refine (bool_decide_unpack _ _); vm_compute; exact I. Qed.

Lemma sample_text_round_trip :
  sample_parse (sample_stringify (SNumber 2000)) = Some (SNumber 2000)
  ∧ sample_stringify (SNumber 2000) ≠ ""
  ∧ sample_parse (sample_stringify (SQueue [first_queued]))
    = Some (SQueue [first_queued])
  ∧ sample_stringify (SQueue [first_queued]) ≠ "".
Proof. split_and!; try reflexivity; vm_compute; discriminate. Qed.

(** X1 at a time stamp stored beside a queued action. *)
Lemma getData_storeData_witness :
  sample_parse (sample_stringify (SNumber 2000)) = Some (SNumber 2000)
  ∧ sample_stringify (SNumber 2000) ≠ ""
  ∧ getData sample_parse "lastSync"
      (storeData sample_stringify "lastSync" (SNumber 2000) one_queued)
    = Some (SNumber 2000).
Proof.
  destruct sample_text_round_trip as (H1 & H2 & _).
  split_and!; [exact H1|exact H2|].
  exact (proj1 (getData_storeData sample_stringify sample_parse "lastSync"
                  (SNumber 2000) one_queued H1 H2)).
Defined.

(** X2 at the time stamp of [stamped_service]. *)
Lemma clearData_key_witness :
  "lastSync" ≠ ""
  ∧ getData sample_parse "lastSync" (clearData (Some "lastSync") stamped_service)
    = None
  ∧ getQueuedActions (clearData (Some "lastSync") stamped_service)
    = getQueuedActions stamped_service.
Proof.
  assert (H : "lastSync" ≠ "") by discriminate.
  split; [exact H|].
  destruct (clearData_key sample_parse "lastSync" stamped_service H)
    as (H1 & _ & H2 & _).
  split; [exact H1|exact H2].
Defined.

(** X5 at a pass over one queued action. *)
Lemma getLastSyncTime_after_pass_witness :
  syncInProgress one_queued = false ∧ isOnline one_queued = true
  ∧ getLastSyncTime sample_parse
      (syncData sample_stringify 2000 never_fail one_queued).1
    = SNumber 2000.
Proof.
  destruct sample_text_round_trip as (H1 & H2 & _).
  split_and!; [reflexivity..|].
  exact (getLastSyncTime_after_pass sample_stringify sample_parse 2000 never_fail
           one_queued eq_refl eq_refl H1 H2).
Defined.

(** X7 at the [localStorage] a session with one queued action left. *)
Lemma new_service_recovers_queue_witness :
  items left_behind !! (STORAGE_PREFIX +:+ "actionQueue")
  = Some (sample_stringify (SQueue [first_queued]))
  ∧ ∃ s', new_service sample_parse (Some true) (Some left_behind) = Some s'
          ∧ getQueuedActions s' = [first_queued].
Proof.
  destruct sample_text_round_trip as (_ & _ & H1 & H2).
  assert (H0 : items left_behind !! (STORAGE_PREFIX +:+ "actionQueue")
               = Some (sample_stringify (SQueue [first_queued])))
    by (vm_compute; reflexivity).
  split; [exact H0|].
  destruct (new_service_recovers_queue sample_stringify sample_parse (Some true)
              left_behind [first_queued] H0 H1 H2) as (s' & Hs' & Hq & _).
  exists s'. split; [exact Hs'|exact Hq].
Defined.



(** X10 for the first sample action along the same history. *)
Lemma objects_only_move_forward_witness :
  heap one_queued !! 0%nat = Some first_queued
  ∧ ∃ a', heap (run_ops sample_stringify sample_ops one_queued) !! 0%nat = Some a'
          ∧ grows_from first_queued a'.
Proof.
  split; [reflexivity|].
  exact (objects_only_move_forward sample_stringify sample_ops one_queued 0%nat
           first_queued eq_refl).
Defined.


(** X12 at the second of the two sample actions. *)
Lemma mark_remove_known_id_witness :
  wf two_queued ∧ getQueuedActions two_queued !! 1%nat = Some second_queued
  ∧ getQueuedActions (markActionSynced sample_stringify (id second_queued) two_queued)
    = <[1%nat := set_synced second_queued]> (getQueuedActions two_queued)
  ∧ getQueuedActions (removeAction sample_stringify (id second_queued) two_queued)
    = delete 1%nat (getQueuedActions two_queued).
Proof.
  split_and!; [apply two_queued_wf|reflexivity|..];
    destruct (mark_remove_known_id sample_stringify 1%nat second_queued two_queued
                two_queued_wf eq_refl two_queued_second_first)
      as (H1 & H2 & _); [exact H1|exact H2].
Defined.




Lemma sample_arrays_NoDup :
  NoDup (sample_item_id <$> [srv_edited; tmp_stamped])
  ∧ NoDup (sample_item_id <$> [srv_stamped]).
Proof. split; refine (bool_decide_unpack _ _); vm_compute; exact I. Qed.

(** X17 at a server record, its edited local copy and a new local
    record. *)
Lemma mergeArrays_by_id_witness :
  NoDup (sample_item_id <$> [srv_edited; tmp_stamped])
  ∧ NoDup (sample_item_id <$> [srv_stamped])
  ∧ mergeArrays sample_item_id sample_item_updated_at sample_dates
      [srv_edited; tmp_stamped] [srv_stamped] None
    = merged_by_id sample_item_id sample_item_updated_at sample_dates
        [srv_edited; tmp_stamped] [srv_stamped] None.
Proof.
  destruct sample_arrays_NoDup as [H1 H2].
  split_and!; [exact H1|exact H2|].
  exact (mergeArrays_by_id sample_item_id sample_item_updated_at sample_dates
           [srv_edited; tmp_stamped] [srv_stamped] None H1 H2).
Defined.

Lemma sample_inputs_fresh :
  ids_unique empty_service
  ∧ (∀ i, i ∈ sample_inputs → own_id i.1.1.1 = None)
  ∧ NoDup ((λ i : ActionArg * Z * string * Z, (i.1.1.2, i.1.2)) <$> sample_inputs)
  ∧ ∀ a i, a ∈ getQueuedActions empty_service → i ∈ sample_inputs →
           id a ≠ generateId i.1.1.2 i.1.2.
Proof.
  split_and!.
  - by intros l1 l2 a1 a2 ?%elem_of_nil.
  - intros i [->|[->|?%elem_of_nil]%elem_of_cons]%elem_of_cons; done.
  - refine (bool_decide_unpack _ _); vm_compute; exact I.
  - by intros a i ?%elem_of_nil.
Qed.

